(** * The koolo host process: task orchestration and graceful shutdown

    A verification development for [cmd/koolo/main.go].  The Go program is
    embedded as follows.

    - Every goroutine body is a value of [prog]: a tree whose nodes are the
      calls the body makes (to a collaborator, to the Go runtime, to the
      errgroup) and whose leaves say how the body ends: it returns, it is
      panicking, or it called [os.Exit].  [defer] is a combinator on such
      trees.
    - The process is a [state] (the goroutines, the two contexts, the
      errgroup, the trace so far) and [step] lets one goroutine take its
      next call with a reply picked by the environment.  A run is a list of
      such choices; everything that is proved holds for every run.
    - The file tree under ["config"] that [findConfigFiles] walks is a value
      of [node].  *)

From Stdlib Require Import String Ascii List Bool Arith ZArith Lia.
Import ListNotations.
Local Open Scope string_scope.

Set Implicit Arguments.

(** ** Strings, as the Go packages used by the program treat them *)

Module GoStrings.

(** A Go [error] is observed through its message only. *)
Definition error := string.

Definition nl : string := String "010"%char EmptyString.

(** [strings.Join]. *)
Definition Join (elems : list string) (sep : string) : string :=
  String.concat sep elems.

Definition in_range (lo hi : nat) (c : ascii) : bool :=
  Nat.leb lo (nat_of_ascii c) && Nat.leb (nat_of_ascii c) hi.

(** [strings.ToLower] on ASCII: the bytes 'A'..'Z' are mapped, every
    other byte is kept.  Names with letters outside ASCII are not
    modelled. *)
Definition lower_byte (c : ascii) : ascii :=
  if in_range 65 90 c then ascii_of_nat (nat_of_ascii c + 32) else c.

Fixpoint ToLower (s : string) : string :=
  match s with
  | EmptyString => EmptyString
  | String c rest => String (lower_byte c) (ToLower rest)
  end.

(** [url.QueryEscape]: the bytes that [shouldEscape] lets through in
    query-component mode are letters, digits and [-_.~]; a space becomes
    [+]; every other byte becomes [%XX] in upper-case hexadecimal. *)
Definition shouldEscape (c : ascii) : bool :=
  negb (in_range 97 122 c || in_range 65 90 c || in_range 48 57 c
        || Ascii.eqb c "-" || Ascii.eqb c "_" || Ascii.eqb c "."
        || Ascii.eqb c "~").

Definition upperhex : list ascii := list_ascii_of_string "0123456789ABCDEF".

Definition hex_digit (n : nat) : ascii := nth n upperhex "0"%char.

Fixpoint QueryEscape (s : string) : string :=
  match s with
  | EmptyString => EmptyString
  | String c rest =>
      if shouldEscape c then
        if Ascii.eqb c " " then String "+" (QueryEscape rest)
        else
          String "%" (String (hex_digit (nat_of_ascii c / 16))
                        (String (hex_digit (nat_of_ascii c mod 16))
                           (QueryEscape rest)))
      else String c (QueryEscape rest)
  end.

(** [url.QueryUnescape], the inverse direction: what the receiving end
    of a request reads back from the query string. *)
Definition unhex (c : ascii) : option nat :=
  if in_range 48 57 c then Some (nat_of_ascii c - 48)
  else if in_range 97 102 c then Some (nat_of_ascii c - 97 + 10)
  else if in_range 65 70 c then Some (nat_of_ascii c - 65 + 10)
  else None.

Fixpoint QueryUnescape (s : string) : option string :=
  match s with
  | EmptyString => Some EmptyString
  | String c rest =>
      if Ascii.eqb c "%" then
        match rest with
        | String h (String l rest') =>
            match unhex h, unhex l, QueryUnescape rest' with
            | Some a, Some b, Some t =>
                Some (String (ascii_of_nat (16 * a + b)) t)
            | _, _, _ => None
            end
        | _ => None
        end
      else
        match QueryUnescape rest with
        | Some t => Some (String (if Ascii.eqb c "+" then " "%char else c) t)
        | None => None
        end
  end.

(** Whether [sub] occurs at the start of [s] ([strings.HasPrefix]). *)
Definition HasPrefix (s sub : string) : bool := String.prefix sub s.

End GoStrings.
Export GoStrings.

(** ** The file tree that [filepath.Walk] sees *)

(** What [os.Lstat], reading a directory and opening a file answer.  The
    content of a file is the sequence of lines a [bufio.Scanner] yields
    from it; the entries of a directory come in the order in which
    [filepath.Walk] visits them. *)
Inductive node : Type :=
| File (content : error + list string)   (* a file, and what opening it gives *)
| Dir (listing : entries)                (* a directory that can be read *)
| BadDir (read_err : error)              (* a directory whose reading fails *)
| Missing (lstat_err : error)            (* os.Lstat fails *)
with entries : Type :=
| ENil
| ECons (name : string) (n : node) (rest : entries).

Scheme node_entries_ind := Induction for node Sort Prop
  with entries_node_ind := Induction for entries Sort Prop.
Combined Scheme node_mutind from node_entries_ind, entries_node_ind.

Definition is_dir (n : node) : bool :=
  match n with Dir _ | BadDir _ => true | _ => false end.

(** ** The calls a goroutine makes *)

(** The goroutines of the process. *)
Inductive tid : Type :=
| TMain        (* func main *)
| TScheduler   (* go scheduler.Start() *)
| TGui         (* first g.Go: the webview *)
| TDiscord     (* g.Go: discordBot.Start *)
| TTelegram    (* g.Go: telegramBot.Start *)
| TServer      (* g.Go: srv.Listen *)
| TEventBus    (* g.Go: eventListener.Listen *)
| TShutdown.   (* last g.Go: the shutdown task *)

Definition tid_eq_dec (a b : tid) : {a = b} + {a <> b}.
Proof. decide equality. Defined.

Definition tid_eqb (a b : tid) : bool :=
  if tid_eq_dec a b then true else false.

Inductive op : Type :=
(* configuration, diagnostics, operator dialogs *)
| ConfigLoad                                   (* config.Load() *)
| ShowDialog (title message : string)          (* utils.ShowDialog *)
| StdLog (message : string)                    (* log.Printf, and the print of log.Fatalf *)
| NewLogger                                    (* sloggger.NewLogger *)
| FlushLog                                     (* sloggger.FlushLog() *)
| LoggerError (message : string) (attr : option error)  (* logger.Error *)
| LoggerInfo (message : string)                (* logger.Info *)
| DebugStack                                   (* debug.Stack() *)
(* the config scan *)
| HttpGet (url : string)                       (* http.Get(url) *)
(* collaborators *)
| SetProcessDpiAware                           (* winproc.SetProcessDpiAware.Call() *)
| NewListener                                  (* event.NewListener *)
| NewSupervisorManager                         (* bot.NewSupervisorManager *)
| NewScheduler                                 (* bot.NewScheduler *)
| SchedulerStart                               (* scheduler.Start() *)
| SchedulerStop                                (* scheduler.Stop() *)
| ServerNew                                    (* server.New *)
| ServerListen                                 (* srv.Listen(8087) *)
| ServerStop                                   (* srv.Stop() *)
| ManagerStopAll                               (* manager.StopAll() *)
| EventListen                                  (* eventListener.Listen(ctx) *)
| RegisterHandler (t : tid)                    (* eventListener.Register(bot.Handle) *)
| GetCurrentDisplayScale                       (* config.GetCurrentDisplayScale() *)
| WebviewNew                                   (* gowebview.New *)
| WebviewSetSize                               (* w.SetSize *)
| WebviewRun                                   (* w.Run() *)
| WebviewDestroy                               (* w.Destroy() *)
| DiscordNewBot                                (* discord.NewBot *)
| DiscordStart                                 (* discordBot.Start(ctx) *)
| TelegramNewBot                               (* telegram.NewBot *)
| TelegramStart                                (* telegramBot.Start(ctx) *)
(* Go runtime, context, errgroup *)
| Cancel                                       (* cancel() of line 120 *)
| AwaitDone                                    (* <-ctx.Done() *)
| GroupGo (t : tid)                            (* g.Go(func() error {...}) *)
| GoPlain (t : tid)                            (* go f() *)
| GroupWait.                                   (* g.Wait() *)

(** What a call answers: it returns without an error, it returns an
    error, it panics, or (for [debug.Stack]) it returns text. *)
Inductive reply : Type :=
| Ok
| Fail (e : error)
| Panic (v : string)
| Text (s : string).

(** The shapes of reply each call can give.  Calls that return an [error]
    may also panic; calls without an error result either return or panic;
    the diagnostics primitives, the operator dialog and the runtime
    operations return. *)
Inductive op_kind : Type := KErr | KVoid | KQuiet | KText.

Definition kind_of (o : op) : op_kind :=
  match o with
  | ConfigLoad | NewLogger | HttpGet _ | ServerNew | ServerListen
  | ServerStop | EventListen | WebviewNew | DiscordNewBot | DiscordStart
  | TelegramNewBot | TelegramStart | GroupWait => KErr
  | SetProcessDpiAware | NewListener | NewSupervisorManager | NewScheduler
  | SchedulerStart | SchedulerStop | ManagerStopAll | RegisterHandler _
  | GetCurrentDisplayScale | WebviewSetSize | WebviewRun
  | WebviewDestroy => KVoid
  | ShowDialog _ _ | StdLog _ | FlushLog | LoggerError _ _ | LoggerInfo _
  | Cancel | AwaitDone | GroupGo _ | GoPlain _ => KQuiet
  | DebugStack => KText
  end.

Definition valid_reply (o : op) (r : reply) : bool :=
  match kind_of o, r with
  | KErr, (Ok | Fail _ | Panic _) => true
  | KVoid, (Ok | Panic _) => true
  | KQuiet, Ok => true
  | KText, Text _ => true
  | _, _ => false
  end.

(** ** Goroutine bodies *)

Inductive prog (A : Type) : Type :=
| Ret (a : A)                        (* the function returns a *)
| Throw (v : string)                 (* the goroutine is panicking with v *)
| Exit (code : Z)                    (* os.Exit(code) was called *)
| Vis (o : op) (k : reply -> prog A). (* call o, continue with its reply *)

Arguments Ret {A} a.
Arguments Throw {A} v.
Arguments Exit {A} code.
Arguments Vis {A} o k.

Fixpoint bind {A B : Type} (p : prog A) (f : A -> prog B) : prog B :=
  match p with
  | Ret a => f a
  | Throw v => Throw v
  | Exit c => Exit c
  | Vis o k => Vis o (fun r => bind (k r) f)
  end.

Declare Scope prog_scope.
Delimit Scope prog_scope with prog.
Bind Scope prog_scope with prog.

Notation "x <- p ;; q" := (bind p (fun x => q))
  (at level 61, p at next level, right associativity) : prog_scope.
Notation "p ;; q" := (bind p (fun _ => q))
  (at level 61, right associativity) : prog_scope.

(** A call whose panic unwinds the caller. *)
Definition call (o : op) : prog reply :=
  Vis o (fun r => match r with Panic v => Throw v | _ => Ret r end).

(** [defer d; body]: [d] runs when [body] returns and when it panics, and
    not when the process exits under it. *)
Fixpoint defer_ {A : Type} (d : prog unit) (body : prog A) : prog A :=
  match body with
  | Ret a => bind d (fun _ => Ret a)
  | Throw v => bind d (fun _ => Throw v)
  | Exit c => Exit c
  | Vis o k => Vis o (fun r => defer_ d (k r))
  end.

(** [defer func() { if r := recover(); r != nil { h r } }(); body] in a
    function whose results are [zero] when it ends through a recovered
    panic. *)
Fixpoint defer_recover {A : Type} (zero : A) (h : string -> prog unit)
    (body : prog A) : prog A :=
  match body with
  | Ret a => Ret a
  | Throw v => bind (h v) (fun _ => Ret zero)
  | Exit c => Exit c
  | Vis o k => Vis o (fun r => defer_recover zero h (k r))
  end.

Notation "'defer' d ;; body" := (defer_ d body)
  (at level 61, d at next level, right associativity) : prog_scope.

(** The error a call returned, as the [error] value of a [return]. *)
Definition err_of (r : reply) : option error :=
  match r with Fail e => Some e | _ => None end.

(** [log.Fatalf]: print, then [os.Exit(1)]. *)
Definition logFatalf {A : Type} (message : string) : prog A :=
  (call (StdLog message) ;; Exit 1%Z)%prog.

Definition cancel : prog unit := (call Cancel ;; Ret tt)%prog.

(** ** The calls along a goroutine body *)

(** [path p es q]: by making the calls [es], with the replies in [es], the
    body [p] becomes [q]. *)
Inductive path {A : Type} : prog A -> list (op * reply) -> prog A -> Prop :=
| path_nil p : path p [] p
| path_cons o k r es q :
    valid_reply o r = true ->
    path (k r) es q ->
    path (Vis o k) ((o, r) :: es) q.

(** A body that has ended makes no further call. *)
Definition ended {A : Type} (p : prog A) : bool :=
  match p with Vis _ _ => false | _ => true end.

(** The calls a body can make. *)
Inductive all_ops {A : Type} (P : op -> Prop) : prog A -> Prop :=
| ao_ret a : all_ops P (Ret a)
| ao_throw v : all_ops P (Throw v)
| ao_exit c : all_ops P (Exit c)
| ao_vis o k : P o -> (forall r, all_ops P (k r)) -> all_ops P (Vis o k).

(** ** The program: [cmd/koolo/main.go] *)

(** What the process finds when it starts: the path separator of the
    build target, the file tree at ["config"], and the two switches of the
    loaded configuration that [main] reads. *)
Record world : Type := mkWorld {
  path_separator : string;        (* filepath.Separator *)
  config_dir : node;              (* what is at "config" *)
  discord_enabled : bool;         (* config.Koolo.Discord.Enabled *)
  telegram_enabled : bool         (* config.Koolo.Telegram.Enabled *)
}.

(** [os.FileInfo] as the walk callback uses it, with what [os.Open] of the
    same path and scanning it would yield. *)
Record FileInfo : Type := mkFileInfo {
  Name : string;
  IsDir : bool;
  opened : error + list string
}.

(** The values the walk callback returns: [nil] or [filepath.SkipDir]. *)
Inductive walk_ret : Type := WalkNil | SkipDir.

Definition telegram_url (encodedText : string) : string :=
  "https://api.telegram.org/bot" ++ ":" ++ "/sendMessage?chat_id=" ++ ""
    ++ "&text=" ++ encodedText.

(** Lines 31-43. *)
Definition sendMessage (text : string) : prog unit :=
  (let encodedText := QueryEscape text in
   let url := telegram_url encodedText in
   r <- call (HttpGet url) ;;
   match r with
   | Fail e => call (StdLog ("Error sending message: " ++ e)) ;; Ret tt
   | _ => Ret tt
   end)%prog.

(** Lines 46-61, on the answer of [os.Open(filePath)]. *)
Definition readConfigFile (filePath : string) (file : error + list string)
  : prog string :=
  match file with
  | inl e =>
      (call (StdLog ("Error opening file " ++ filePath ++ ": " ++ e)) ;;
       Ret "")%prog
  | inr scanned => Ret (Join (firstn 5 scanned) nl)
  end.

Definition config_message (path message : string) : string :=
  "Config from " ++ path ++ ":" ++ nl ++ nl ++ message.

(** Lines 66-87: the callback given to [filepath.Walk].  The walk passes
    no [info] only together with an error. *)
Definition walkFn (path : string) (info : option FileInfo)
    (err : option error) : prog walk_ret :=
  match err with
  | Some e =>
      (call (StdLog ("Error accessing path " ++ path ++ ": " ++ e)) ;;
       Ret WalkNil)%prog
  | None =>
      match info with
      | None => Throw "invalid memory address or nil pointer dereference"
      | Some info =>
          if IsDir info && String.eqb (Name info) "template" then Ret SkipDir
          else if negb (IsDir info)
                  && String.eqb (ToLower (Name info)) "config.yaml" then
            (message <- readConfigFile path (opened info) ;;
             if String.eqb message "" then Ret WalkNil
             else sendMessage (config_message path message) ;; Ret WalkNil)%prog
          else Ret WalkNil
      end
  end.

Section Walk.

Variable sep : string.

(** [filepath.Join] of a directory path and an entry name. *)
Definition join_path (dir name : string) : string := dir ++ sep ++ name.

Definition info_of (name : string) (n : node) : FileInfo :=
  match n with
  | File c => mkFileInfo name false c
  | Dir _ | BadDir _ => mkFileInfo name true (inl "is a directory")
  | Missing e => mkFileInfo name false (inl e)
  end.

(** [filepath.walk] on what [Lstat] found: the callback first; then, for
    a directory that could be read and was not skipped, its entries in
    order.  An entry whose [Lstat] fails is reported to the callback and
    the walk goes on; [SkipDir] from a directory entry skips that
    directory only, from another entry it ends the enclosing directory.
    ([walk] on [Missing] is the branch of [filepath.Walk] for a root
    whose [Lstat] fails.) *)
Fixpoint walk (path name : string) (n : node) {struct n} : prog walk_ret :=
  match n with
  | Missing e => walkFn path None (Some e)
  | File _ => walkFn path (Some (info_of name n)) None
  | Dir es =>
      (err1 <- walkFn path (Some (info_of name n)) None ;;
       match err1 with
       | WalkNil => walk_entries path es
       | SkipDir => Ret err1
       end)%prog
  | BadDir e =>
      (err1 <- walkFn path (Some (info_of name n)) (Some e) ;;
       Ret err1)%prog
  end
with walk_entries (path : string) (es : entries) {struct es}
  : prog walk_ret :=
  match es with
  | ENil => Ret WalkNil
  | ECons name child rest =>
      let filename := join_path path name in
      match child with
      | Missing e =>
          (err <- walkFn filename None (Some e) ;;
           match err with
           | WalkNil | SkipDir => walk_entries path rest
           end)%prog
      | _ =>
          (err <- walk filename name child ;;
           match err with
           | SkipDir =>
               if is_dir child then walk_entries path rest else Ret SkipDir
           | WalkNil => walk_entries path rest
           end)%prog
      end
  end.

(** [filepath.Walk]: [SkipDir] at the root is not an error. *)
Definition Walk (root : string) (n : node) : prog (option error) :=
  (r <- walk root root n ;;
   match r with
   | SkipDir => Ret None
   | WalkNil => Ret None
   end)%prog.

End Walk.

Section Program.

Variable w : world.

(** Lines 64-92. *)
Definition findConfigFiles : prog unit :=
  (let rootDir := "config" in
   err <- Walk (path_separator w) rootDir (config_dir w) ;;
   match err with
   | Some e =>
       call (StdLog ("Error walking through directories: " ++ e)) ;; Ret tt
   | None => Ret tt
   end)%prog.

(** Lines 136-160: the GUI task. *)
Definition guiTask : prog (option error) :=
  (defer cancel ;;
   call GetCurrentDisplayScale ;;
   r <- call WebviewNew ;;
   match r with
   | Fail e =>
       call WebviewDestroy ;;
       Ret (Some ("error creating webview: " ++ e))
   | _ =>
       call WebviewSetSize ;;
       defer (call WebviewDestroy ;; Ret tt) ;;
       call WebviewRun ;;
       Ret None
   end)%prog.

(** Lines 171-173. *)
Definition discordTask : prog (option error) :=
  (r <- call DiscordStart ;; Ret (err_of r))%prog.

(** Lines 185-187. *)
Definition telegramTask : prog (option error) :=
  (r <- call TelegramStart ;; Ret (err_of r))%prog.

(** Lines 190-193. *)
Definition serverTask : prog (option error) :=
  (defer cancel ;;
   r <- call ServerListen ;; Ret (err_of r))%prog.

(** Lines 195-198. *)
Definition eventBusTask : prog (option error) :=
  (defer cancel ;;
   r <- call EventListen ;; Ret (err_of r))%prog.

(** Lines 200-212: the shutdown task. *)
Definition shutdownTask : prog (option error) :=
  (call AwaitDone ;;
   call (LoggerInfo "Koolo shutting down...") ;;
   cancel ;;
   call ManagerStopAll ;;
   call SchedulerStop ;;
   err <- call ServerStop ;;
   match err with
   | Fail e =>
       call (LoggerError "error stopping local server" (Some e)) ;; Ret tt
   | _ => Ret tt
   end ;;
   Ret (err_of err))%prog.

(** Line 130: the goroutine started with a plain [go]; whatever
    [scheduler.Start] returns is dropped. *)
Definition schedulerTask : prog (option error) :=
  (call SchedulerStart ;; Ret None)%prog.

(** Lines 190-221: the three unconditional tasks, then [g.Wait]. *)
Definition run_group : prog unit :=
  (call (GroupGo TServer) ;;
   call (GroupGo TEventBus) ;;
   call (GroupGo TShutdown) ;;
   err <- call GroupWait ;;
   match err with
   | Fail e =>
       cancel ;;
       call (LoggerError "Error running Koolo" (Some e)) ;;
       Ret tt
   | _ => call FlushLog ;; Ret tt
   end)%prog.

(** Lines 176-188, then the rest of [main]. *)
Definition telegram_init : prog unit :=
  (if telegram_enabled w then
     r <- call TelegramNewBot ;;
     match r with
     | Fail e =>
         call (LoggerError "Telegram could not been initialized" (Some e)) ;;
         Ret tt
     | _ =>
         call (RegisterHandler TTelegram) ;;
         call (GroupGo TTelegram) ;;
         run_group
     end
   else run_group)%prog.

(** Lines 162-174, then the rest of [main]. *)
Definition discord_init : prog unit :=
  (if discord_enabled w then
     r <- call DiscordNewBot ;;
     match r with
     | Fail e =>
         call (LoggerError "Discord could not been initialized" (Some e)) ;;
         Ret tt
     | _ =>
         call (RegisterHandler TDiscord) ;;
         call (GroupGo TDiscord) ;;
         telegram_init
     end
   else telegram_init)%prog.

(** Lines 120-160, then the rest of [main].  The two contexts of lines
    120 and 123 are the [parent_done] and [group_done] flags of the
    state. *)
Definition orchestrate : prog unit :=
  (defer cancel ;;
   call SetProcessDpiAware ;;
   call NewListener ;;
   call NewSupervisorManager ;;
   call NewScheduler ;;
   call (GoPlain TScheduler) ;;
   r <- call ServerNew ;;
   match r with
   | Fail e => logFatalf ("Error starting local server: " ++ e)
   | _ => Ret tt
   end ;;
   call (GroupGo TGui) ;;
   discord_init)%prog.

(** Line 110: the error built from the recovered value and the stack. *)
Definition fatal_error (r stack : string) : string :=
  "fatal error detected, Koolo will close with the following error: "
    ++ r ++ nl ++ " Stacktrace: " ++ stack.

(** Line 113: the text of the dialog. *)
Definition dialog_text (err : string) : string :=
  "Koolo will close due to an expected error, please check the latest log file for more info!"
    ++ nl ++ " " ++ err.

(** Lines 109-114: what the deferred closure does with a recovered
    value. *)
Definition report_panic (r : string) : prog unit :=
  (stack <- call DebugStack ;;
   let err := fatal_error r (match stack with Text s => s | _ => "" end) in
   call (LoggerError err None) ;;
   call FlushLog ;;
   call (ShowDialog "Koolo error :(" (dialog_text err)) ;;
   Ret tt)%prog.

(** Lines 106-115: the two deferred calls, around the rest of [main]. *)
Definition barrier (rest : prog unit) : prog unit :=
  (defer (call FlushLog ;; Ret tt) ;;
   defer_recover tt report_panic rest)%prog.

(** Lines 106-221. *)
Definition guarded : prog unit :=
  barrier (findConfigFiles ;; orchestrate)%prog.

(** Lines 94-222. *)
Definition main : prog unit :=
  (err <- call ConfigLoad ;;
   match err with
   | Fail e =>
       call (ShowDialog "Error loading configuration" e) ;;
       logFatalf ("Error loading configuration: " ++ e)
   | _ =>
       err <- call NewLogger ;;
       match err with
       | Fail e => logFatalf ("Error starting logger: " ++ e)
       | _ => Ret tt
       end ;;
       guarded
   end)%prog.

(** The code each goroutine runs. *)
Definition koolo (t : tid) : prog (option error) :=
  match t with
  | TMain => (main ;; Ret None)%prog
  | TScheduler => schedulerTask
  | TGui => guiTask
  | TDiscord => discordTask
  | TTelegram => telegramTask
  | TServer => serverTask
  | TEventBus => eventBusTask
  | TShutdown => shutdownTask
  end.

End Program.

(** ** The process: goroutines, the two contexts, the errgroup *)

Local Open Scope list_scope.

Inductive tstate : Type :=
| Idle                                   (* not started *)
| Running (p : prog (option error))      (* what is left of its body *)
| Finished.                              (* its function returned *)

(** How the process ends: [main] returns, [os.Exit] is called, or a panic
    leaves a goroutine. *)
Inductive ending : Type :=
| Returned
| Exited (code : Z)
| Crashed (t : tid) (v : string).

Definition exit_code (x : ending) : Z :=
  match x with
  | Returned => 0
  | Exited code => code
  | Crashed _ _ => 2
  end.

Inductive event : Type :=
| Ev (t : tid) (o : op) (r : reply)      (* t called o and got r *)
| EvReturn (t : tid) (e : option error)  (* a function passed to g.Go returned e *)
| EvDone (t : tid)                       (* a goroutine started with go ended *)
| EvEnd (x : ending).                    (* the process ended *)

Record state : Type := mkState {
  threads : tid -> tstate;
  parent_done : bool;         (* cancel() of line 120 was called *)
  group_done : bool;          (* the errgroup cancelled its context *)
  group_err : option error;   (* g.err, set once *)
  group_tasks : list tid;     (* functions passed to g.Go *)
  returned : list tid;        (* those of them that have returned *)
  trace : list event;         (* oldest first *)
  status : option ending      (* set once the process is gone *)
}.

(** [ctx] after line 123 is the errgroup's context, a child of the one
    [cancel] belongs to: it is done when either is. *)
Definition ctx_done (s : state) : bool := parent_done s || group_done s.

Definition upd (f : tid -> tstate) (t : tid) (x : tstate) : tid -> tstate :=
  fun t' => if tid_eq_dec t t' then x else f t'.

Definition mem (t : tid) (l : list tid) : bool := existsb (tid_eqb t) l.

Definition wait_reply (r : reply) (e : option error) : bool :=
  match r, e with
  | Ok, None => true
  | Fail a, Some b => String.eqb a b
  | _, _ => false
  end.

(** The calls of goroutine [t] in a trace, with their replies. *)
Fixpoint calls_of (t : tid) (tr : list event) : list (op * reply) :=
  match tr with
  | [] => []
  | Ev t' o r :: rest =>
      if tid_eqb t t' then (o, r) :: calls_of t rest else calls_of t rest
  | _ :: rest => calls_of t rest
  end.

(** The functions of the group that returned, in the order in which they
    did, with what they returned. *)
Fixpoint returns_of (tr : list event) : list (tid * option error) :=
  match tr with
  | [] => []
  | EvReturn t e :: rest => (t, e) :: returns_of rest
  | _ :: rest => returns_of rest
  end.

(** The first non-nil error in a list of returns, with who returned it. *)
Fixpoint first_error (rs : list (tid * option error)) : option (tid * error) :=
  match rs with
  | [] => None
  | (t, Some e) :: _ => Some (t, e)
  | (_, None) :: rest => first_error rest
  end.

(** The functions passed to [g.Go], in the order of the calls. *)
Fixpoint registered_of (tr : list event) : list tid :=
  match tr with
  | [] => []
  | Ev _ (GroupGo t) _ :: rest => t :: registered_of rest
  | _ :: rest => registered_of rest
  end.

(** Whether [cancel()] was called. *)
Definition is_cancel (e : event) : bool :=
  match e with Ev _ Cancel _ => true | _ => false end.

(** How the process ended, if it did. *)
Fixpoint ending_of (tr : list event) : option ending :=
  match tr with
  | [] => None
  | EvEnd x :: _ => Some x
  | _ :: rest => ending_of rest
  end.

(** The [error] value as the reply of the call that returns it. *)
Definition reply_of (e : option error) : reply :=
  match e with None => Ok | Some e => Fail e end.

(** What [g.Wait] returns after the returns [rs]. *)
Definition group_result (rs : list (tid * option error)) : option error :=
  option_map snd (first_error rs).

Section Runtime.

(** The code of each goroutine. *)
Variable body : tid -> prog (option error).

(** Whether the call [o] can answer [r] now.  [<-ctx.Done()] waits for
    the context; [g.Wait] waits for every function passed to [g.Go] and
    answers [g.err]; a goroutine is started once. *)
Definition enabled (s : state) (o : op) (r : reply) : bool :=
  valid_reply o r &&
  match o with
  | AwaitDone => ctx_done s
  | GroupWait =>
      forallb (fun t => mem t (returned s)) (group_tasks s)
      && wait_reply r (group_err s)
  | GroupGo t' | GoPlain t' =>
      match threads s t' with Idle => true | _ => false end
  | _ => true
  end.

(** Goroutine [t] has called [o], got [r] and goes on with [next]. *)
Definition perform (s : state) (t : tid) (o : op) (r : reply)
    (next : prog (option error)) : state :=
  let th := upd (threads s) t (Running next) in
  let tr := trace s ++ [Ev t o r] in
  match o with
  | Cancel =>
      mkState th true (group_done s) (group_err s) (group_tasks s)
        (returned s) tr (status s)
  | GroupGo t' =>
      mkState (upd th t' (Running (body t'))) (parent_done s)
        (group_done s) (group_err s) (group_tasks s ++ [t'])
        (returned s) tr (status s)
  | GoPlain t' =>
      mkState (upd th t' (Running (body t'))) (parent_done s)
        (group_done s) (group_err s) (group_tasks s)
        (returned s) tr (status s)
  | GroupWait =>
      mkState th (parent_done s) true (group_err s) (group_tasks s)
        (returned s) tr (status s)
  | _ =>
      mkState th (parent_done s) (group_done s) (group_err s)
        (group_tasks s) (returned s) tr (status s)
  end.

(** The function of goroutine [t] returns [e].  When [main] returns the
    process ends.  A function passed to [g.Go] reports to the group: the
    first non-nil error is kept and cancels the group's context.  What a
    goroutine started with [go] returns is dropped. *)
Definition finish (s : state) (t : tid) (e : option error) : state :=
  if tid_eqb t TMain then
    mkState (threads s) (parent_done s) (group_done s) (group_err s)
      (group_tasks s) (returned s) (trace s ++ [EvEnd Returned])
      (Some Returned)
  else if mem t (group_tasks s) then
    match e, group_err s with
    | Some err, None =>
        mkState (upd (threads s) t Finished) (parent_done s) true
          (Some err) (group_tasks s) (returned s ++ [t])
          (trace s ++ [EvReturn t e]) (status s)
    | _, _ =>
        mkState (upd (threads s) t Finished) (parent_done s)
          (group_done s) (group_err s) (group_tasks s) (returned s ++ [t])
          (trace s ++ [EvReturn t e]) (status s)
    end
  else
    mkState (upd (threads s) t Finished) (parent_done s) (group_done s)
      (group_err s) (group_tasks s) (returned s)
      (trace s ++ [EvDone t]) (status s).

(** A panic that nothing recovered ends the process. *)
Definition crash (s : state) (t : tid) (v : string) : state :=
  mkState (threads s) (parent_done s) (group_done s) (group_err s)
    (group_tasks s) (returned s) (trace s ++ [EvEnd (Crashed t v)])
    (Some (Crashed t v)).

(** [os.Exit(code)]. *)
Definition exit (s : state) (code : Z) : state :=
  mkState (threads s) (parent_done s) (group_done s) (group_err s)
    (group_tasks s) (returned s) (trace s ++ [EvEnd (Exited code)])
    (Some (Exited code)).

(** One move: goroutine [t] goes on, and if it is at a call, the call
    answers [r].  A move that is not possible leaves the state as it
    is. *)
Definition step (s : state) (c : tid * reply) : state :=
  let (t, r) := c in
  match status s with
  | Some _ => s
  | None =>
      match threads s t with
      | Running (Vis o k) =>
          if enabled s o r then perform s t o r (k r) else s
      | Running (Ret e) => finish s t e
      | Running (Throw v) => crash s t v
      | Running (Exit code) => exit s code
      | Idle | Finished => s
      end
  end.

Definition init : state :=
  mkState (upd (fun _ => Idle) TMain (Running (body TMain)))
    false false None [] [] [] None.

Definition exec (sched : list (tid * reply)) (s : state) : state :=
  fold_left step sched s.


(** What one move is. *)
Inductive move (s : state) : state -> Prop :=
| move_call t o k r :
    status s = None -> threads s t = Running (Vis o k) ->
    enabled s o r = true -> move s (perform s t o r (k r))
| move_return t e :
    status s = None -> threads s t = Running (Ret e) ->
    move s (finish s t e)
| move_panic t v :
    status s = None -> threads s t = Running (Throw v) ->
    move s (crash s t v)
| move_exit t code :
    status s = None -> threads s t = Running (Exit code) ->
    move s (exit s code).

(** Goroutine [t] is where its calls so far lead in its body. *)
Definition follows (s : state) (t : tid) : Prop :=
  match threads s t with
  | Idle => calls_of t (trace s) = []
  | Running p => path (body t) (calls_of t (trace s)) p
  | Finished => exists e, path (body t) (calls_of t (trace s)) (Ret e)
  end.

End Runtime.

(** A run of the program in world [w] under the schedule [sched]. *)
Definition run (w : world) (sched : list (tid * reply)) : state :=
  exec (koolo w) sched (init (koolo w)).

(** What the state holds besides the goroutines is a function of the
    trace. *)
Record from_trace (s : state) : Prop := mkFromTrace {
  ft_tasks : group_tasks s = registered_of (trace s);
  ft_returned : returned s = map fst (returns_of (trace s));
  ft_err : group_err s = group_result (returns_of (trace s));
  ft_parent : parent_done s = existsb is_cancel (trace s);
  ft_status : status s = ending_of (trace s)
}.

(** ** What the properties speak of *)

(** Which goroutine makes which call. *)
Definition may_call (t : tid) (o : op) : bool :=
  match t, o with
  | TMain, (ConfigLoad | ShowDialog _ _ | StdLog _ | NewLogger | FlushLog
           | LoggerError _ _ | DebugStack | HttpGet _ | SetProcessDpiAware
           | NewListener | NewSupervisorManager | NewScheduler | ServerNew
           | RegisterHandler _ | DiscordNewBot | TelegramNewBot | Cancel
           | GroupGo (TGui | TDiscord | TTelegram | TServer | TEventBus
                     | TShutdown)
           | GoPlain TScheduler | GroupWait) => true
  | TScheduler, SchedulerStart => true
  | TGui, (GetCurrentDisplayScale | WebviewNew | WebviewSetSize | WebviewRun
          | WebviewDestroy | Cancel) => true
  | TDiscord, DiscordStart => true
  | TTelegram, TelegramStart => true
  | TServer, (ServerListen | Cancel) => true
  | TEventBus, (EventListen | Cancel) => true
  | TShutdown, (AwaitDone | LoggerInfo _ | Cancel | ManagerStopAll
               | SchedulerStop | ServerStop | LoggerError _ _) => true
  | _, _ => false
  end.

(** The calls of the config scan. *)
Definition scan_op (o : op) : bool :=
  match o with HttpGet _ | StdLog _ => true | _ => false end.

(** The calls of [main] before line 106. *)
Definition startup_op (o : op) : bool :=
  match o with
  | ConfigLoad | NewLogger | ShowDialog _ _ | StdLog _ => true
  | _ => false
  end.

Definition is_panic (r : reply) : bool :=
  match r with Panic _ => true | _ => false end.

Definition no_panic (e : op * reply) : bool := negb (is_panic (snd e)).

(** [tame P p]: [p] makes calls in [P] only, never calls [os.Exit], and
    panics only when one of its calls does, and then at once. *)
Inductive tame {A : Type} (P : op -> bool) : prog A -> Prop :=
| tame_ret a : tame P (Ret a)
| tame_vis o k :
    P o = true ->
    (forall v, k (Panic v) = Throw v) ->
    (forall r, is_panic r = false -> tame P (k r)) ->
    tame P (Vis o k).

(** The files the scan is after: files whose lower-cased name is
    [config.yaml], in the tree at [path], not below a directory named
    [template] and not below one that cannot be read. *)
Inductive has_entry (name : string) (n : node) : entries -> Prop :=
| entry_here rest : has_entry name n (ECons name n rest)
| entry_later name' n' rest :
    has_entry name n rest -> has_entry name n (ECons name' n' rest).

Inductive scanned (sep : string)
  : string -> string -> node -> string -> list string -> Prop :=
| scanned_file path name lines :
    ToLower name = "config.yaml" ->
    scanned sep path name (File (inr lines)) path lines
| scanned_dir path name es cname child p lines :
    name <> "template" ->
    has_entry cname child es ->
    scanned sep (join_path sep path cname) cname child p lines ->
    scanned sep path name (Dir es) p lines.

(** The first five lines of a file, as [readConfigFile] returns them. *)
Definition first_lines (lines : list string) : string :=
  Join (firstn 5 lines) nl.

(** The request the scan makes for the file at [path]. *)
Definition scan_request (path : string) (lines : list string) : op :=
  HttpGet (telegram_url
             (QueryEscape (config_message path (first_lines lines)))).

(** What the receiver of a request reads in its [text] parameter. *)
Fixpoint strip_prefix (pre s : string) : option string :=
  match pre, s with
  | EmptyString, _ => Some s
  | String a pre', String b s' =>
      if Ascii.eqb a b then strip_prefix pre' s' else None
  | String _ _, EmptyString => None
  end.

Definition received_text (o : op) : option string :=
  match o with
  | HttpGet url =>
      match strip_prefix (telegram_url "") url with
      | Some q => QueryUnescape q
      | None => None
      end
  | _ => None
  end.

(** What [main] calls once the deferred closure of line 108 has recovered
    the value [v] and [debug.Stack] answered [stack]: the report, its
    flush, the dialog, and the deferred flush of line 106. *)
Definition report_calls (v stack : string) : list (op * reply) :=
  [ (DebugStack, Text stack);
    (LoggerError (fatal_error v stack) None, Ok);
    (FlushLog, Ok);
    (ShowDialog "Koolo error :(" (dialog_text (fatal_error v stack)), Ok);
    (FlushLog, Ok) ].

(** [precedes a b l]: in [l], before the first call in [b] there is a call
    in [a]. *)
Fixpoint precedes (a b : op * reply -> bool) (l : list (op * reply)) : bool :=
  match l with
  | [] => true
  | x :: rest => if a x then true else if b x then false else precedes a b rest
  end.

(** [none_before a b l]: in [l], no call in [a] comes before a call in
    [b]. *)
Fixpoint none_before (a b : op * reply -> bool) (l : list (op * reply)) : bool :=
  match l with
  | [] => true
  | x :: rest => if a x then negb (existsb b rest) else none_before a b rest
  end.

(** Calls, and calls that returned. *)
Definition calls (o : op) (x : op * reply) : bool :=
  match o, fst x with
  | ManagerStopAll, ManagerStopAll
  | SchedulerStop, SchedulerStop
  | ServerStop, ServerStop
  | GroupWait, GroupWait
  | Cancel, Cancel
  | WebviewDestroy, WebviewDestroy => true
  | _, _ => false
  end.

Definition returned_ok (o : op) (x : op * reply) : bool :=
  calls o x && match snd x with Ok => true | _ => false end.

Definition is_GroupGo (x : op * reply) : bool :=
  match fst x with GroupGo _ => true | _ => false end.

(** The calls of [main] outside lines 120-221: those before line 106,
    those of the config scan, and those of the two deferred calls. *)
Definition early_op (o : op) : bool :=
  match o with
  | ConfigLoad | NewLogger | ShowDialog _ _ | StdLog _ | HttpGet _
  | DebugStack | LoggerError _ None | FlushLog => true
  | _ => false
  end.

(** Whether the last call of a list is a flush of the log. *)
Definition last_is_flush (es : list (op * reply)) : bool :=
  match rev es with (FlushLog, Ok) :: _ => true | _ => false end.

(** Whether a call is a request to the network. *)
Definition is_request (x : op * reply) : bool :=
  match fst x with HttpGet _ => true | _ => false end.

(** A reply that every call can give without a panic. *)
Definition default_reply (o : op) : reply :=
  match kind_of o with KText => Text "" | _ => Ok end.

(** The goroutines that a list of calls starts. *)
Fixpoint starts (es : list (op * reply)) : list tid :=
  match es with
  | [] => []
  | (GroupGo t, _) :: rest | (GoPlain t, _) :: rest => t :: starts rest
  | _ :: rest => starts rest
  end.

(** Calls that wait for the context or for the group. *)
Definition waits (x : op * reply) : bool :=
  match fst x with AwaitDone | GroupWait => true | _ => false end.

(** [main] from its start to the first [g.Go], around the calls [scan] of
    the config scan, when every call returns without an error. *)
Definition calm_start (scan : list (op * reply)) : list (op * reply) :=
  (ConfigLoad, Ok) :: (NewLogger, Ok) :: scan
    ++ [ (SetProcessDpiAware, Ok); (NewListener, Ok);
         (NewSupervisorManager, Ok); (NewScheduler, Ok);
         (GoPlain TScheduler, Ok); (ServerNew, Ok); (GroupGo TGui, Ok) ].

(** The goroutine of [main] from line 106 on, with [rest] for the lines
    after 115. *)
Definition top (rest : prog unit) : prog (option error) :=
  (barrier rest ;; Ret None)%prog.

(** Where [main] is after the calls [es]: before line 106; in the config
    scan; in the deferred calls after the scan panicked; or past the
    scan. *)
Inductive main_phase (w : world) (es : list (op * reply))
    (q : prog (option error)) : Prop :=
| phase_startup :
    Forall (fun e => startup_op (fst e) = true) es ->
    (forall e, q <> Ret e) ->
    main_phase w es q
| phase_scan es1 q' :
    es = (ConfigLoad, Ok) :: (NewLogger, Ok) :: es1 ->
    path (findConfigFiles w) es1 q' ->
    tame scan_op q' ->
    Forall (fun e => scan_op (fst e) = true) es1 ->
    forallb no_panic es1 = true ->
    q = top (x <- q' ;; orchestrate w)%prog ->
    main_phase w es q
| phase_scan_panic es1 o v es2 :
    es = (ConfigLoad, Ok) :: (NewLogger, Ok) :: es1 ++ (o, Panic v) :: es2 ->
    path (findConfigFiles w) (es1 ++ [(o, Panic v)]) (Throw v) ->
    Forall (fun e => scan_op (fst e) = true) es1 ->
    forallb no_panic es1 = true ->
    scan_op o = true ->
    path (top (Throw v)) es2 q ->
    main_phase w es q
| phase_orchestrate es1 es2 :
    es = (ConfigLoad, Ok) :: (NewLogger, Ok) :: es1 ++ es2 ->
    path (findConfigFiles w) es1 (Ret tt) ->
    Forall (fun e => scan_op (fst e) = true) es1 ->
    forallb no_panic es1 = true ->
    path (top (orchestrate w)) es2 q ->
    main_phase w es q.

(** ** The optional integrations *)

Inductive integration : Type := Discord | Telegram.

Definition integration_enabled (w : world) (i : integration) : bool :=
  match i with
  | Discord => discord_enabled w
  | Telegram => telegram_enabled w
  end.

(** The constructor of the client, the goroutine of the task, and the
    message logged when the constructor fails. *)
Definition new_bot (i : integration) : op :=
  match i with Discord => DiscordNewBot | Telegram => TelegramNewBot end.

Definition task_of (i : integration) : tid :=
  match i with Discord => TDiscord | Telegram => TTelegram end.

Definition init_failed (i : integration) : string :=
  match i with
  | Discord => "Discord could not been initialized"
  | Telegram => "Telegram could not been initialized"
  end.

(** What [main] calls after the constructor of [i] failed with [e]: the
    log, then the deferred [cancel] and flush; then it returns. *)
Definition after_init_failure (i : integration) (e : error)
  : list (op * reply) :=
  [ (LoggerError (init_failed i) (Some e), Ok); (Cancel, Ok); (FlushLog, Ok) ].

Definition is_go (t : tid) (x : op * reply) : bool :=
  match fst x with GroupGo t' => tid_eqb t t' | _ => false end.

(** ** Worlds and schedules to run the program on *)

(** A config directory with the bot's own settings, the template
    character, and one character. *)
Definition demo_dir : node :=
  Dir (ECons "koolo.yaml" (File (inr ["debug: true"]))
      (ECons "template"
         (Dir (ECons "config.yaml" (File (inr ["name: template"])) ENil))
      (ECons "Sorc"
         (Dir (ECons "config.yaml"
                 (File (inr ["username: alice"; "password: hunter2";
                             "realm: eu"; "character: Sorc"; "maxGameLength: 300";
                             "health:"; "  healingPotionAt: 75"]))
                 ENil))
      ENil))).

Definition demo (discord telegram : bool) : world :=
  mkWorld "\" demo_dir discord telegram.

(** Goroutine [t] takes one move per reply of [rs]. *)
Definition by_ (t : tid) (rs : list reply) : list (tid * reply) :=
  map (pair t) rs.

(** [main] up to the first [g.Go] in [demo]: config, logger, the scan's one
    request, lines 125-131, then the GUI task. *)
Definition to_gui : list (tid * reply) :=
  by_ TMain [Ok; Ok; Ok; Ok; Ok; Ok; Ok; Ok; Ok; Ok].

(** [main] from there to [g.Wait] with no integration enabled. *)
Definition to_wait : list (tid * reply) := by_ TMain [Ok; Ok; Ok].

(** The window is closed: the GUI task runs to its end and returns nil. *)
Definition gui_closed : list (tid * reply) :=
  by_ TGui [Ok; Ok; Ok; Ok; Ok; Ok; Ok].

(** [gowebview.New] fails: destroy, cancel, return the error. *)
Definition gui_fails (e : error) : list (tid * reply) :=
  by_ TGui [Ok; Fail e; Ok; Ok; Ok].

(** The shutdown task from [<-ctx.Done()] to its return, [srv.Stop]
    answering [r]. *)
Definition shutdown_with (r : reply) : list (tid * reply) :=
  by_ TShutdown [Ok; Ok; Ok; Ok; Ok; r; Ok; Ok].

(** A task that is one blocking call under [defer cancel()]: the call
    answers [r], then cancel, then return. *)
Definition task_returns (t : tid) (r : reply) : list (tid * reply) :=
  by_ t [r; Ok; Ok].

(** [g.Wait] answers [r]; [main] goes on to its end. *)
Definition wait_and_leave (r : reply) : list (tid * reply) :=
  by_ TMain [r; Ok; Ok; Ok; Ok; Ok].

(** The window is closed and everything returns nil. *)
Definition clean_run : list (tid * reply) :=
  to_gui ++ to_wait ++ gui_closed ++ shutdown_with Ok
    ++ task_returns TServer Ok ++ task_returns TEventBus Ok
    ++ wait_and_leave Ok.

(** The window is closed, and stopping the server fails. *)
Definition stop_fails_run : list (tid * reply) :=
  to_gui ++ to_wait ++ gui_closed
    ++ shutdown_with (Fail "server did not stop")
    ++ task_returns TServer Ok ++ task_returns TEventBus Ok
    ++ wait_and_leave (Fail "server did not stop").

(** The webview cannot be created; after that the server's listen fails
    as well. *)
Definition gui_error_first_run : list (tid * reply) :=
  to_gui ++ to_wait ++ gui_fails "no display"
    ++ task_returns TServer (Fail "address in use")
    ++ shutdown_with Ok ++ task_returns TEventBus Ok
    ++ wait_and_leave (Fail "error creating webview: no display").

(** The server's listen fails first. *)
Definition listen_error_first_run : list (tid * reply) :=
  to_gui ++ to_wait ++ task_returns TServer (Fail "address in use")
    ++ gui_fails "no display"
    ++ shutdown_with (Fail "server did not stop")
    ++ task_returns TEventBus (Fail "context canceled")
    ++ wait_and_leave (Fail "address in use").

(** The window is closed, stopping the server fails, and then the
    server's listen returns an error too. *)
Definition stop_error_first_run : list (tid * reply) :=
  to_gui ++ to_wait ++ gui_closed
    ++ shutdown_with (Fail "server did not stop")
    ++ task_returns TServer (Fail "http: Server closed")
    ++ task_returns TEventBus Ok
    ++ wait_and_leave (Fail "server did not stop").

(** Discord's client is built and Telegram's fails; [main] logs and
    leaves. *)
Definition telegram_fails_run : list (tid * reply) :=
  to_gui ++ by_ TMain [Ok; Ok; Ok; Fail "bad token"; Ok; Ok; Ok; Ok].

(** [config.Load] panics. *)
Definition config_panic_run : list (tid * reply) :=
  by_ TMain [Panic "yaml: cannot unmarshal"; Ok].

(** [server.New] panics; the deferred closure reports it. *)
Definition server_panic_run : list (tid * reply) :=
  by_ TMain [Ok; Ok; Ok; Ok; Ok; Ok; Ok; Ok; Panic "nil map";
             Ok; Text "goroutine 1 [running]"; Ok; Ok; Ok; Ok; Ok].

(** [server.New] returns an error. *)
Definition server_error_run : list (tid * reply) :=
  by_ TMain [Ok; Ok; Ok; Ok; Ok; Ok; Ok; Ok;
             Fail "listen tcp :8087: bind: address already in use"; Ok; Ok].

(** ** What the further properties speak of *)

(** The requests among a list of calls, in their order. *)
Definition requests (es : list (op * reply)) : list op :=
  map fst (filter is_request es).

(** The files a walk of the tree at [path] sends, in the order of the
    walk, with their lines. *)
Fixpoint targets (sep path name : string) (n : node) {struct n}
  : list (string * list string) :=
  match n with
  | File (inr lines) =>
      if String.eqb (ToLower name) "config.yaml"
         && negb (String.eqb (first_lines lines) "")
      then [(path, lines)] else []
  | Dir es =>
      if String.eqb name "template" then [] else targets_entries sep path es
  | _ => []
  end
with targets_entries (sep path : string) (es : entries) {struct es}
  : list (string * list string) :=
  match es with
  | ENil => []
  | ECons name child rest =>
      targets sep (join_path sep path name) name child
        ++ targets_entries sep path rest
  end.

Definition request_for (t : string * list string) : op :=
  scan_request (fst t) (snd t).

(** The requests of a whole scan. *)
Definition expected_requests (w : world) : list op :=
  map request_for (targets (path_separator w) "config" "config" (config_dir w)).

(** [emits p L]: along [p] the requests made so far are the first ones of
    [L], and all of [L] once [p] has returned. *)
Definition emits {A : Type} (p : prog A) (L : list op) : Prop :=
  forall es q, path p es q ->
    (exists n, requests es = firstn n L) /\
    (forall a, q = Ret a -> requests es = L).

(** The tasks [main] passes to [g.Go], in the order of lines 136-212. *)
Definition expected_tasks (w : world) : list tid :=
  TGui :: (if discord_enabled w then [TDiscord] else [])
       ++ (if telegram_enabled w then [TTelegram] else [])
       ++ [TServer; TEventBus; TShutdown].

(** The functions a list of calls passes to [g.Go]. *)
Fixpoint group_starts (es : list (op * reply)) : list tid :=
  match es with
  | [] => []
  | (GroupGo t, _) :: rest => t :: group_starts rest
  | _ :: rest => group_starts rest
  end.

(** What [main] calls after [g.Wait] has answered [r]: lines 215-221, then
    the deferred [cancel] and flush. *)
Definition after_wait (r : reply) : list (op * reply) :=
  match r with
  | Fail e =>
      [ (Cancel, Ok); (LoggerError "Error running Koolo" (Some e), Ok);
        (Cancel, Ok); (FlushLog, Ok) ]
  | _ => [ (FlushLog, Ok); (Cancel, Ok); (FlushLog, Ok) ]
  end.

(** The calls of [main] on its three ways to [log.Fatalf]: [config.Load]
    fails (lines 95-99), [NewLogger] fails (lines 102-105), [server.New]
    fails after the scan (lines 131-134). *)
Inductive fatal (w : world) : list (op * reply) -> Prop :=
| fatal_config e :
    fatal w [ (ConfigLoad, Fail e);
              (ShowDialog "Error loading configuration" e, Ok);
              (StdLog ("Error loading configuration: " ++ e), Ok) ]
| fatal_logger e :
    fatal w [ (ConfigLoad, Ok); (NewLogger, Fail e);
              (StdLog ("Error starting logger: " ++ e), Ok) ]
| fatal_server scan e :
    path (findConfigFiles w) scan (Ret tt) ->
    fatal w ((ConfigLoad, Ok) :: (NewLogger, Ok) :: scan
               ++ [ (SetProcessDpiAware, Ok); (NewListener, Ok);
                    (NewSupervisorManager, Ok); (NewScheduler, Ok);
                    (GoPlain TScheduler, Ok); (ServerNew, Fail e);
                    (StdLog ("Error starting local server: " ++ e), Ok) ]).

(** The tasks that are one blocking call: the call, and whether the task
    defers [cancel] (lines 171-173, 185-187, 190-193, 195-198). *)
Definition task_call (t : tid) : option (op * bool) :=
  match t with
  | TDiscord => Some (DiscordStart, false)
  | TTelegram => Some (TelegramStart, false)
  | TServer => Some (ServerListen, true)
  | TEventBus => Some (EventListen, true)
  | _ => None
  end.

(** The calls of such a task when its call answered [r]. *)
Definition task_calls (o : op) (cancels : bool) (r : reply)
  : list (op * reply) :=
  (o, r) :: (if cancels then [(Cancel, Ok)] else []).

(** The calls of the GUI task when the window was shown and closed, and
    when [gowebview.New] failed with [e]. *)
Definition gui_shown : list (op * reply) :=
  [ (GetCurrentDisplayScale, Ok); (WebviewNew, Ok); (WebviewSetSize, Ok);
    (WebviewRun, Ok); (WebviewDestroy, Ok); (Cancel, Ok) ].

Definition gui_failed (e : error) : list (op * reply) :=
  [ (GetCurrentDisplayScale, Ok); (WebviewNew, Fail e); (WebviewDestroy, Ok);
    (Cancel, Ok) ].

(** [same_calls p p']: the bodies [p] and [p'] make the same calls and end
    in the same way, whatever the calls answer. *)
Inductive same_calls {A : Type} : prog A -> prog A -> Prop :=
| same_ret a : same_calls (Ret a) (Ret a)
| same_throw v : same_calls (Throw v) (Throw v)
| same_exit c : same_calls (Exit c) (Exit c)
| same_vis o k k' :
    (forall r, same_calls (k r) (k' r)) -> same_calls (Vis o k) (Vis o k').

Inductive same_thread : tstate -> tstate -> Prop :=
| same_idle : same_thread Idle Idle
| same_running p p' : same_calls p p' -> same_thread (Running p) (Running p')
| same_finished : same_thread Finished Finished.

Record same_state (s s' : state) : Prop := mkSame {
  same_threads : forall t, same_thread (threads s t) (threads s' t);
  same_parent : parent_done s = parent_done s';
  same_group : group_done s = group_done s';
  same_err : group_err s = group_err s';
  same_tasks : group_tasks s = group_tasks s';
  same_returned : returned s = returned s';
  same_trace : trace s = trace s';
  same_status : status s = status s'
}.

(** What the scan can see of a tree: of a file named [config.yaml] the
    first five lines (or the error of opening it), of another file that it
    is there, of a directory named [template] that it is there, of another
    directory its entries.  [name] is the name of the node. *)
Fixpoint relevant (name : string) (n : node) {struct n} : node :=
  match n with
  | File c =>
      if String.eqb (ToLower name) "config.yaml" then
        File (match c with
              | inl e => inl e
              | inr lines => inr (firstn 5 lines)
              end)
      else File (inr [])
  | Dir es =>
      if String.eqb name "template" then Dir ENil
      else Dir (relevant_entries es)
  | BadDir e => BadDir e
  | Missing e => Missing e
  end
with relevant_entries (es : entries) {struct es} : entries :=
  match es with
  | ENil => ENil
  | ECons name child rest =>
      ECons name (relevant name child) (relevant_entries rest)
  end.

Definition relevant_world (w : world) : world :=
  mkWorld (path_separator w) (relevant "config" (config_dir w))
    (discord_enabled w) (telegram_enabled w).

(** Two config directories that differ in what the scan cannot see: in
    the template, in a file that is not a [config.yaml], after the fifth
    line. *)
Definition demo_dir' : node :=
  Dir (ECons "koolo.yaml" (File (inl "permission denied"))
      (ECons "template"
         (Dir (ECons "config.yaml" (File (inr ["token: 12345"]))
              (ECons "notes.txt" (Missing "no such file") ENil)))
      (ECons "Sorc"
         (Dir (ECons "config.yaml"
                 (File (inr ["username: alice"; "password: hunter2";
                             "realm: eu"; "character: Sorc"; "maxGameLength: 300";
                             "health:"; "  healingPotionAt: 30"; "more"]))
                 ENil))
      ENil))).

(** The bytes [url.QueryEscape] writes: letters, digits, [-_.~], and the
    [%] and [+] of its own encoding. *)
Definition query_byte (c : ascii) : bool :=
  negb (shouldEscape c) || Ascii.eqb c "%" || Ascii.eqb c "+".

(** The URL of line 36 without the encoded text. *)
Definition telegram_endpoint : string :=
  "https://api.telegram.org/bot:/sendMessage?chat_id=&text=".

(** What was built when a goroutine is started: for the scheduler's its
    scheduler; for a task of the group the listener, the manager, the
    scheduler and the server, and for an integration also its client,
    whose handler is registered with the listener. *)
Definition built_before (t : tid) : list op :=
  match t with
  | TMain => []
  | TScheduler => [NewListener; NewSupervisorManager; NewScheduler]
  | TDiscord =>
      [ NewListener; NewSupervisorManager; NewScheduler; ServerNew;
        DiscordNewBot; RegisterHandler TDiscord ]
  | TTelegram =>
      [ NewListener; NewSupervisorManager; NewScheduler; ServerNew;
        TelegramNewBot; RegisterHandler TTelegram ]
  | _ => [NewListener; NewSupervisorManager; NewScheduler; ServerNew]
  end.

(** The goroutine a call starts. *)
Definition started_by (o : op) : option tid :=
  match o with GroupGo t | GoPlain t => Some t | _ => None end.

(** Calls of the constructor of an integration. *)
Definition is_new (i : integration) (x : op * reply) : bool :=
  match i, fst x with
  | Discord, DiscordNewBot | Telegram, TelegramNewBot => true
  | _, _ => false
  end.

(** A body as far as it goes when every call returns without an error:
    the calls it makes, and where it is then, at its end or at a call that
    waits. *)
Fixpoint unwind {A : Type} (p : prog A) : list (op * reply) * prog A :=
  match p with
  | Vis o k =>
      if waits (o, Ok) then ([], p)
      else let (es, q) := unwind (k (default_reply o)) in
           ((o, default_reply o) :: es, q)
  | _ => ([], p)
  end.

(** Events in which no call fails: a call returns without an error, and
    [g.Wait] returns what the group holds. *)
Definition calm (e : event) : Prop :=
  match e with
  | Ev _ GroupWait r => is_panic r = false
  | Ev _ o r => r = default_reply o
  | _ => True
  end.

(** [S'] continues the schedule [S] with calm events only. *)
Definition continues (w : world) (S S' : list (tid * reply)) : Prop :=
  exists ext evs,
    S' = S ++ ext
    /\ trace (run w S') = trace (run w S) ++ evs
    /\ Forall calm evs.

(** The functions of the group that have not returned. *)
Definition pending (s : state) : list tid :=
  filter (fun t => negb (mem t (returned s))) (group_tasks s).

(** * Properties *)

(** ** Escaping a query component loses nothing *)

Lemma QueryUnescape_cons (c : ascii) (rest t : string) :
  QueryUnescape (QueryEscape rest) = Some t ->
  QueryUnescape (QueryEscape (String c rest)) = Some (String c t).
Proof.
  intros H.
  destruct c as [b0 b1 b2 b3 b4 b5 b6 b7].
  destruct b0, b1, b2, b3, b4, b5, b6, b7; simpl; rewrite H; reflexivity.
Qed.

Lemma QueryUnescape_QueryEscape (s : string) :
  QueryUnescape (QueryEscape s) = Some s.
Proof.
  induction s as [|c rest IH]; [reflexivity|].
  now apply QueryUnescape_cons.
Qed.

Lemma QueryEscape_inj (s t : string) :
  QueryEscape s = QueryEscape t -> s = t.
Proof.
  intros H.
  pose proof (QueryUnescape_QueryEscape s) as Hs.
  rewrite H, QueryUnescape_QueryEscape in Hs.
  now injection Hs.
Qed.

(** ** The calls along a goroutine body *)


Section Paths.

Context {A : Type}.
Implicit Types (p q : prog A) (es : list (op * reply)).

Lemma path_inv_vis o k es q :
  path (Vis o k) es q ->
  (es = [] /\ q = Vis o k) \/
  (exists r es', es = (o, r) :: es' /\ valid_reply o r = true
                 /\ path (k r) es' q).
Proof. inversion 1; subst; eauto 6. Qed.

Lemma path_inv_ret (a : A) es q : path (Ret a) es q -> es = [] /\ q = Ret a.
Proof. inversion 1; auto. Qed.

Lemma path_inv_throw v es q :
  path (@Throw A v) es q -> es = [] /\ q = Throw v.
Proof. inversion 1; auto. Qed.

Lemma path_inv_exit c es q :
  path (@Exit A c) es q -> es = [] /\ q = Exit c.
Proof. inversion 1; auto. Qed.

Lemma path_inv_cons p o r es q :
  path p ((o, r) :: es) q ->
  exists k, p = Vis o k /\ valid_reply o r = true /\ path (k r) es q.
Proof. inversion 1; subst; eauto. Qed.

Lemma path_ended_nil p q : path p [] q -> q = p.
Proof. now inversion 1. Qed.

Lemma path_app p es1 m es2 q :
  path p es1 m -> path m es2 q -> path p (es1 ++ es2) q.
Proof. induction 1; simpl; auto using path_cons. Qed.

Lemma path_snoc p es o k r :
  path p es (Vis o k) -> valid_reply o r = true ->
  path p (es ++ [(o, r)]) (k r).
Proof.
  intros H Hv. eapply path_app; [exact H|].
  apply path_cons; [exact Hv | apply path_nil].
Qed.

Lemma path_split p es1 es2 q :
  path p (es1 ++ es2) q -> exists m, path p es1 m /\ path m es2 q.
Proof.
  revert p. induction es1 as [|e es1 IH]; intros p H.
  - exists p. split; [apply path_nil | exact H].
  - inversion H; subst.
    destruct (IH _ H5) as (m & H1 & H2).
    exists m. split; [now apply path_cons | exact H2].
Qed.

Lemma path_fun p es q q' : path p es q -> path p es q' -> q = q'.
Proof.
  induction 1; inversion 1; subst; auto.
Qed.

Lemma path_valid p es q :
  path p es q -> Forall (fun e => valid_reply (fst e) (snd e) = true) es.
Proof. induction 1; constructor; auto. Qed.

End Paths.


Lemma path_ended {A : Type} (p : prog A) es q :
  path p es q -> ended p = true -> es = [] /\ q = p.
Proof. destruct 1; simpl; [auto | discriminate]. Qed.

(** Paths through [bind]: either still inside the first part, or the first
    part returned and the path goes on in the second. *)
Lemma path_bind {A B : Type} (p : prog A) (f : A -> prog B) es q :
  path (bind p f) es q ->
  (exists q', path p es q' /\ q = bind q' f) \/
  (exists es1 es2 a, es = es1 ++ es2 /\ path p es1 (Ret a)
                     /\ path (f a) es2 q).
Proof.
  revert es q. induction p as [a|v|c|o k IH]; intros es q H; simpl in H.
  - right. exists [], es, a. repeat split; auto using path_nil.
  - left. exists (Throw v). apply path_inv_throw in H as [-> ->].
    split; [apply path_nil | reflexivity].
  - left. exists (Exit c). apply path_inv_exit in H as [-> ->].
    split; [apply path_nil | reflexivity].
  - apply path_inv_vis in H as [[-> ->] | (r & es' & -> & Hv & H)].
    + left. exists (Vis o k). split; [apply path_nil | reflexivity].
    + destruct (IH r _ _ H) as [(q' & H1 & ->) | (es1 & es2 & a & -> & H1 & H2)].
      * left. exists q'. split; [now apply path_cons | reflexivity].
      * right. exists ((o, r) :: es1), es2, a.
        repeat split; auto using path_cons.
Qed.

(** Paths through [defer]: inside the body, or in the deferred call after
    the body returned or panicked. *)
Lemma path_defer {A : Type} (d : prog unit) (p : prog A) es q :
  path (defer_ d p) es q ->
  (exists q', path p es q' /\ q = defer_ d q') \/
  (exists es1 es2 a, es = es1 ++ es2 /\ path p es1 (Ret a)
                     /\ path (bind d (fun _ => Ret a)) es2 q) \/
  (exists es1 es2 v, es = es1 ++ es2 /\ path p es1 (Throw v)
                     /\ path (bind d (fun _ => Throw v)) es2 q).
Proof.
  revert es q. induction p as [a|v|c|o k IH]; intros es q H; simpl in H.
  - right; left. exists [], es, a. repeat split; auto using path_nil.
  - right; right. exists [], es, v. repeat split; auto using path_nil.
  - left. exists (Exit c). apply path_inv_exit in H as [-> ->].
    split; [apply path_nil | reflexivity].
  - apply path_inv_vis in H as [[-> ->] | (r & es' & -> & Hv & H)].
    + left. exists (Vis o k). split; [apply path_nil | reflexivity].
    + destruct (IH r _ _ H)
        as [(q' & H1 & ->) | [(es1 & es2 & a & -> & H1 & H2)
                             | (es1 & es2 & v & -> & H1 & H2)]].
      * left. exists q'. split; [now apply path_cons | reflexivity].
      * right; left. exists ((o, r) :: es1), es2, a.
        repeat split; auto using path_cons.
      * right; right. exists ((o, r) :: es1), es2, v.
        repeat split; auto using path_cons.
Qed.

(** Paths through a deferred [recover]: inside the body, or in the handler
    after the body panicked. *)
Lemma path_defer_recover {A : Type} (zero : A) (h : string -> prog unit)
    (p : prog A) es q :
  path (defer_recover zero h p) es q ->
  (exists q', path p es q' /\ q = defer_recover zero h q') \/
  (exists es1 es2 v, es = es1 ++ es2 /\ path p es1 (Throw v)
                     /\ path (bind (h v) (fun _ => Ret zero)) es2 q).
Proof.
  revert es q. induction p as [a|v|c|o k IH]; intros es q H; simpl in H.
  - left. exists (Ret a). apply path_inv_ret in H as [-> ->].
    split; [apply path_nil | reflexivity].
  - right. exists [], es, v. repeat split; auto using path_nil.
  - left. exists (Exit c). apply path_inv_exit in H as [-> ->].
    split; [apply path_nil | reflexivity].
  - apply path_inv_vis in H as [[-> ->] | (r & es' & -> & Hv & H)].
    + left. exists (Vis o k). split; [apply path_nil | reflexivity].
    + destruct (IH r _ _ H)
        as [(q' & H1 & ->) | (es1 & es2 & v & -> & H1 & H2)].
      * left. exists q'. split; [now apply path_cons | reflexivity].
      * right. exists ((o, r) :: es1), es2, v.
        repeat split; auto using path_cons.
Qed.


Lemma all_ops_bind {A B : Type} (P : op -> Prop) (p : prog A)
    (f : A -> prog B) :
  all_ops P p -> (forall a, all_ops P (f a)) -> all_ops P (bind p f).
Proof.
  induction 1; intros Hf; simpl; auto using ao_throw, ao_exit.
  apply ao_vis; auto.
Qed.

Lemma all_ops_call (P : op -> Prop) (o : op) : P o -> all_ops P (call o).
Proof.
  intros H. apply ao_vis; [exact H|].
  intros []; constructor.
Qed.

Lemma all_ops_defer {A : Type} (P : op -> Prop) (d : prog unit) (p : prog A) :
  all_ops P d -> all_ops P p -> all_ops P (defer_ d p).
Proof.
  intros Hd. induction 1; simpl.
  - apply all_ops_bind; [exact Hd | constructor].
  - apply all_ops_bind; [exact Hd | constructor].
  - constructor.
  - apply ao_vis; auto.
Qed.

Lemma all_ops_defer_recover {A : Type} (P : op -> Prop) (zero : A)
    (h : string -> prog unit) (p : prog A) :
  (forall v, all_ops P (h v)) -> all_ops P p ->
  all_ops P (defer_recover zero h p).
Proof.
  intros Hh. induction 1; simpl.
  - constructor.
  - apply all_ops_bind; [apply Hh | constructor].
  - constructor.
  - apply ao_vis; auto.
Qed.

Lemma all_ops_path {A : Type} (P : op -> Prop) (p : prog A) es q :
  all_ops P p -> path p es q ->
  Forall (fun e => P (fst e)) es /\ all_ops P q.
Proof.
  intros Hp H. induction H as [p | o k r es q Hv H IH].
  - split; [constructor | exact Hp].
  - inversion Hp; subst.
    destruct (IH (H3 r)) as [IH1 IH2].
    split; [constructor; assumption | exact IH2].
Qed.

(** ** Runs *)

Lemma tid_eqb_refl (t : tid) : tid_eqb t t = true.
Proof. unfold tid_eqb. destruct (tid_eq_dec t t); congruence. Qed.

Lemma tid_eqb_eq (a b : tid) : tid_eqb a b = true <-> a = b.
Proof. unfold tid_eqb. destruct (tid_eq_dec a b); split; congruence. Qed.

Lemma tid_eqb_neq (a b : tid) : tid_eqb a b = false <-> a <> b.
Proof. unfold tid_eqb. destruct (tid_eq_dec a b); split; congruence. Qed.

Lemma mem_In (t : tid) (l : list tid) : mem t l = true <-> In t l.
Proof.
  unfold mem. rewrite existsb_exists. split.
  - intros (x & Hx & E). apply tid_eqb_eq in E. now subst.
  - intros H. exists t. split; [exact H | apply tid_eqb_refl].
Qed.

Lemma upd_same f t x : upd f t x t = x.
Proof. unfold upd. destruct (tid_eq_dec t t); congruence. Qed.

Lemma upd_other f t x t' : t <> t' -> upd f t x t' = f t'.
Proof. unfold upd. destruct (tid_eq_dec t t'); congruence. Qed.

Lemma calls_of_app t l1 l2 :
  calls_of t (l1 ++ l2) = calls_of t l1 ++ calls_of t l2.
Proof.
  induction l1 as [|[t' o r| | |] l1 IH]; simpl; auto.
  destruct (tid_eqb t t'); simpl; congruence.
Qed.

Lemma returns_of_app l1 l2 :
  returns_of (l1 ++ l2) = returns_of l1 ++ returns_of l2.
Proof.
  induction l1 as [|[| | |] l1 IH]; simpl; congruence.
Qed.

Lemma calls_of_In t o r tr : In (o, r) (calls_of t tr) <-> In (Ev t o r) tr.
Proof.
  induction tr as [|[t' o' r'| | |] tr IH]; simpl; try tauto.
  - destruct (tid_eqb t t') eqn:E.
    + apply tid_eqb_eq in E. subst t'. simpl. rewrite IH.
      split; (intros [H|H]; [left; congruence | right; exact H]).
    + apply tid_eqb_neq in E. rewrite IH.
      split; [tauto | intros [H|H]; [congruence | exact H]].
  - rewrite IH. split; [tauto | intros [H|H]; [discriminate | exact H]].
  - rewrite IH. split; [tauto | intros [H|H]; [discriminate | exact H]].
  - rewrite IH. split; [tauto | intros [H|H]; [discriminate | exact H]].
Qed.

Lemma returns_of_In t e tr : In (t, e) (returns_of tr) <-> In (EvReturn t e) tr.
Proof.
  induction tr as [|[| t' e' | |] tr IH]; simpl; try tauto.
  - rewrite IH. split; [tauto | intros [H|H]; [discriminate | exact H]].
  - rewrite IH. split; (intros [H|H]; [left; congruence | right; exact H]).
  - rewrite IH. split; [tauto | intros [H|H]; [discriminate | exact H]].
  - rewrite IH. split; [tauto | intros [H|H]; [discriminate | exact H]].
Qed.

(** Where an event sits in a trace, the calls of its goroutine sit in the
    same order. *)
Lemma calls_of_split t o r pre post :
  calls_of t (pre ++ Ev t o r :: post)
  = calls_of t pre ++ (o, r) :: calls_of t post.
Proof. rewrite calls_of_app. simpl. now rewrite tid_eqb_refl. Qed.

Section RunFacts.

Variable body : tid -> prog (option error).

Local Abbreviation step := (step body).
Local Abbreviation exec := (exec body).
Local Abbreviation init := (init body).
Local Abbreviation perform := (perform body).
Local Abbreviation move := (move body).
Local Abbreviation follows := (follows body).

Lemma exec_snoc sched c s : exec (sched ++ [c]) s = step (exec sched s) c.
Proof. unfold exec. now rewrite fold_left_app. Qed.

(** Induction over the runs from the initial state. *)
Lemma run_ind (P : state -> Prop) :
  P init -> (forall s c, P s -> P (step s c)) ->
  forall sched, P (exec sched init).
Proof.
  intros H0 Hs sched. induction sched as [|c sched IH] using rev_ind.
  - exact H0.
  - rewrite exec_snoc. now apply Hs.
Qed.


Lemma step_move s c : step s c = s \/ move s (step s c).
Proof.
  destruct c as [t r]. unfold step.
  destruct (status s) eqn:Hst; [now left|].
  destruct (threads s t) as [|[e|v|code|o k]|] eqn:Ht; try (now left).
  - right. now apply move_return.
  - right. now apply move_panic.
  - right. now eapply move_exit; eauto.
  - destruct (enabled s o r) eqn:He; [|now left].
    right. now apply move_call.
Qed.

Lemma move_step s s' : move s s' -> exists c, step s c = s'.
Proof.
  destruct 1 as [t o k r Hst Ht He | t e Hst Ht | t v Hst Ht | t code Hst Ht].
  - exists (t, r). unfold step. now rewrite Hst, Ht, He.
  - exists (t, Ok). unfold step. now rewrite Hst, Ht.
  - exists (t, Ok). unfold step. now rewrite Hst, Ht.
  - exists (t, Ok). unfold step. now rewrite Hst, Ht.
Qed.

Lemma run_move_ind (P : state -> Prop) :
  P init -> (forall s s', P s -> move s s' -> P s') ->
  forall sched, P (exec sched init).
Proof.
  intros H0 Hs. apply run_ind; [exact H0|].
  intros s c HP. destruct (step_move s c) as [-> | Hm]; eauto.
Qed.

Lemma trace_perform s t o r n : trace (perform s t o r n) = trace s ++ [Ev t o r].
Proof. destruct o; reflexivity. Qed.

Lemma status_perform s t o r n : status (perform s t o r n) = status s.
Proof. destruct o; reflexivity. Qed.

Lemma threads_perform s t o r n :
  threads (perform s t o r n)
  = match o with
    | GroupGo t' | GoPlain t' =>
        upd (upd (threads s) t (Running n)) t' (Running (body t'))
    | _ => upd (threads s) t (Running n)
    end.
Proof. destruct o; reflexivity. Qed.

Lemma group_err_perform s t o r n : group_err (perform s t o r n) = group_err s.
Proof. destruct o; reflexivity. Qed.

Lemma returned_perform s t o r n : returned (perform s t o r n) = returned s.
Proof. destruct o; reflexivity. Qed.

Lemma trace_finish s t e :
  trace (finish s t e)
  = trace s ++ [if tid_eqb t TMain then EvEnd Returned
                else if mem t (group_tasks s) then EvReturn t e
                else EvDone t].
Proof.
  unfold finish. destruct (tid_eqb t TMain); [reflexivity|].
  destruct (mem t (group_tasks s)); [|reflexivity].
  destruct e, (group_err s); reflexivity.
Qed.

Lemma threads_finish s t e :
  threads (finish s t e)
  = if tid_eqb t TMain then threads s else upd (threads s) t Finished.
Proof.
  unfold finish. destruct (tid_eqb t TMain); [reflexivity|].
  destruct (mem t (group_tasks s)); [|reflexivity].
  destruct e, (group_err s); reflexivity.
Qed.

(** The trace of a move: one more event. *)
Lemma move_trace s s' : move s s' -> exists e, trace s' = trace s ++ [e].
Proof.
  destruct 1.
  - rewrite trace_perform. eauto.
  - rewrite trace_finish. eauto.
  - simpl. eauto.
  - simpl. eauto.
Qed.

(** *** Each goroutine follows its body *)


Lemma follows_same_calls s s' t :
  threads s' t = threads s t ->
  calls_of t (trace s') = calls_of t (trace s) ->
  follows s t -> follows s' t.
Proof. unfold follows. intros -> ->. auto. Qed.

Lemma enabled_valid s o r : enabled s o r = true -> valid_reply o r = true.
Proof. unfold enabled. now intros [H _]%andb_prop. Qed.

Lemma move_follows s s' :
  move s s' -> (forall t, follows s t) -> forall t, follows s' t.
Proof.
  intros Hm Hall u. pose proof (Hall u) as Hu.
  destruct Hm as [t o k r Hst Ht He | t e Hst Ht | t v Hst Ht | t code Hst Ht].
  - pose proof (Hall t) as Hft. unfold follows in *.
    rewrite threads_perform, trace_perform, calls_of_app. simpl.
    assert (Hgo : forall t', threads s t' = Idle -> t <> t')
      by (intros t' Hi ->; congruence).
    destruct (tid_eq_dec t u) as [->|Hne].
    + rewrite tid_eqb_refl. rewrite Ht in Hft.
      assert (Hp : path (body u) (calls_of u (trace s) ++ [(o, r)]) (k r))
        by (apply path_snoc; eauto using enabled_valid).
      destruct o; rewrite ?upd_same; try exact Hp.
      * unfold enabled in He. apply andb_prop in He as [_ He].
        destruct (threads s t) eqn:Hi; try discriminate.
        rewrite upd_other by (apply not_eq_sym, Hgo; exact Hi).
        now rewrite upd_same.
      * unfold enabled in He. apply andb_prop in He as [_ He].
        destruct (threads s t) eqn:Hi; try discriminate.
        rewrite upd_other by (apply not_eq_sym, Hgo; exact Hi).
        now rewrite upd_same.
    + apply tid_eqb_neq in Hne as Hne'.
      assert (Hne2 : tid_eqb u t = false) by (apply tid_eqb_neq; congruence).
      rewrite Hne2, app_nil_r.
      assert (Hother : match upd (threads s) t (Running (k r)) u with
                       | Idle => calls_of u (trace s) = []
                       | Running p => path (body u) (calls_of u (trace s)) p
                       | Finished =>
                           exists e, path (body u) (calls_of u (trace s)) (Ret e)
                       end)
        by (rewrite upd_other by exact Hne; exact Hu).
      destruct o; try exact Hother.
      * unfold enabled in He. apply andb_prop in He as [_ He].
        destruct (threads s t0) eqn:Hi; try discriminate.
        destruct (tid_eq_dec t0 u) as [->|Hne3].
        -- rewrite upd_same. rewrite Hi in Hu. rewrite Hu. apply path_nil.
        -- now rewrite upd_other by exact Hne3.
      * unfold enabled in He. apply andb_prop in He as [_ He].
        destruct (threads s t0) eqn:Hi; try discriminate.
        destruct (tid_eq_dec t0 u) as [->|Hne3].
        -- rewrite upd_same. rewrite Hi in Hu. rewrite Hu. apply path_nil.
        -- now rewrite upd_other by exact Hne3.
  - unfold follows in *.
    rewrite threads_finish, trace_finish, calls_of_app.
    assert (Hc : calls_of u
                   [if tid_eqb t TMain then EvEnd Returned
                    else if mem t (group_tasks s) then EvReturn t e
                    else EvDone t] = [])
      by (destruct (tid_eqb t TMain), (mem t (group_tasks s)); reflexivity).
    rewrite Hc, app_nil_r.
    destruct (tid_eqb t TMain); [exact Hu|].
    destruct (tid_eq_dec t u) as [->|Hne].
    + rewrite upd_same. rewrite Ht in Hu. eauto.
    + now rewrite upd_other by exact Hne.
  - unfold follows in *. simpl. rewrite calls_of_app. simpl.
    now rewrite app_nil_r.
  - unfold follows in *. simpl. rewrite calls_of_app. simpl.
    now rewrite app_nil_r.
Qed.

Lemma run_follows sched t : follows (exec sched init) t.
Proof.
  revert t. apply run_move_ind with (P := fun s => forall t, follows s t).
  - intros t. unfold follows, init. simpl.
    destruct (tid_eq_dec TMain t) as [<-|Hne].
    + rewrite upd_same. apply path_nil.
    + now rewrite upd_other by exact Hne.
  - intros s s' H Hm. now apply move_follows with (s := s).
Qed.

(** *** Every prefix of a trace is the trace of a run *)

Lemma run_prefix sched pre e post :
  trace (exec sched init) = pre ++ e :: post ->
  exists s s', (exists sched', s = exec sched' init) /\ move s s'
               /\ trace s = pre /\ trace s' = pre ++ [e].
Proof.
  revert pre e post. induction sched as [|c sched IH] using rev_ind;
    intros pre e post H.
  - simpl in H. now destruct pre.
  - rewrite exec_snoc in H.
    destruct (step_move (exec sched init) c) as [E | Hm].
    + rewrite E in H. eauto.
    + destruct (move_trace Hm) as (e' & He').
      rewrite He' in H.
      destruct post as [|x post'] using rev_ind.
      * apply app_inj_tail in H as [H1 H2]. subst e'.
        exists (exec sched init), (step (exec sched init) c).
        repeat split; eauto. now rewrite He', H1.
      * clear IHpost'.
        change (pre ++ e :: post' ++ [x]) with (pre ++ (e :: post') ++ [x]) in H.
        rewrite app_assoc in H.
        apply app_inj_tail in H as [H1 H2]. eauto.
Qed.

End RunFacts.

(** ** The errgroup and the contexts, read off the trace *)

Lemma registered_of_app l1 l2 :
  registered_of (l1 ++ l2) = registered_of l1 ++ registered_of l2.
Proof.
  induction l1 as [|[t o r| | |] l1 IH]; simpl; auto.
  destruct o; simpl; congruence.
Qed.

Lemma ending_of_app l1 l2 :
  ending_of (l1 ++ l2)
  = match ending_of l1 with Some x => Some x | None => ending_of l2 end.
Proof. induction l1 as [|[| | |] l1 IH]; simpl; auto. Qed.

Lemma first_error_app l1 l2 :
  first_error (l1 ++ l2)
  = match first_error l1 with Some x => Some x | None => first_error l2 end.
Proof. induction l1 as [|[t [e|]] l1 IH]; simpl; auto. Qed.

Lemma first_error_None rs :
  first_error rs = None <-> forall t e, In (t, e) rs -> e = None.
Proof.
  induction rs as [|[t [e|]] rs IH]; simpl.
  - split; [intros _ ? ? [] | auto].
  - split; [discriminate|]. intros H. now specialize (H t (Some e) (or_introl eq_refl)).
  - rewrite IH. split.
    + intros H t' e' [E|Hin]; [congruence | eauto].
    + intros H t' e' Hin. eauto.
Qed.

Lemma first_error_Some rs t e :
  first_error rs = Some (t, e) <->
  exists l1 l2, rs = l1 ++ (t, Some e) :: l2 /\ first_error l1 = None.
Proof.
  split.
  - induction rs as [|[t' [e'|]] rs IH]; simpl; intros H.
    + discriminate.
    + injection H as -> ->. now exists [], rs.
    + destruct (IH H) as (l1 & l2 & -> & Hl1).
      now exists ((t', None) :: l1), l2.
  - intros (l1 & l2 & -> & Hl1). now rewrite first_error_app, Hl1.
Qed.

Lemma wait_reply_spec r e : wait_reply r e = true <-> r = reply_of e.
Proof.
  destruct r, e; simpl; split; try congruence.
  - intros H. apply String.eqb_eq in H. congruence.
  - intros H. injection H as ->. apply String.eqb_refl.
Qed.

Section GroupFacts.

Variable body : tid -> prog (option error).

Local Abbreviation exec := (exec body).
Local Abbreviation init := (init body).
Local Abbreviation move := (move body).

Lemma existsb_snoc {X : Type} (f : X -> bool) l x :
  existsb f (l ++ [x]) = existsb f l || f x.
Proof. rewrite existsb_app. simpl. now rewrite orb_false_r. Qed.

Lemma move_from_trace s s' : move s s' -> from_trace s -> from_trace s'.
Proof.
  intros Hm [H1 H2 H3 H4 H5].
  destruct Hm as [t o k r Hst Ht He | t e Hst Ht | t v Hst Ht | t code Hst Ht].
  - rewrite Hst in H5.
    split; rewrite trace_perform;
      rewrite ?registered_of_app, ?returns_of_app, ?existsb_snoc,
        ?ending_of_app, <- ?H5; simpl; rewrite ?app_nil_r.
    + destruct o; simpl; rewrite ?app_nil_r; congruence.
    + destruct o; simpl; congruence.
    + destruct o; simpl; congruence.
    + destruct o; simpl; rewrite ?orb_false_r, ?orb_true_r; congruence.
    + destruct o; simpl; congruence.
  - rewrite Hst in H5.
    split; rewrite trace_finish;
      rewrite ?registered_of_app, ?returns_of_app, ?existsb_snoc,
        ?ending_of_app, <- ?H5, ?map_app; unfold finish, group_result in *.
    + destruct (tid_eqb t TMain), (mem t (group_tasks s)), e, (group_err s);
        simpl; rewrite ?app_nil_r; congruence.
    + destruct (tid_eqb t TMain), (mem t (group_tasks s)), e, (group_err s);
        simpl; rewrite ?app_nil_r; congruence.
    + rewrite first_error_app.
      destruct (tid_eqb t TMain), (mem t (group_tasks s)), e;
        simpl; rewrite <- ?H3; destruct (group_err s) eqn:Hg; simpl;
        destruct (first_error (returns_of (trace s))) as [[? ?]|];
        simpl in *; congruence.
    + destruct (tid_eqb t TMain), (mem t (group_tasks s)), e, (group_err s);
        simpl; rewrite ?orb_false_r; congruence.
    + destruct (tid_eqb t TMain), (mem t (group_tasks s)), e, (group_err s);
        simpl; congruence.
  - rewrite Hst in H5.
    split; simpl;
      rewrite ?registered_of_app, ?returns_of_app, ?existsb_snoc,
        ?ending_of_app, <- ?H5; simpl; rewrite ?app_nil_r, ?orb_false_r;
      congruence.
  - rewrite Hst in H5.
    split; simpl;
      rewrite ?registered_of_app, ?returns_of_app, ?existsb_snoc,
        ?ending_of_app, <- ?H5; simpl; rewrite ?app_nil_r, ?orb_false_r;
      congruence.
Qed.

Lemma run_from_trace sched : from_trace (exec sched init).
Proof.
  apply run_move_ind.
  - now split.
  - intros s s' H Hm. now apply move_from_trace with (s := s).
Qed.

(** Which move wrote an event. *)
Lemma move_call_inv s s' t o r :
  move s s' -> trace s' = trace s ++ [Ev t o r] ->
  exists k, threads s t = Running (Vis o k) /\ enabled s o r = true
            /\ s' = perform body s t o r (k r).
Proof.
  destruct 1 as [t' o' k r' Hst Ht He | t' e Hst Ht | t' v Hst Ht | t' code Hst Ht].
  - rewrite trace_perform. intros H. apply app_inv_head in H.
    injection H as -> -> ->. eauto.
  - rewrite trace_finish. intros H. apply app_inv_head in H.
    destruct (tid_eqb t' TMain), (mem t' (group_tasks s)); discriminate.
  - simpl. intros H. apply app_inv_head in H. discriminate.
  - simpl. intros H. apply app_inv_head in H. discriminate.
Qed.

Lemma move_return_inv s s' t e :
  move s s' -> trace s' = trace s ++ [EvReturn t e] ->
  threads s t = Running (Ret e) /\ mem t (group_tasks s) = true
  /\ s' = finish s t e.
Proof.
  destruct 1 as [t' o' k r' Hst Ht He | t' e' Hst Ht | t' v Hst Ht | t' code Hst Ht].
  - rewrite trace_perform. intros H. apply app_inv_head in H. discriminate.
  - rewrite trace_finish. intros H. apply app_inv_head in H.
    destruct (tid_eqb t' TMain); [discriminate|].
    destruct (mem t' (group_tasks s)) eqn:Hm; [|discriminate].
    injection H as -> ->. auto.
  - simpl. intros H. apply app_inv_head in H. discriminate.
  - simpl. intros H. apply app_inv_head in H. discriminate.
Qed.

Lemma move_end_inv s s' x :
  move s s' -> trace s' = trace s ++ [EvEnd x] ->
  match x with
  | Returned => exists e, threads s TMain = Running (Ret e)
  | Crashed t v => threads s t = Running (Throw v)
  | Exited code => exists t, threads s t = Running (Exit code)
  end.
Proof.
  destruct 1 as [t' o' k r' Hst Ht He | t' e' Hst Ht | t' v Hst Ht | t' code Hst Ht].
  - rewrite trace_perform. intros H. apply app_inv_head in H. discriminate.
  - rewrite trace_finish. intros H. apply app_inv_head in H.
    destruct (tid_eqb t' TMain) eqn:E.
    + apply tid_eqb_eq in E. subst t'. injection H as <-. eauto.
    + destruct (mem t' (group_tasks s)); discriminate.
  - simpl. intros H. apply app_inv_head in H. injection H as <-. exact Ht.
  - simpl. intros H. apply app_inv_head in H. injection H as <-. eauto.
Qed.

(** [g.Wait] returns once every function passed to [g.Go] has returned,
    and returns the first non-nil error among the returns. *)
Lemma wait_returns sched t r pre post :
  trace (exec sched init) = pre ++ Ev t GroupWait r :: post ->
  (forall t', In t' (registered_of pre) -> exists e, In (EvReturn t' e) pre)
  /\ r = reply_of (group_result (returns_of pre)).
Proof.
  intros H.
  destruct (run_prefix body sched pre _ post H)
    as (s & s' & (sched' & ->) & Hm & Hpre & Hs').
  pose proof (run_from_trace sched') as [H1 H2 H3 _ _].
  rewrite <- Hpre in Hs'.
  eapply move_call_inv in Hs' as (k & Ht & He & _); [|exact Hm].
  unfold enabled in He. apply andb_prop in He as [_ He].
  apply andb_prop in He as [Hall Hr].
  rewrite Hpre in *. split.
  - intros t' Hin. rewrite forallb_forall in Hall.
    rewrite <- H1 in Hin. specialize (Hall t' Hin).
    apply mem_In in Hall. rewrite H2 in Hall.
    apply in_map_iff in Hall as ([t'' e] & E & Hin'). simpl in E. subst t''.
    exists e. now apply returns_of_In.
  - apply wait_reply_spec in Hr. now rewrite Hr, H3.
Qed.

End GroupFacts.

(** ** Walking through a body *)

Ltac path_whnf H :=
  match type of H with
  | path ?p ?es ?q =>
      let p' := eval hnf in p in change (path p' es q) in H
  end.

(** One call further along [H : path p es q], for every reply the call can
    give; at a branch on the configuration, both ways. *)
Ltac path_next H :=
  path_whnf H;
  lazymatch type of H with
  | path (Vis _ _) _ _ =>
      let r := fresh "r" in
      let es := fresh "es" in
      let Hv := fresh "Hv" in
      apply path_inv_vis in H;
      destruct H as [[? ?] | (r & es & ? & Hv & H)]; subst;
      [ | destruct r; cbv in Hv; try discriminate Hv; clear Hv ]
  | path (Ret _) _ _ => apply path_inv_ret in H; destruct H; subst
  | path (Throw _) _ _ => apply path_inv_throw in H; destruct H; subst
  | path (Exit _) _ _ => apply path_inv_exit in H; destruct H; subst
  | path ?p _ _ =>
      first
        [ match p with
          | context [discord_enabled ?w] => destruct (discord_enabled w) eqn:?
          | context [telegram_enabled ?w] => destruct (telegram_enabled w) eqn:?
          end
        | progress unfold discord_init in H
        | progress unfold telegram_init in H ]
  end.

Ltac explore H := repeat path_next H.

Lemma path_bind_ret {A B : Type} (p : prog A) (f : A -> prog B) es (b : B) :
  path (bind p f) es (Ret b) ->
  exists es1 es2 a, es = es1 ++ es2 /\ path p es1 (Ret a)
                    /\ path (f a) es2 (Ret b).
Proof.
  intros H. apply path_bind in H as [(q' & H1 & E) | H]; [|exact H].
  destruct q' as [a| | |]; simpl in E; try discriminate.
  exists es, [], a. rewrite app_nil_r, <- E. auto using path_nil.
Qed.

(** ** Tame bodies *)

Lemma tame_bind {A B : Type} (P : op -> bool) (p : prog A) (f : A -> prog B) :
  tame P p -> (forall a, tame P (f a)) -> tame P (bind p f).
Proof.
  induction 1 as [a | o k Ho Hp Hk IH]; intros Hf; simpl; [apply Hf|].
  apply tame_vis; [exact Ho | | ].
  - intros v. now rewrite Hp.
  - intros r Hr. now apply IH.
Qed.

Lemma tame_call (P : op -> bool) (o : op) : P o = true -> tame P (call o).
Proof.
  intros H. apply tame_vis; [exact H | reflexivity |].
  intros [] Hr; try discriminate; apply tame_ret.
Qed.

Lemma tame_all_ops {A : Type} (P : op -> bool) (p : prog A) :
  tame P p -> all_ops (fun o => P o = true) p.
Proof.
  induction 1 as [a | o k Ho Hp Hk IH]; [apply ao_ret|].
  apply ao_vis; [exact Ho|].
  intros r. destruct (is_panic r) eqn:E; [|now apply IH].
  destruct r; try discriminate. rewrite Hp. apply ao_throw.
Qed.

(** Along a tame body a panic reply is the last call, and leaves the body
    panicking with that value. *)
Lemma tame_path {A : Type} (P : op -> bool) (p : prog A) es q :
  tame P p -> path p es q ->
  Forall (fun e => P (fst e) = true) es /\
  ((forallb no_panic es = true /\ tame P q) \/
   (exists es' o v, es = es' ++ [(o, Panic v)] /\ q = Throw v
                    /\ forallb no_panic es' = true)).
Proof.
  intros Hp H. induction H as [p | o k r es q Hv H IH].
  - split; [constructor | left; auto].
  - inversion Hp as [| o' k' Ho Hpanic Hk]; subst.
    destruct (is_panic r) eqn:Er.
    + destruct r; try discriminate. rewrite Hpanic in H.
      apply path_inv_throw in H as [-> ->].
      split; [constructor; auto|].
      right. exists [], o, v. auto.
    + destruct (IH (Hk r Er)) as [IH1 IH2].
      split; [constructor; auto|].
      destruct IH2 as [[H1 H2] | (es' & o' & v & -> & -> & H1)].
      * left. split; [|exact H2]. simpl. unfold no_panic at 1. simpl.
        now rewrite Er.
      * right. exists ((o, r) :: es'), o', v. repeat split; auto.
        simpl. unfold no_panic at 1. simpl. now rewrite Er.
Qed.

(** ** The config scan *)

Lemma sendMessage_tame text : tame scan_op (sendMessage text).
Proof.
  unfold sendMessage. apply tame_bind; [now apply tame_call|].
  intros []; try apply tame_ret.
  apply tame_bind; [now apply tame_call | intros; apply tame_ret].
Qed.

Lemma readConfigFile_tame path c : tame scan_op (readConfigFile path c).
Proof.
  destruct c; unfold readConfigFile; [|apply tame_ret].
  apply tame_bind; [now apply tame_call | intros; apply tame_ret].
Qed.

Lemma walkFn_tame path info err :
  (info = None -> err <> None) -> tame scan_op (walkFn path info err).
Proof.
  intros H. unfold walkFn. destruct err as [e|].
  - apply tame_bind; [now apply tame_call | intros; apply tame_ret].
  - destruct info as [info|]; [|now destruct H].
    destruct (IsDir info && String.eqb (Name info) "template");
      [apply tame_ret|].
    destruct (negb (IsDir info)
              && String.eqb (ToLower (Name info)) "config.yaml");
      [|apply tame_ret].
    apply tame_bind; [apply readConfigFile_tame|].
    intros message. destruct (String.eqb message ""); [apply tame_ret|].
    apply tame_bind; [apply sendMessage_tame | intros; apply tame_ret].
Qed.

Lemma walk_tame sep :
  (forall n path name, tame scan_op (walk sep path name n)) /\
  (forall es path, tame scan_op (walk_entries sep path es)).
Proof.
  apply node_mutind.
  - intros c path name. cbn [walk]. now apply walkFn_tame.
  - intros es IH path name. cbn [walk].
    apply tame_bind; [now apply walkFn_tame|].
    intros []; [apply IH | apply tame_ret].
  - intros e path name. cbn [walk].
    apply tame_bind; [apply walkFn_tame; discriminate | intros; apply tame_ret].
  - intros e path name. cbn [walk]. apply walkFn_tame. discriminate.
  - intros path. cbn [walk_entries]. apply tame_ret.
  - intros name n IHn rest IHrest path. cbn [walk_entries].
    destruct n as [c|l|e|e];
      try (apply tame_bind; [apply IHn|];
           intros []; [apply IHrest|];
           match goal with
           | |- tame _ (if ?b then _ else _) =>
               destruct b; [apply IHrest | apply tame_ret]
           end).
    apply tame_bind; [apply walkFn_tame; discriminate|].
    intros []; apply IHrest.
Qed.

Lemma findConfigFiles_tame w : tame scan_op (findConfigFiles w).
Proof.
  unfold findConfigFiles, Walk.
  apply tame_bind.
  - apply tame_bind; [apply walk_tame|]. intros []; apply tame_ret.
  - intros [e|]; [|apply tame_ret].
    apply tame_bind; [now apply tame_call | intros; apply tame_ret].
Qed.

(** What the callback does for a file. *)
Lemma walkFn_file path name c :
  walkFn path (Some (mkFileInfo name false c)) None
  = if String.eqb (ToLower name) "config.yaml" then
      (message <- readConfigFile path c ;;
       if String.eqb message "" then Ret WalkNil
       else sendMessage (config_message path message) ;; Ret WalkNil)%prog
    else Ret WalkNil.
Proof. reflexivity. Qed.

(** What the callback does for a directory that was read. *)
Lemma walkFn_dir path name c :
  walkFn path (Some (mkFileInfo name true c)) None
  = if String.eqb name "template" then Ret SkipDir else Ret WalkNil.
Proof. reflexivity. Qed.

(** Only a directory makes the callback answer [SkipDir]. *)
Lemma walk_SkipDir sep pth name n es :
  path (walk sep pth name n) es (Ret SkipDir) -> is_dir n = true.
Proof.
  destruct n as [c|l|e|e]; cbn [walk is_dir info_of]; auto; intros H; exfalso.
  - rewrite walkFn_file in H.
    destruct (String.eqb (ToLower name) "config.yaml").
    + destruct c as [e|lines]; unfold readConfigFile in H.
      * explore H; discriminate.
      * cbn [bind] in H.
        destruct (String.eqb (Join (firstn 5 lines) nl) ""); explore H;
          discriminate.
    + explore H. discriminate.
  - explore H; discriminate.
Qed.

(** The callback on a file named [config.yaml] with a non-empty start
    makes the request. *)
Lemma walk_file_request sep pth name lines es x :
  path (walk sep pth name (File (inr lines))) es (Ret x) ->
  ToLower name = "config.yaml" -> first_lines lines <> "" ->
  exists r, In (scan_request pth lines, r) es.
Proof.
  intros H Hname Hne. cbn [walk info_of] in H. rewrite walkFn_file in H.
  rewrite Hname, String.eqb_refl in H.
  unfold readConfigFile in H. cbn [bind] in H.
  fold (first_lines lines) in H.
  apply String.eqb_neq in Hne. rewrite Hne in H.
  unfold scan_request.
  explore H; try discriminate; eexists; simpl; eauto.
Qed.

Lemma scan_complete sep :
  (forall n pth name es x p lines,
      path (walk sep pth name n) es (Ret x) ->
      scanned sep pth name n p lines -> first_lines lines <> "" ->
      exists r, In (scan_request p lines, r) es) /\
  (forall l pth es x cname child p lines,
      path (walk_entries sep pth l) es (Ret x) ->
      has_entry cname child l ->
      scanned sep (join_path sep pth cname) cname child p lines ->
      first_lines lines <> "" ->
      exists r, In (scan_request p lines, r) es).
Proof.
  apply node_mutind.
  - intros c pth name es x p lines H Hs Hne.
    inversion Hs; subst. eapply walk_file_request; eauto.
  - intros l IH pth name es x p lines H Hs Hne.
    inversion Hs as [| ? ? ? cname child ? ? Hname Hentry Hchild]; subst.
    cbn [walk info_of] in H. rewrite walkFn_dir in H.
    apply String.eqb_neq in Hname. rewrite Hname in H. cbn [bind] in H.
    eapply IH; eauto.
  - intros e pth name es x p lines H Hs. inversion Hs.
  - intros e pth name es x p lines H Hs. inversion Hs.
  - intros pth es x cname child p lines H Hentry. inversion Hentry.
  - intros name n IHn rest IHrest pth es x cname child p lines H Hentry Hs Hne.
    cbn [walk_entries] in H.
    assert (Hsplit : exists es1 es2 a,
               es = es1 ++ es2 /\
               path (walk sep (join_path sep pth name) name n) es1 (Ret a) /\
               path (walk_entries sep pth rest) es2 (Ret x)).
    { destruct n as [c|l|e|e];
        apply path_bind_ret in H as (es1 & es2 & a & -> & H1 & H2);
        exists es1, es2, a; (split; [reflexivity|]); (split; [exact H1|]);
        destruct a; try exact H2.
      apply walk_SkipDir in H1. discriminate. }
    destruct Hsplit as (es1 & es2 & a & -> & H1 & H2).
    inversion Hentry as [rest' | name' n' rest' Hlater]; subst.
    + destruct (IHn _ _ _ _ _ _ H1 Hs Hne) as (r & Hr).
      exists r. apply in_or_app. now left.
    + destruct (IHrest _ _ _ _ _ _ _ H2 Hlater Hs Hne) as (r & Hr).
      exists r. apply in_or_app. now right.
Qed.

Lemma findConfigFiles_complete w es p lines :
  path (findConfigFiles w) es (Ret tt) ->
  scanned (path_separator w) "config" "config" (config_dir w) p lines ->
  first_lines lines <> "" ->
  exists r, In (scan_request p lines, r) es.
Proof.
  intros H Hs Hne. unfold findConfigFiles, Walk in H.
  apply path_bind_ret in H as (es1 & es2 & a & -> & H1 & _).
  apply path_bind_ret in H1 as (es3 & es4 & b & -> & H3 & _).
  destruct (proj1 (scan_complete _) _ _ _ _ _ _ _ H3 Hs Hne) as (r & Hr).
  exists r. apply in_or_app. left. apply in_or_app. now left.
Qed.

(** Every way in which a request is in a list that is written out. *)
Ltac in_request Hin :=
  simpl in Hin;
  repeat (destruct Hin as [Hin|Hin];
          [ first [ discriminate Hin | injection Hin as <- <- ] | ]);
  try contradiction.

(** The callback makes a request only for a file named [config.yaml] with
    a non-empty start, and then this one. *)
Lemma walkFn_file_requests pth name c es q url r :
  path (walkFn pth (Some (mkFileInfo name false c)) None) es q ->
  In (HttpGet url, r) es ->
  exists lines,
    c = inr lines /\ ToLower name = "config.yaml"
    /\ first_lines lines <> "" /\ HttpGet url = scan_request pth lines.
Proof.
  intros H Hin. rewrite walkFn_file in H.
  destruct (String.eqb (ToLower name) "config.yaml") eqn:Hname;
    [|explore H; in_request Hin].
  apply String.eqb_eq in Hname.
  destruct c as [e|lines]; unfold readConfigFile in H;
    [explore H; in_request Hin|].
  cbn [bind] in H. fold (first_lines lines) in H.
  destruct (String.eqb (first_lines lines) "") eqn:Hmsg;
    [explore H; in_request Hin|].
  apply String.eqb_neq in Hmsg.
  exists lines. repeat split; auto.
  unfold sendMessage, scan_request in *.
  explore H; in_request Hin; reflexivity.
Qed.

Lemma walkFn_error_requests pth info e es q url r :
  path (walkFn pth info (Some e)) es q -> ~ In (HttpGet url, r) es.
Proof.
  intros H Hin. unfold walkFn in H. explore H; in_request Hin.
Qed.

(** The scan makes requests for the files it is after only. *)
Lemma scan_sound sep :
  (forall n pth name es q url r,
      path (walk sep pth name n) es q -> In (HttpGet url, r) es ->
      exists p lines,
        scanned sep pth name n p lines /\ first_lines lines <> ""
        /\ HttpGet url = scan_request p lines) /\
  (forall l pth es q url r,
      path (walk_entries sep pth l) es q -> In (HttpGet url, r) es ->
      exists cname child p lines,
        has_entry cname child l
        /\ scanned sep (join_path sep pth cname) cname child p lines
        /\ first_lines lines <> "" /\ HttpGet url = scan_request p lines).
Proof.
  apply node_mutind.
  - intros c pth name es q url r H Hin. cbn [walk info_of] in H.
    destruct (@walkFn_file_requests _ _ _ _ _ _ _ H Hin)
      as (lines & -> & Hname & Hne & E).
    exists pth, lines. repeat split; auto. now apply scanned_file.
  - intros l IH pth name es q url r H Hin.
    cbn [walk info_of] in H. rewrite walkFn_dir in H.
    destruct (String.eqb name "template") eqn:Hname; cbn [bind] in H;
      [explore H; in_request Hin|].
    apply String.eqb_neq in Hname.
    destruct (IH _ _ _ _ _ H Hin) as (cname & child & p & lines & He & Hs & Hne & E).
    exists p, lines. repeat split; auto. eapply scanned_dir; eauto.
  - intros e pth name es q url r H Hin. cbn [walk] in H.
    unfold walkFn in H. explore H; in_request Hin.
  - intros e pth name es q url r H Hin. cbn [walk] in H.
    unfold walkFn in H. explore H; in_request Hin.
  - intros pth es q url r H Hin. cbn [walk_entries] in H.
    explore H; in_request Hin.
  - intros name n IHn rest IHrest pth es q url r H Hin.
    cbn [walk_entries] in H.
    assert (Hrest : forall es2 q2,
               path (walk_entries sep pth rest) es2 q2 ->
               In (HttpGet url, r) es2 ->
               exists cname child p lines,
                 has_entry cname child (ECons name n rest)
                 /\ scanned sep (join_path sep pth cname) cname child p lines
                 /\ first_lines lines <> "" /\ HttpGet url = scan_request p lines).
    { intros es2 q2 H2 Hin2.
      destruct (IHrest _ _ _ _ _ H2 Hin2)
        as (cname & child & p & lines & He & Hs & Hne & E).
      exists cname, child, p, lines. repeat split; auto.
      now apply entry_later. }
    assert (Hhere : forall es1 q1,
               path (walk sep (join_path sep pth name) name n) es1 q1 ->
               In (HttpGet url, r) es1 ->
               exists cname child p lines,
                 has_entry cname child (ECons name n rest)
                 /\ scanned sep (join_path sep pth cname) cname child p lines
                 /\ first_lines lines <> "" /\ HttpGet url = scan_request p lines).
    { intros es1 q1 H1 Hin1.
      destruct (IHn _ _ _ _ _ _ H1 Hin1) as (p & lines & Hs & Hne & E).
      exists name, n, p, lines. repeat split; auto. apply entry_here. }
    destruct n as [c|l|e|e];
      apply path_bind in H
        as [(q' & H1 & _) | (es1 & es2 & a & -> & H1 & H2)];
      try (now eapply Hhere; eauto);
      apply in_app_or in Hin as [Hin|Hin];
      try (now eapply Hhere; eauto);
      destruct a; try (now eapply Hrest; eauto).
    explore H2. in_request Hin.
Qed.

Lemma findConfigFiles_sound w es q url r :
  path (findConfigFiles w) es q -> In (HttpGet url, r) es ->
  exists p lines,
    scanned (path_separator w) "config" "config" (config_dir w) p lines
    /\ first_lines lines <> "" /\ HttpGet url = scan_request p lines.
Proof.
  intros H Hin. unfold findConfigFiles, Walk in H.
  assert (Hwalk : forall es1 q1,
             path (walk (path_separator w) "config" "config" (config_dir w))
               es1 q1 ->
             In (HttpGet url, r) es1 ->
             exists p lines,
               scanned (path_separator w) "config" "config" (config_dir w) p lines
               /\ first_lines lines <> "" /\ HttpGet url = scan_request p lines)
    by (intros es1 q1; apply (proj1 (scan_sound _))).
  apply path_bind in H as [(q' & H & _) | (es1 & es2 & a & -> & H & H2)].
  - apply path_bind in H as [(q'' & H & _) | (es3 & es4 & b & -> & H & H4)];
      [now eapply Hwalk; eauto|].
    apply in_app_or in Hin as [Hin|Hin]; [now eapply Hwalk; eauto|].
    destruct b; explore H4; in_request Hin.
  - apply in_app_or in Hin as [Hin|Hin].
    + apply path_bind in H as [(q'' & H & _) | (es3 & es4 & b & -> & H & H4)];
        [now eapply Hwalk; eauto|].
      apply in_app_or in Hin as [Hin|Hin]; [now eapply Hwalk; eauto|].
      destruct b; explore H4; in_request Hin.
    + destruct a; explore H2; in_request Hin.
Qed.

Lemma strip_prefix_app pre s : strip_prefix pre (pre ++ s)%string = Some s.
Proof.
  induction pre as [|a pre IH]; simpl; [reflexivity|].
  now rewrite Ascii.eqb_refl.
Qed.

(** The request carries the path and the lines. *)
Lemma received_scan_request path lines :
  received_text (scan_request path lines)
  = Some (config_message path (first_lines lines)).
Proof.
  unfold received_text, scan_request.
  change (telegram_url (QueryEscape (config_message path (first_lines lines))))
    with (telegram_url "" ++ QueryEscape (config_message path (first_lines lines)))%string.
  rewrite strip_prefix_app. apply QueryUnescape_QueryEscape.
Qed.

(** ** How a run ends *)

Lemma ending_of_split l x :
  ending_of l = Some x ->
  exists pre post, l = pre ++ EvEnd x :: post /\ ending_of pre = None.
Proof.
  induction l as [|e l IH]; simpl; [discriminate|].
  destruct e as [t o r|t e|t|y].
  - intros H. destruct (IH H) as (pre & post & -> & Hp).
    now exists (Ev t o r :: pre), post.
  - intros H. destruct (IH H) as (pre & post & -> & Hp).
    now exists (EvReturn t e :: pre), post.
  - intros H. destruct (IH H) as (pre & post & -> & Hp).
    now exists (EvDone t :: pre), post.
  - intros H. injection H as ->. now exists [], l.
Qed.

Lemma ending_of_mid pre x post : ending_of (pre ++ EvEnd x :: post) <> None.
Proof.
  rewrite ending_of_app. destruct (ending_of pre); simpl; discriminate.
Qed.

Section EndFacts.

Variable body : tid -> prog (option error).

Local Abbreviation exec := (exec body).
Local Abbreviation init := (init body).
Local Abbreviation move := (move body).

(** Nothing happens after the process has ended. *)
Lemma end_is_last sched pre x post :
  trace (exec sched init) = pre ++ EvEnd x :: post -> post = [].
Proof.
  revert pre x post.
  enough (H : from_trace (exec sched init) /\
              forall pre x post,
                trace (exec sched init) = pre ++ EvEnd x :: post -> post = [])
    by apply H.
  apply run_move_ind
    with (P := fun s => from_trace s /\
                 forall pre x post, trace s = pre ++ EvEnd x :: post -> post = []).
  - split; [now split|]. intros pre x post H. now destruct pre.
  - intros s s' [Hft IH] Hm.
    split; [exact (move_from_trace Hm Hft)|].
    intros pre x post H.
    assert (Hst : status s = None) by (destruct Hm; assumption).
    destruct (move_trace Hm) as (e & He). rewrite He in H.
    destruct post as [|y post'] using rev_ind; [reflexivity|].
    exfalso.
    change (pre ++ EvEnd x :: post' ++ [y])
      with (pre ++ (EvEnd x :: post') ++ [y]) in H.
    rewrite app_assoc in H. apply app_inj_tail in H as [H _].
    rewrite (ft_status Hft), H in Hst.
    now apply ending_of_mid in Hst.
Qed.

(** When the process has ended, the goroutine that ended it was at the
    end of its body. *)
Lemma ended_path sched x :
  status (exec sched init) = Some x ->
  exists pre,
    trace (exec sched init) = pre ++ [EvEnd x] /\ ending_of pre = None /\
    match x with
    | Returned => exists e, path (body TMain) (calls_of TMain pre) (Ret e)
    | Crashed t v => path (body t) (calls_of t pre) (Throw v)
    | Exited code => exists t, path (body t) (calls_of t pre) (Exit code)
    end.
Proof.
  intros Hst.
  rewrite (ft_status (run_from_trace body sched)) in Hst.
  apply ending_of_split in Hst as (pre & post & Htr & Hpre).
  pose proof (end_is_last _ _ _ _ Htr) as ->.
  exists pre. repeat split; auto.
  destruct (run_prefix body sched pre _ [] Htr)
    as (s & s' & (sched' & ->) & Hm & Hs & Hs').
  rewrite <- Hs in Hs'.
  pose proof (move_end_inv _ Hm Hs') as Hend.
  pose proof (run_follows body sched') as Hf.
  rewrite <- Hs. destruct x as [|code|t v].
  - destruct Hend as (e & Ht). specialize (Hf TMain).
    unfold follows in Hf. rewrite Ht in Hf. eauto.
  - destruct Hend as (t & Ht). specialize (Hf t).
    unfold follows in Hf. rewrite Ht in Hf. eauto.
  - specialize (Hf t). unfold follows in Hf. now rewrite Hend in Hf.
Qed.

(** While the process runs, or once it has ended, the calls of a goroutine
    lead somewhere in its body. *)
Lemma run_path sched t :
  exists q, path (body t) (calls_of t (trace (exec sched init))) q.
Proof.
  pose proof (run_follows body sched t) as Hf. unfold follows in Hf.
  destruct (threads (exec sched init) t).
  - rewrite Hf. eexists. apply path_nil.
  - eauto.
  - destruct Hf as (e & Hf). eauto.
Qed.

End EndFacts.

(** ** [main], phase by phase *)

Lemma top_vis o (k : reply -> prog unit) :
  top (Vis o k) = Vis o (fun r => top (k r)).
Proof. reflexivity. Qed.

Lemma top_bind_path (p : prog unit) (k : unit -> prog unit) es q :
  path (top (bind p k)) es q ->
  (exists q', path p es q' /\ q = top (bind q' k)) \/
  (exists es1 es2 a, es = es1 ++ es2 /\ path p es1 (Ret a)
                     /\ path (top (k a)) es2 q) \/
  (exists es1 es2 v, es = es1 ++ es2 /\ path p es1 (Throw v)
                     /\ path (top (Throw v)) es2 q).
Proof.
  revert es q. induction p as [a|v|c|o k' IH]; intros es q H.
  - right; left. exists [], es, a. repeat split; auto using path_nil.
  - right; right. exists [], es, v. repeat split; auto using path_nil.
  - left. exists (Exit c).
    change (top (bind (Exit c) k)) with (@Exit (option error) c) in H.
    apply path_inv_exit in H as [-> ->].
    split; [apply path_nil | reflexivity].
  - change (top (bind (Vis o k') k))
      with (Vis o (fun r => top (bind (k' r) k))) in H.
    apply path_inv_vis in H as [[-> ->] | (r & es' & -> & Hv & H)].
    + left. exists (Vis o k'). split; [apply path_nil | reflexivity].
    + destruct (IH r _ _ H)
        as [(q' & H1 & ->) | [(es1 & es2 & a & -> & H1 & H2)
                             | (es1 & es2 & v & -> & H1 & H2)]].
      * left. exists q'. split; [now apply path_cons | reflexivity].
      * right; left. exists ((o, r) :: es1), es2, a.
        repeat split; auto using path_cons.
      * right; right. exists ((o, r) :: es1), es2, v.
        repeat split; auto using path_cons.
Qed.

Lemma main_startup w es q :
  path (koolo w TMain) es q ->
  (Forall (fun e => startup_op (fst e) = true) es /\ forall e, q <> Ret e) \/
  exists es', es = (ConfigLoad, Ok) :: (NewLogger, Ok) :: es'
              /\ path (top (x <- findConfigFiles w ;; orchestrate w)%prog) es' q.
Proof.
  intros H. unfold koolo, main in H.
  path_next H; [left; split; [constructor | discriminate] | | | ].
  - path_next H; [left; split; [repeat constructor | discriminate] | | | ].
    + right. eexists. split; [reflexivity | exact H].
    + left. explore H; (split; [repeat constructor | discriminate]).
    + left. explore H; (split; [repeat constructor | discriminate]).
  - left. explore H; (split; [repeat constructor | discriminate]).
  - left. explore H; (split; [repeat constructor | discriminate]).
Qed.

Lemma main_phases w es q : path (koolo w TMain) es q -> main_phase w es q.
Proof.
  intros H. apply main_startup in H as [[H Hq] | (es' & -> & H)];
    [now apply phase_startup|].
  apply top_bind_path in H
    as [(q' & H1 & ->) | [(es1 & es2 & a & -> & H1 & H2)
                         | (es1 & es2 & v & -> & H1 & H2)]].
  - destruct (tame_path (findConfigFiles_tame w) H1)
      as [Hops [[Hnp Hq] | (es1 & o & v & -> & -> & Hnp)]].
    + eapply phase_scan; eauto.
    + apply Forall_app in Hops as [Hops Ho]. inversion Ho; subst.
      eapply phase_scan_panic with (es2 := []); eauto. apply path_nil.
  - destruct (tame_path (findConfigFiles_tame w) H1)
      as [Hops [[Hnp Hq] | (es3 & o & v & _ & E & _)]]; [|discriminate].
    destruct a. eapply phase_orchestrate; eauto.
  - destruct (tame_path (findConfigFiles_tame w) H1)
      as [Hops [[Hnp Hq] | (es3 & o & v' & -> & E & Hnp)]];
      [inversion Hq|].
    injection E as ->.
    apply Forall_app in Hops as [Hops Ho]. inversion Ho; subst.
    rewrite <- app_assoc. simpl.
    eapply phase_scan_panic; eauto.
Qed.

(** ** Who calls what *)

Lemma all_ops_impl {A : Type} (P Q : op -> Prop) (p : prog A) :
  (forall o, P o -> Q o) -> all_ops P p -> all_ops Q p.
Proof. intros HPQ. induction 1; constructor; auto. Qed.

Ltac ops_auto :=
  repeat first
    [ assumption | apply ao_ret | apply ao_exit | apply ao_throw
    | apply all_ops_call; reflexivity
    | apply all_ops_defer
    | apply all_ops_defer_recover
    | apply all_ops_bind
    | intro
    | match goal with
      | |- all_ops _ (match ?r with _ => _ end) => destruct r
      end
    | progress unfold cancel, logFatalf ].

Lemma findConfigFiles_ops w :
  all_ops (fun o => may_call TMain o = true) (findConfigFiles w).
Proof.
  apply all_ops_impl with (P := fun o => scan_op o = true).
  - now intros [].
  - apply tame_all_ops, findConfigFiles_tame.
Qed.

Lemma koolo_ops w t : all_ops (fun o => may_call t o = true) (koolo w t).
Proof.
  destruct t; unfold koolo.
  - unfold main, guarded, barrier, report_panic, orchestrate, discord_init,
      telegram_init, run_group.
    pose proof (findConfigFiles_ops w).
    ops_auto.
  - unfold schedulerTask. ops_auto.
  - unfold guiTask. ops_auto.
  - unfold discordTask. ops_auto.
  - unfold telegramTask. ops_auto.
  - unfold serverTask. ops_auto.
  - unfold eventBusTask. ops_auto.
  - unfold shutdownTask. ops_auto.
Qed.

(** Every call in a trace is one its goroutine may make. *)
Lemma run_may_call w sched t o r :
  In (Ev t o r) (trace (run w sched)) -> may_call t o = true.
Proof.
  intros H. apply calls_of_In in H.
  destruct (run_path (koolo w) sched t) as (q & Hq).
  apply (all_ops_path (koolo_ops w t)) in Hq as [Hq _].
  rewrite Forall_forall in Hq. exact (Hq _ H).
Qed.

(** ** Orders of calls *)

Lemma precedes_spec a b l :
  precedes a b l = true ->
  forall pre x post, l = pre ++ x :: post -> b x = true -> a x = false ->
  exists y, In y pre /\ a y = true.
Proof.
  induction l as [|z l IH]; intros H pre x post E Hb Ha.
  - now destruct pre.
  - simpl in H. destruct pre as [|z' pre]; simpl in E; injection E as -> ->.
    + now rewrite Ha, Hb in H.
    + destruct (a z') eqn:Hz.
      * exists z'. split; [now left | exact Hz].
      * destruct (b z'); [discriminate|].
        destruct (IH H pre x post eq_refl Hb Ha) as (y & Hy & Hay).
        exists y. split; [now right | exact Hay].
Qed.

Lemma none_before_spec a b l :
  none_before a b l = true ->
  forall pre x post, l = pre ++ x :: post -> b x = true ->
  forall y, In y pre -> a y = false.
Proof.
  induction l as [|z l IH]; intros H pre x post E Hb y Hy.
  - now destruct pre.
  - simpl in H. destruct pre as [|z' pre]; [now destruct Hy|].
    simpl in E. injection E as -> ->.
    destruct (a z') eqn:Hz.
    + apply negb_true_iff in H.
      assert (Hex : existsb b (pre ++ x :: post) = true).
      { apply existsb_exists. exists x. split; [|exact Hb].
        apply in_or_app. right. now left. }
      congruence.
    + destruct Hy as [<-|Hy]; [exact Hz|]. eapply IH; eauto.
Qed.

(** The calls of the shutdown task, in the order of lines 201-211. *)
Lemma shutdown_order es q :
  path shutdownTask es q ->
  precedes (returned_ok ManagerStopAll) (calls ServerStop) es = true /\
  precedes (returned_ok ManagerStopAll) (calls SchedulerStop) es = true /\
  precedes (returned_ok SchedulerStop) (calls ServerStop) es = true /\
  none_before (calls ServerStop) (calls ManagerStopAll) es = true /\
  none_before (calls ServerStop) (calls SchedulerStop) es = true /\
  (forall e, q = Ret e -> existsb (returned_ok SchedulerStop) es = true).
Proof.
  intros H. unfold shutdownTask in H.
  explore H; repeat split; try reflexivity; intros; discriminate.
Qed.

(** The GUI task calls the deferred [cancel] last, however it ends. *)
Lemma gui_cancels es q :
  path guiTask es q -> ended q = true ->
  existsb (returned_ok Cancel) es = true.
Proof.
  intros H. unfold guiTask in H.
  explore H; intros; try discriminate; reflexivity.
Qed.

(** On the failure branch of [gowebview.New] the GUI task calls [Destroy]
    before it returns the error. *)
Lemma gui_new_failure es e q :
  path guiTask ((GetCurrentDisplayScale, Ok) :: (WebviewNew, Fail e) :: es) q ->
  (es = [] /\ ended q = false) \/
  exists r es', es = (WebviewDestroy, r) :: es'.
Proof.
  intros H. unfold guiTask in H.
  do 2 (path_next H; try discriminate).
  all: try match goal with E : _ :: _ = _ :: _ |- _ => injection E as ? ?; subst end.
  all: try discriminate.
  path_next H; [left; auto | right; eauto | right; eauto].
Qed.

Lemma returned_ok_inv o y :
  returned_ok o y = true -> calls o y = true /\ snd y = Ok.
Proof.
  unfold returned_ok. intros [H1 H2]%andb_prop. split; [exact H1|].
  now destruct (snd y).
Qed.

Lemma calls_inv o y : calls o y = true -> fst y = o.
Proof. unfold calls. destruct o, (fst y); try discriminate; reflexivity. Qed.

Lemma returned_ok_eq o y : returned_ok o y = true -> y = (o, Ok).
Proof.
  intros [H1 H2]%returned_ok_inv. apply calls_inv in H1.
  destruct y; simpl in *; congruence.
Qed.

(** An order on the calls of a goroutine is an order on the trace. *)
Lemma run_precedes w sched t a b :
  (forall es q, path (koolo w t) es q -> precedes a b es = true) ->
  forall pre o r post,
    trace (run w sched) = pre ++ Ev t o r :: post ->
    b (o, r) = true -> a (o, r) = false ->
    exists o' r', In (Ev t o' r') pre /\ a (o', r') = true.
Proof.
  intros Hall pre o r post Htr Hb Ha.
  destruct (run_path (koolo w) sched t) as (q & Hq).
  fold (run w sched) in Hq. rewrite Htr, calls_of_split in Hq.
  destruct (precedes_spec _ _ (Hall _ _ Hq) _ _ _ eq_refl Hb Ha)
    as ([o' r'] & Hin & Hy).
  exists o', r'. split; [now apply calls_of_In | exact Hy].
Qed.

Lemma run_none_before w sched t a b :
  (forall es q, path (koolo w t) es q -> none_before a b es = true) ->
  forall pre o r post,
    trace (run w sched) = pre ++ Ev t o r :: post ->
    b (o, r) = true ->
    forall o' r', In (Ev t o' r') pre -> a (o', r') = false.
Proof.
  intros Hall pre o r post Htr Hb o' r' Hin.
  destruct (run_path (koolo w) sched t) as (q & Hq).
  fold (run w sched) in Hq. rewrite Htr, calls_of_split in Hq.
  apply (none_before_spec _ _ (Hall _ _ Hq) _ _ _ eq_refl Hb).
  now apply calls_of_In.
Qed.

Lemma in_mid {X : Type} (pre : list X) x post : In x (pre ++ x :: post).
Proof. apply in_or_app. right. now left. Qed.

(** ** The shutdown order *)


(** The order is seen in a run: the window is closed, the shutdown task
    stops the manager, the scheduler and the server, everything returns
    nil. *)
Example clean_run_trace :
  trace (run (demo false false) clean_run)
  = [ Ev TMain ConfigLoad Ok; Ev TMain NewLogger Ok;
      Ev TMain (scan_request "config\Sorc\config.yaml"
                  ["username: alice"; "password: hunter2"; "realm: eu";
                   "character: Sorc"; "maxGameLength: 300"]) Ok;
      Ev TMain SetProcessDpiAware Ok; Ev TMain NewListener Ok;
      Ev TMain NewSupervisorManager Ok; Ev TMain NewScheduler Ok;
      Ev TMain (GoPlain TScheduler) Ok; Ev TMain ServerNew Ok;
      Ev TMain (GroupGo TGui) Ok; Ev TMain (GroupGo TServer) Ok;
      Ev TMain (GroupGo TEventBus) Ok; Ev TMain (GroupGo TShutdown) Ok;
      Ev TGui GetCurrentDisplayScale Ok; Ev TGui WebviewNew Ok;
      Ev TGui WebviewSetSize Ok; Ev TGui WebviewRun Ok;
      Ev TGui WebviewDestroy Ok; Ev TGui Cancel Ok; EvReturn TGui None;
      Ev TShutdown AwaitDone Ok;
      Ev TShutdown (LoggerInfo "Koolo shutting down...") Ok;
      Ev TShutdown Cancel Ok; Ev TShutdown ManagerStopAll Ok;
      Ev TShutdown SchedulerStop Ok; Ev TShutdown ServerStop Ok;
      EvReturn TShutdown None;
      Ev TServer ServerListen Ok; Ev TServer Cancel Ok; EvReturn TServer None;
      Ev TEventBus EventListen Ok; Ev TEventBus Cancel Ok;
      EvReturn TEventBus None;
      Ev TMain GroupWait Ok; Ev TMain FlushLog Ok; Ev TMain Cancel Ok;
      Ev TMain FlushLog Ok; EvEnd Returned ].
Proof. vm_compute. reflexivity. Qed.

Lemma registered_of_In t tr :
  In t (registered_of tr) <-> exists c r, In (Ev c (GroupGo t) r) tr.
Proof.
  induction tr as [|e tr IH]; simpl.
  - split; [intros [] | intros (c & r & [])].
  - assert (Hrest : (exists c r, In (Ev c (GroupGo t) r) tr) ->
                    exists c r, e = Ev c (GroupGo t) r \/ In (Ev c (GroupGo t) r) tr)
      by (intros (c & r & H); eauto).
    destruct e as [c o r| | |];
      try (rewrite IH; split;
           [exact Hrest
           | intros (c' & r' & [H|H]); [discriminate | eauto]]).
    destruct o;
      try (rewrite IH; split;
           [exact Hrest
           | intros (c' & r' & [H|H]); [discriminate | eauto]]).
    simpl. rewrite IH. split.
    + intros [->|H]; [exists c, r; now left | now apply Hrest].
    + intros (c' & r' & [H|H]); [left; congruence | right; eauto].
Qed.

(** When a function of the group returns, its goroutine is at the end of
    its body, and it was passed to [g.Go] before. *)
Lemma run_return_path w sched t e pre post :
  trace (run w sched) = pre ++ EvReturn t e :: post ->
  path (koolo w t) (calls_of t pre) (Ret e) /\ In t (registered_of pre).
Proof.
  intros Htr.
  destruct (run_prefix (koolo w) sched pre _ post Htr)
    as (s & s' & (sched' & ->) & Hm & Hs & Hs').
  rewrite <- Hs in Hs'.
  eapply move_return_inv in Hs' as (Ht & Hmem & _); [|exact Hm].
  pose proof (run_follows (koolo w) sched' t) as Hf.
  unfold follows in Hf. rewrite Ht, Hs in Hf. split; [exact Hf|].
  apply mem_In in Hmem.
  now rewrite (ft_tasks (run_from_trace (koolo w) sched')), Hs in Hmem.
Qed.

(** Only [main] passes functions to [g.Go], and never the scheduler's. *)
Lemma registered_not_scheduler w sched pre post t :
  trace (run w sched) = pre ++ post -> In t (registered_of pre) ->
  t <> TScheduler.
Proof.
  intros Htr (c & r & Hin)%registered_of_In.
  assert (Hc : may_call c (GroupGo t) = true).
  { apply (@run_may_call w sched c (GroupGo t) r). rewrite Htr.
    apply in_or_app. now left. }
  intros ->. destruct c; discriminate.
Qed.

Lemma scheduler_at es q :
  path schedulerTask es q ->
  (exists k, q = Vis SchedulerStart k) \/ q = Ret None \/ exists v, q = Throw v.
Proof.
  intros H. unfold schedulerTask in H.
  explore H; eauto.
Qed.

(** [srv.Stop] comes after [scheduler.Stop], which comes after
    [manager.StopAll]. *)
Lemma stop_all_before_server_stop_aux w sched pre t r post :
  trace (run w sched) = pre ++ Ev t ServerStop r :: post ->
  exists pre1 pre2,
    pre = pre1 ++ Ev TShutdown SchedulerStop Ok :: pre2
    /\ In (Ev TShutdown ManagerStopAll Ok) pre1.
Proof.
  intros Htr.
  assert (Ht : t = TShutdown).
  { assert (Hc : may_call t ServerStop = true).
    { apply (@run_may_call w sched t ServerStop r).
      rewrite Htr. apply in_mid. }
    destruct t; try discriminate; reflexivity. }
  subst t.
  destruct (@run_precedes w sched TShutdown
              (returned_ok SchedulerStop) (calls ServerStop))
    with (pre := pre) (o := ServerStop) (r := r) (post := post)
    as (o' & r' & Hin & Hy); auto.
  { intros es q Hq. apply (shutdown_order Hq). }
  apply returned_ok_eq in Hy. injection Hy as -> ->.
  apply in_split in Hin as (pre1 & pre2 & ->).
  exists pre1, pre2. split; [reflexivity|].
  rewrite <- app_assoc in Htr. simpl in Htr.
  destruct (@run_precedes w sched TShutdown
              (returned_ok ManagerStopAll) (calls SchedulerStop))
    with (pre := pre1) (o := SchedulerStop) (r := Ok)
         (post := pre2 ++ Ev TShutdown ServerStop r :: post)
    as (o' & r' & Hin & Hy); auto.
  { intros es q Hq. apply (shutdown_order Hq). }
  apply returned_ok_eq in Hy. now injection Hy as -> ->.
Qed.

(** ** The scheduler *)


(** ** The GUI task and the cancellation *)

Lemma cancel_fires w sched t :
  In (Ev t Cancel Ok) (trace (run w sched)) -> ctx_done (run w sched) = true.
Proof.
  intros H. unfold ctx_done, run.
  rewrite (ft_parent (run_from_trace (koolo w) sched)).
  apply orb_true_intro. left. apply existsb_exists.
  exists (Ev t Cancel Ok). split; [exact H | reflexivity].
Qed.

Lemma all_nil_returns tr :
  group_result (returns_of tr) = None <->
  forall t e, In (EvReturn t e) tr -> e = None.
Proof.
  unfold group_result.
  destruct (first_error (returns_of tr)) as [[t e]|] eqn:H; simpl.
  - split; [discriminate|]. intros Hall.
    apply first_error_Some in H as (l1 & l2 & Hr & _).
    assert (Hin : In (t, Some e) (returns_of tr))
      by (rewrite Hr; apply in_mid).
    apply returns_of_In in Hin. now apply Hall in Hin.
  - split; [|reflexivity]. intros _ t e Hin.
    apply returns_of_In in Hin.
    exact (proj1 (first_error_None _) H _ _ Hin).
Qed.

(** C8, as the code has it.  Whenever the GUI task completes (it returns
    nil, it returns an error, or a panic leaves it) it has called [cancel]
    before, so the shared context is done.  When it returned nil and
    [g.Wait] returns, the result of [g.Wait] is nil exactly when every
    function of the group returned nil; what the other tasks return is
    theirs to decide. *)
Theorem gui_completion_cancels (w : world) (sched : list (tid * reply)) :
  let s := run w sched in
  (forall pre e post,
      trace s = pre ++ EvReturn TGui e :: post ->
      In (Ev TGui Cancel Ok) pre /\ ctx_done s = true) /\
  (forall pre v post,
      trace s = pre ++ EvEnd (Crashed TGui v) :: post ->
      In (Ev TGui Cancel Ok) pre /\ ctx_done s = true) /\
  (forall pre t r post,
      trace s = pre ++ Ev t GroupWait r :: post ->
      In (EvReturn TGui None) pre ->
      (r = Ok <-> forall t' e, In (EvReturn t' e) pre -> e = None)).
Proof.
  intros s. repeat split.
  - destruct (@run_return_path w sched _ _ _ _ H) as [Hp _].
    apply gui_cancels in Hp; [|reflexivity].
    apply existsb_exists in Hp as (y & Hy & Hok).
    apply returned_ok_eq in Hok. subst y. now apply calls_of_In.
  - destruct (@run_return_path w sched _ _ _ _ H) as [Hp _].
    apply gui_cancels in Hp; [|reflexivity].
    apply existsb_exists in Hp as (y & Hy & Hok).
    apply returned_ok_eq in Hok. subst y. apply calls_of_In in Hy.
    apply cancel_fires with (t := TGui). fold s. rewrite H.
    apply in_or_app. now left.
  - destruct (run_prefix (koolo w) sched pre _ post H)
      as (s1 & s1' & (sched' & ->) & Hm & Hs & Hs').
    rewrite <- Hs in Hs'. pose proof (move_end_inv _ Hm Hs') as Hend.
    pose proof (run_follows (koolo w) sched' TGui) as Hf.
    unfold follows in Hf. simpl in Hend. rewrite Hend, Hs in Hf.
    apply gui_cancels in Hf; [|reflexivity].
    apply existsb_exists in Hf as (y & Hy & Hok).
    apply returned_ok_eq in Hok. subst y. now apply calls_of_In.
  - destruct (run_prefix (koolo w) sched pre _ post H)
      as (s1 & s1' & (sched' & ->) & Hm & Hs & Hs').
    rewrite <- Hs in Hs'. pose proof (move_end_inv _ Hm Hs') as Hend.
    pose proof (run_follows (koolo w) sched' TGui) as Hf.
    unfold follows in Hf. simpl in Hend. rewrite Hend, Hs in Hf.
    apply gui_cancels in Hf; [|reflexivity].
    apply existsb_exists in Hf as (y & Hy & Hok).
    apply returned_ok_eq in Hok. subst y. apply calls_of_In in Hy.
    apply cancel_fires with (t := TGui). fold s. rewrite H.
    apply in_or_app. now left.
  - intros ->.
    destruct (wait_returns (koolo w) sched _ _ _ _ H) as [_ Hr].
    apply all_nil_returns.
    destruct (group_result (returns_of pre)); [discriminate | reflexivity].
  - intros Hall.
    destruct (wait_returns (koolo w) sched _ _ _ _ H) as [_ Hr].
    apply all_nil_returns in Hall. now rewrite Hall in Hr.
Qed.

(** C8 as it is stated does not hold: the window is closed, the GUI task
    returns nil, every other task returns, and [g.Wait] returns the error
    of [srv.Stop]. *)
Lemma gui_nil_result_not_nil :
  let tr := trace (run (demo false false) stop_fails_run) in
  In (EvReturn TGui None) tr /\
  In (EvReturn TServer None) tr /\
  In (EvReturn TEventBus None) tr /\
  In (EvReturn TShutdown (Some "server did not stop")) tr /\
  In (Ev TMain GroupWait (Fail "server did not stop")) tr /\
  ending_of tr = Some Returned.
Proof. vm_compute. intuition. Qed.

(** ** The result of the group *)

Lemma all_false_none_before a b l :
  forallb (fun x => negb (a x)) l = true -> none_before a b l = true.
Proof.
  induction l as [|x l IH]; simpl; [reflexivity|].
  intros [Hx Hl]%andb_prop. apply negb_true_iff in Hx. rewrite Hx. auto.
Qed.

Lemma none_before_app a b l1 l2 :
  forallb (fun x => negb (a x)) l1 = true ->
  none_before a b (l1 ++ l2) = none_before a b l2.
Proof.
  induction l1 as [|x l IH]; simpl; [reflexivity|].
  intros [Hx Hl]%andb_prop. apply negb_true_iff in Hx. rewrite Hx. auto.
Qed.

Lemma ops_forallb (P : op -> bool) (f : op * reply -> bool) l :
  (forall o r, P o = true -> f (o, r) = true) ->
  Forall (fun e => P (fst e) = true) l -> forallb f l = true.
Proof.
  intros HPf H. apply forallb_forall. rewrite Forall_forall in H.
  intros [o r] Hin. apply HPf. exact (H _ Hin).
Qed.

(** [main] passes no function to [g.Go] after it has called [g.Wait]. *)
Lemma main_no_go_after_wait w es q :
  path (koolo w TMain) es q ->
  none_before (calls GroupWait) is_GroupGo es = true.
Proof.
  intros H. apply main_phases in H.
  destruct H as [Hs _ | es1 q' -> _ _ Hops _ _ | es1 o v es2 -> _ Hops _ Ho H
                | es1 es2 -> _ Hops _ H].
  - apply all_false_none_before.
    apply ops_forallb with (P := startup_op); [|exact Hs].
    now intros [] r.
  - apply all_false_none_before. simpl.
    apply ops_forallb with (P := scan_op); [|exact Hops].
    now intros [] r.
  - change ((ConfigLoad, Ok) :: (NewLogger, Ok) :: es1 ++ (o, Panic v) :: es2)
      with (((ConfigLoad, Ok) :: (NewLogger, Ok) :: es1)
              ++ (o, Panic v) :: es2).
    rewrite none_before_app.
    + destruct o; try discriminate; simpl; unfold top, barrier in H;
        explore H; reflexivity.
    + simpl. apply ops_forallb with (P := scan_op); [|exact Hops].
      now intros [] r.
  - change ((ConfigLoad, Ok) :: (NewLogger, Ok) :: es1 ++ es2)
      with (((ConfigLoad, Ok) :: (NewLogger, Ok) :: es1) ++ es2).
    rewrite none_before_app.
    + unfold top, barrier, orchestrate in H. explore H; reflexivity.
    + simpl. apply ops_forallb with (P := scan_op); [|exact Hops].
      now intros [] r.
Qed.

Lemma no_go_after_wait w sched pre t r post :
  trace (run w sched) = pre ++ Ev t GroupWait r :: post ->
  registered_of post = [].
Proof.
  intros Htr.
  destruct (registered_of post) as [|t' l] eqn:Hreg; [reflexivity|exfalso].
  assert (Hin : In t' (registered_of post)) by (rewrite Hreg; now left).
  apply registered_of_In in Hin as (c & r' & Hin).
  assert (Hc : c = TMain).
  { assert (Hc : may_call c (GroupGo t') = true).
    { apply (@run_may_call w sched c (GroupGo t') r'). rewrite Htr.
      apply in_or_app. right. now right. }
    destruct c; try discriminate; reflexivity. }
  assert (Ht : t = TMain).
  { assert (Hc' : may_call t GroupWait = true).
    { apply (@run_may_call w sched t GroupWait r). rewrite Htr. apply in_mid. }
    destruct t; try discriminate; reflexivity. }
  subst c t. apply in_split in Hin as (p1 & p2 & ->).
  destruct (run_path (koolo w) sched TMain) as (q & Hq).
  fold (run w sched) in Hq.
  replace (pre ++ Ev TMain GroupWait r :: p1 ++ Ev TMain (GroupGo t') r' :: p2)
    with ((pre ++ Ev TMain GroupWait r :: p1) ++ Ev TMain (GroupGo t') r' :: p2)
    in Htr by (now rewrite <- app_assoc).
  rewrite Htr, calls_of_split in Hq.
  apply main_no_go_after_wait in Hq.
  assert (Hf : calls GroupWait (GroupWait, r) = false); [|discriminate].
  eapply none_before_spec; [exact Hq | reflexivity | reflexivity |].
  apply calls_of_In. apply in_mid.
Qed.

(** C6, as the code has it.  [g.Wait] returns only when every function
    that is ever passed to [g.Go] in the run has returned, and it returns
    the first non-nil error among the returns (nil when there is none).  So
    when [srv.Listen] returns an error and no function of the group has
    returned one before, that error is the result, whatever is returned
    after it. *)
Theorem wait_returns_first_error (w : world) (sched : list (tid * reply))
    (pre : list event) (t : tid) (r : reply) (post : list event) :
  trace (run w sched) = pre ++ Ev t GroupWait r :: post ->
  (forall t', In t' (registered_of (trace (run w sched))) ->
              exists e, In (EvReturn t' e) pre) /\
  r = reply_of (group_result (returns_of pre)) /\
  (forall e l1 l2,
      returns_of pre = l1 ++ (TServer, Some e) :: l2 ->
      first_error l1 = None -> r = Fail e).
Proof.
  intros Htr.
  destruct (wait_returns (koolo w) sched _ _ _ _ Htr) as [Hall Hr].
  repeat split.
  - intros t' Hin. apply Hall.
    fold (run w sched) in Htr. rewrite Htr, registered_of_app in Hin.
    simpl in Hin. rewrite (no_go_after_wait _ _ _ _ _ _ Htr), app_nil_r in Hin.
    exact Hin.
  - exact Hr.
  - intros e l1 l2 Hret Hl1. rewrite Hr. unfold group_result.
    now rewrite Hret, first_error_app, Hl1.
Qed.

(** C6 at a run: the listen error comes first and is the result, whatever
    the GUI task, the shutdown task and the event bus return after it. *)
Lemma wait_returns_first_error_witness :
  Fail "address in use"
  = reply_of (group_result
       [ (TServer, Some "address in use");
         (TGui, Some "error creating webview: no display");
         (TShutdown, Some "server did not stop");
         (TEventBus, Some "context canceled") ]).
Proof.
  pose proof (@wait_returns_first_error (demo false false)
                listen_error_first_run
                (firstn 32 (trace (run (demo false false) listen_error_first_run)))
                TMain (Fail "address in use")
                (skipn 33 (trace (run (demo false false) listen_error_first_run))))
    as H.
  destruct H as (_ & H & _); [vm_compute; reflexivity|].
  vm_compute in H. exact H.
Defined.

(** C6 as it is stated does not hold: [srv.Listen] returns an error, and
    the result of [g.Wait] is another error, the one the GUI task returned
    before. *)
Lemma listen_error_not_result :
  let tr := trace (run (demo false false) gui_error_first_run) in
  In (EvReturn TServer (Some "address in use")) tr /\
  In (Ev TMain GroupWait (Fail "error creating webview: no display")) tr /\
  (forall t r, In (Ev t GroupWait r) tr ->
               r = Fail "error creating webview: no display").
Proof.
  vm_compute. repeat split; intuition; congruence.
Qed.

(** The calls of the shutdown task when it has returned. *)
Lemma shutdown_calls es x :
  path shutdownTask es (Ret x) ->
  exists r,
    x = err_of r /\
    es = [ (AwaitDone, Ok); (LoggerInfo "Koolo shutting down...", Ok);
           (Cancel, Ok); (ManagerStopAll, Ok); (SchedulerStop, Ok);
           (ServerStop, r) ]
         ++ match r with
            | Fail e =>
                [(LoggerError "error stopping local server" (Some e), Ok)]
            | _ => []
            end.
Proof.
  intros H. unfold shutdownTask in H.
  explore H; try discriminate;
    match goal with E : Ret _ = Ret _ |- _ => injection E as -> end.
  - now exists Ok.
  - now eexists (Fail _).
Qed.

(** C7, as the code has it.  When [srv.Stop] returns an error, the
    shutdown task logs it and returns it.  In the result of [g.Wait] it
    does not replace an error that a function of the group returned
    before; it is the result exactly when no function of the group
    returned an error before the shutdown task did, whatever the others
    return afterwards. *)
Theorem stop_error_result (w : world) (sched : list (tid * reply)) :
  let tr := trace (run w sched) in
  (forall pre e mid x post,
      tr = pre ++ Ev TShutdown ServerStop (Fail e) :: mid
             ++ EvReturn TShutdown x :: post ->
      x = Some e /\
      In (Ev TShutdown (LoggerError "error stopping local server" (Some e)) Ok)
         mid) /\
  (forall pre t r post l1 e l2,
      tr = pre ++ Ev t GroupWait r :: post ->
      returns_of pre = l1 ++ (TShutdown, Some e) :: l2 ->
      match first_error l1 with
      | Some (_, e0) => r = Fail e0
      | None => r = Fail e
      end).
Proof.
  intros tr. split.
  - intros pre e mid x post Htr.
    replace (pre ++ Ev TShutdown ServerStop (Fail e) :: mid
               ++ EvReturn TShutdown x :: post)
      with ((pre ++ Ev TShutdown ServerStop (Fail e) :: mid)
              ++ EvReturn TShutdown x :: post) in Htr
      by (now rewrite <- app_assoc).
    destruct (@run_return_path w sched _ _ _ _ Htr) as [Hp _].
    rewrite calls_of_split in Hp.
    apply shutdown_calls in Hp as (r & -> & E).
    assert (Hr : r = Fail e /\
                 calls_of TShutdown mid
                 = [(LoggerError "error stopping local server" (Some e), Ok)]).
    { destruct (calls_of TShutdown pre) as [|c1 [|c2 [|c3 [|c4 [|c5 [|c6 l]]]]]];
        simpl in E; try discriminate;
        try (injection E as <-; discriminate);
        try (injection E as <- <-; discriminate);
        try (injection E as <- <- <-; discriminate);
        try (injection E as <- <- <- <-; discriminate).
      - injection E as -> -> -> -> -> E1 E2. subst r. auto.
      - injection E as -> -> -> -> -> -> E.
        destruct r; simpl in E; try (now destruct l).
        destruct l as [|c7 l]; simpl in E; [discriminate|].
        injection E as -> E. now destruct l. }
    destruct Hr as [-> Hmid]. split; [reflexivity|].
    apply calls_of_In. rewrite Hmid. now left.
  - intros pre t r post l1 e l2 Htr Hret.
    destruct (wait_returns (koolo w) sched _ _ _ _ Htr) as [_ Hr].
    unfold group_result in Hr. rewrite Hret, first_error_app in Hr.
    destruct (first_error l1) as [[t0 e0]|]; exact Hr.
Qed.

(** C7 as it is stated does not hold: the error of [srv.Stop] is the
    result of [g.Wait] although it is not the only error, [srv.Listen]
    having returned one after it. *)
Lemma stop_error_not_alone :
  let tr := trace (run (demo false false) stop_error_first_run) in
  In (EvReturn TShutdown (Some "server did not stop")) tr /\
  In (EvReturn TServer (Some "http: Server closed")) tr /\
  In (Ev TMain GroupWait (Fail "server did not stop")) tr.
Proof. vm_compute. intuition. Qed.

(** ** Lists that are written out *)

Lemma nil_split {X : Type} pre (x : X) post : [] = pre ++ x :: post -> False.
Proof. now destruct pre. Qed.

Lemma cons_split {X : Type} (c : X) rest pre x post :
  c :: rest = pre ++ x :: post ->
  (pre = [] /\ c = x /\ rest = post) \/
  (exists pre', pre = c :: pre' /\ rest = pre' ++ x :: post).
Proof.
  destruct pre as [|p pre]; simpl; intros E; injection E as -> ->; eauto.
Qed.

(** Every way in which a list that is written out is [pre ++ x :: post]. *)
Ltac split_list E :=
  lazymatch type of E with
  | [] = _ ++ _ :: _ => exfalso; exact (nil_split _ _ _ E)
  | _ :: _ = _ ++ _ :: _ =>
      let E1 := fresh "E" in
      apply cons_split in E;
      destruct E as [(? & E1 & ?) | (? & ? & E)];
      [ first [ discriminate E1
              | injection E1; intros; subst ]
      | subst; split_list E ]
  end.

Lemma split_after (P : op -> bool) (cs1 es2 pre : list (op * reply)) x post :
  Forall (fun e => P (fst e) = true) cs1 -> P (fst x) = false ->
  cs1 ++ es2 = pre ++ x :: post ->
  exists pre2, pre = cs1 ++ pre2 /\ es2 = pre2 ++ x :: post.
Proof.
  revert pre. induction cs1 as [|c cs1 IH]; intros pre Hall Hx E.
  - exists pre. auto.
  - inversion Hall as [|? ? Hc Hall']; subst.
    destruct pre as [|p pre]; simpl in E; injection E as -> E.
    + congruence.
    + destruct (IH pre Hall' Hx E) as (pre2 & -> & ->). now exists pre2.
Qed.

(** ** [main] in lines 120-221 *)

Lemma scan_is_early o : scan_op o = true -> early_op o = true.
Proof. now destruct o. Qed.

Lemma startup_is_early o : startup_op o = true -> early_op o = true.
Proof. now destruct o. Qed.

(** Once [main] has made a call of lines 120-221, its calls are those of
    the startup and of a finished scan, followed by calls of lines
    120-221 under the two deferred calls. *)
Lemma main_orchestrating w cs q x :
  path (koolo w TMain) cs q -> In x cs -> early_op (fst x) = false ->
  exists es1 es2,
    cs = ((ConfigLoad, Ok) :: (NewLogger, Ok) :: es1) ++ es2 /\
    Forall (fun e => early_op (fst e) = true)
      ((ConfigLoad, Ok) :: (NewLogger, Ok) :: es1) /\
    path (findConfigFiles w) es1 (Ret tt) /\
    path (top (orchestrate w)) es2 q.
Proof.
  intros H Hin Hx. apply main_phases in H.
  assert (Hno : Forall (fun e => early_op (fst e) = true) cs -> False).
  { intros Hall. rewrite Forall_forall in Hall. apply Hall in Hin. congruence. }
  destruct H as [Hs _ | es1 q' -> _ _ Hops _ _ | es1 o v es2 -> _ Hops _ Ho H
                | es1 es2 -> Hfc Hops _ H].
  - exfalso. apply Hno. eapply Forall_impl; [|exact Hs].
    intros a. apply startup_is_early.
  - exfalso. apply Hno. repeat constructor.
    eapply Forall_impl; [|exact Hops]. intros a. apply scan_is_early.
  - exfalso. apply Hno. repeat constructor.
    apply Forall_app. split.
    + eapply Forall_impl; [|exact Hops]. intros a. apply scan_is_early.
    + constructor; [now apply scan_is_early|].
      unfold top, barrier in H. explore H; repeat constructor.
  - exists es1, es2. repeat split; auto. repeat constructor.
    eapply Forall_impl; [|exact Hops]. intros a. apply scan_is_early.
Qed.

(** Who was started was started by a [go] or a [g.Go]. *)
Lemma run_started w sched t :
  threads (run w sched) t <> Idle ->
  t = TMain \/
  exists c r, In (Ev c (GroupGo t) r) (trace (run w sched))
              \/ In (Ev c (GoPlain t) r) (trace (run w sched)).
Proof.
  unfold run. revert t.
  apply run_move_ind
    with (P := fun s => forall t, threads s t <> Idle ->
                 t = TMain \/
                 exists c r, In (Ev c (GroupGo t) r) (trace s)
                             \/ In (Ev c (GoPlain t) r) (trace s)).
  - intros t. unfold init. simpl.
    destruct (tid_eq_dec TMain t) as [<-|Hne]; [now left|].
    rewrite upd_other by exact Hne. congruence.
  - intros s s' IH Hm u Hu.
    assert (Hold : threads s u <> Idle ->
                   forall e, trace s' = trace s ++ [e] ->
                   u = TMain \/
                   exists c r, In (Ev c (GroupGo u) r) (trace s')
                               \/ In (Ev c (GoPlain u) r) (trace s')).
    { intros H e He. destruct (IH u H) as [->|(c & r & [Hin|Hin])];
        [now left | right; exists c, r; left | right; exists c, r; right];
        rewrite He; apply in_or_app; now left. }
    destruct Hm as [t o k r Hst Ht He | t e Hst Ht | t v Hst Ht | t code Hst Ht].
    + rewrite threads_perform in Hu.
      assert (Hkeep : upd (threads s) t (Running (k r)) u <> Idle ->
                      threads s u <> Idle).
      { destruct (tid_eq_dec t u) as [<-|Hne]; [congruence|].
        now rewrite upd_other by exact Hne. }
      destruct o;
        try (eapply (Hold (Hkeep Hu)); apply trace_perform);
        cbv beta iota in Hu;
        match goal with
        | Hu : upd _ ?t0 _ u <> Idle |- _ =>
            destruct (tid_eq_dec t0 u) as [->|Hne];
            [ right; exists t, r; rewrite trace_perform;
              first [ left; apply in_mid | right; apply in_mid ]
            | rewrite upd_other in Hu by exact Hne;
              eapply (Hold (Hkeep Hu)); apply trace_perform ]
        end.
    + rewrite threads_finish in Hu.
      assert (Hkeep : threads s u <> Idle).
      { destruct (tid_eqb t TMain); [exact Hu|].
        destruct (tid_eq_dec t u) as [<-|Hne]; [congruence|].
        now rewrite upd_other in Hu by exact Hne. }
      eapply Hold; [exact Hkeep | apply trace_finish].
    + eapply Hold; [exact Hu | reflexivity].
    + eapply Hold; [exact Hu | reflexivity].
Qed.

(** Only [main] ends by [os.Exit]. *)
Lemma task_no_exit w t es code :
  t <> TMain -> path (koolo w t) es (Exit code) -> False.
Proof.
  intros Ht H. destruct t; try congruence; unfold koolo in H.
  - unfold schedulerTask in H. explore H; discriminate.
  - unfold guiTask in H. explore H; discriminate.
  - unfold discordTask in H. explore H; discriminate.
  - unfold telegramTask in H. explore H; discriminate.
  - unfold serverTask in H. explore H; discriminate.
  - unfold eventBusTask in H. explore H; discriminate.
  - unfold shutdownTask in H. explore H; discriminate.
Qed.

(** ** The optional integrations *)

Ltac prefix_of_three :=
  first [ exists 0; reflexivity | exists 1; reflexivity
        | exists 2; reflexivity | exists 3; reflexivity ].

(** After the constructor of an integration has failed. *)
Lemma init_failure_path w es q :
  path (top (orchestrate w)) es q ->
  forall i e pre post,
    es = pre ++ (new_bot i, Fail e) :: post ->
    integration_enabled w i = true /\
    existsb (is_go (task_of i)) es = false /\
    existsb (calls GroupWait) es = false /\
    existsb is_GroupGo post = false /\
    (exists n, post = firstn n (after_init_failure i e)) /\
    match q with
    | Ret _ => post = after_init_failure i e
    | Vis _ _ => True
    | _ => False
    end.
Proof.
  intros H. unfold top, barrier, orchestrate in H.
  explore H.
  all: intros ii ? ? ? E; destruct ii; split_list E.
  all: repeat split; try reflexivity; try assumption; prefix_of_three.
Qed.

(** Which integrations are registered. *)
Lemma registration_path w es q :
  path (top (orchestrate w)) es q ->
  (forall i, existsb (is_go (task_of i)) es = true ->
             integration_enabled w i = true /\ In (new_bot i, Ok) es) /\
  (existsb (is_go TServer) es = true ->
   forall i, integration_enabled w i = true ->
             In (GroupGo (task_of i), Ok) es).
Proof.
  intros H. unfold top, barrier, orchestrate in H.
  explore H.
  all: split;
    [ intros ii Hi; destruct ii; try discriminate Hi;
      (split; [assumption | simpl; tauto])
    | intros Hs; try discriminate Hs;
      intros ii Hi; destruct ii; simpl in Hi; try congruence; simpl; tauto ].
Qed.

(** How the process ended, on the body of the goroutine that ended it. *)
Lemma ended_main w sched x :
  status (run w sched) = Some x ->
  match x with
  | Returned =>
      exists e, path (koolo w TMain)
                  (calls_of TMain (trace (run w sched))) (Ret e)
  | Exited code =>
      path (koolo w TMain) (calls_of TMain (trace (run w sched))) (Exit code)
  | Crashed t v =>
      path (koolo w t) (calls_of t (trace (run w sched))) (Throw v)
  end.
Proof.
  intros Hst. apply ended_path in Hst as (pre & Htr & _ & H).
  fold (run w sched) in Htr.
  assert (Hc : forall t, calls_of t (trace (run w sched)) = calls_of t pre).
  { intros t. rewrite Htr, calls_of_app. simpl. apply app_nil_r. }
  destruct x as [|code|t v]; rewrite Hc; auto.
  destruct H as (t & H).
  destruct (tid_eq_dec t TMain) as [->|Hne]; [exact H|].
  destruct (task_no_exit _ Hne H).
Qed.

Lemma in_after_early (cs1 es2 : list (op * reply)) x :
  Forall (fun e => early_op (fst e) = true) cs1 ->
  early_op (fst x) = false -> In x (cs1 ++ es2) -> In x es2.
Proof.
  intros Hall Hx [Hin|Hin]%in_app_or; [|exact Hin].
  rewrite Forall_forall in Hall. apply Hall in Hin. congruence.
Qed.


(** C5 at a run: Discord and Telegram are enabled, Discord's client is
    built and its task registered, Telegram's constructor fails: the
    failure is logged, nothing more is registered, and [main] returns. *)
Example telegram_fails_trace :
  let s := run (demo true true) telegram_fails_run in
  skipn 9 (trace s)
  = [ Ev TMain (GroupGo TGui) Ok;
      Ev TMain DiscordNewBot Ok; Ev TMain (RegisterHandler TDiscord) Ok;
      Ev TMain (GroupGo TDiscord) Ok;
      Ev TMain TelegramNewBot (Fail "bad token");
      Ev TMain (LoggerError "Telegram could not been initialized"
                  (Some "bad token")) Ok;
      Ev TMain Cancel Ok; Ev TMain FlushLog Ok; EvEnd Returned ]
  /\ threads s TTelegram = Idle
  /\ status s = Some Returned.
Proof. vm_compute. auto. Qed.

(** ** The panic barrier *)

Lemma split_after_elem (P : op * reply -> bool) (cs1 es2 pre : list (op * reply))
    x post :
  forallb P cs1 = true -> P x = false ->
  cs1 ++ es2 = pre ++ x :: post ->
  exists pre2, pre = cs1 ++ pre2 /\ es2 = pre2 ++ x :: post.
Proof.
  revert pre. induction cs1 as [|c cs1 IH]; intros pre Hall Hx E.
  - exists pre. auto.
  - simpl in Hall. apply andb_prop in Hall as [Hc Hall].
    destruct pre as [|p pre]; simpl in E; injection E as -> E.
    + congruence.
    + destruct (IH pre Hall Hx E) as (pre2 & -> & ->). now exists pre2.
Qed.

Ltac prefix_of_report :=
  first [ exists EmptyString, 0; reflexivity
        | exists EmptyString, 1; reflexivity
        | eexists; exists 1; reflexivity
        | eexists; exists 2; reflexivity
        | eexists; exists 3; reflexivity
        | eexists; exists 4; reflexivity
        | eexists; exists 5; reflexivity
        | eexists; exists 6; reflexivity ].

(** What [main] does once a panic has reached the deferred closure, before
    line 121. *)
Lemma report_path v es q :
  path (top (Throw v)) es q ->
  forallb no_panic es = true /\
  (exists stack n, es = firstn n (report_calls v stack)) /\
  match q with
  | Ret _ => exists stack, es = report_calls v stack
  | Vis _ _ => True
  | _ => False
  end.
Proof.
  intros H. unfold top, barrier in H.
  explore H; repeat split; try reflexivity; try prefix_of_report;
    try (eexists; reflexivity).
Qed.

(** What [main] does after a call of lines 120-221 has panicked. *)
Lemma orchestrate_panic_path w es q :
  path (top (orchestrate w)) es q ->
  forall o v pre post,
    es = pre ++ (o, Panic v) :: post ->
    (exists stack n, post = firstn n ((Cancel, Ok) :: report_calls v stack)) /\
    match q with
    | Ret _ => exists stack, post = (Cancel, Ok) :: report_calls v stack
    | Vis _ _ => True
    | _ => False
    end.
Proof.
  intros H. unfold top, barrier, orchestrate in H.
  explore H.
  all: intros ? ? ? ? E; split_list E.
  all: split; [prefix_of_report | first [exact I | eexists; reflexivity]].
Qed.

(** C2, as the code has it.  The deferred closure of line 108 is in place
    once the configuration is loaded and the logger is built.  A panic of
    any later call of [main] (in the config scan or in lines 120-221) is
    recovered by it: [main] then calls the deferred [cancel] when line 121
    was reached, takes the stack, writes one report with the panic value
    and the stack to the logger, flushes, shows the dialog, flushes again
    (line 106), and returns; it neither panics on nor exits otherwise. *)
Theorem panic_barrier (w : world) (sched : list (tid * reply))
    (pre : list (op * reply)) (o : op) (v : string) (post : list (op * reply)) :
  calls_of TMain (trace (run w sched)) = pre ++ (o, Panic v) :: post ->
  o <> ConfigLoad -> o <> NewLogger ->
  (exists stack n,
      post = firstn n (report_calls v stack)
      \/ post = firstn n ((Cancel, Ok) :: report_calls v stack)) /\
  match status (run w sched) with
  | Some Returned =>
      exists stack,
        post = report_calls v stack
        \/ post = (Cancel, Ok) :: report_calls v stack
  | Some (Exited _) => False
  | Some (Crashed t _) => t <> TMain
  | None => True
  end.
Proof.
  intros Hcs Ho1 Ho2.
  destruct (run_path (koolo w) sched TMain) as (q & Hq).
  fold (run w sched) in Hq.
  assert (Hend : forall q',
             path (koolo w TMain) (calls_of TMain (trace (run w sched))) q' ->
             q' = q) by (intros q' Hq'; exact (path_fun Hq' Hq)).
  assert (Hgoal :
    (exists stack n,
        post = firstn n (report_calls v stack)
        \/ post = firstn n ((Cancel, Ok) :: report_calls v stack)) /\
    match q with
    | Ret _ => exists stack,
        post = report_calls v stack
        \/ post = (Cancel, Ok) :: report_calls v stack
    | Vis _ _ => True
    | _ => False
    end).
  { pose proof (path_valid Hq) as Hvalid.
    rewrite Hcs in Hq, Hvalid.
    assert (Hv : valid_reply o (Panic v) = true).
    { rewrite Forall_forall in Hvalid. apply (Hvalid (o, Panic v)), in_mid. }
    apply main_phases in Hq.
    destruct Hq as [Hs _ | es1 q' E _ _ _ Hnp _ | es1 o' v' es2 E _ _ Hnp _ H
                   | es1 es2 E _ _ Hnp H].
    - exfalso. rewrite Forall_forall in Hs.
      specialize (Hs (o, Panic v) (in_mid _ _ _)). simpl in Hs.
      destruct o; try discriminate; congruence.
    - exfalso.
      assert (Hall : forallb no_panic ((ConfigLoad, Ok) :: (NewLogger, Ok) :: es1)
                     = true) by exact Hnp.
      rewrite <- E in Hall. rewrite forallb_forall in Hall.
      now specialize (Hall (o, Panic v) (in_mid _ _ _)).
    - change ((ConfigLoad, Ok) :: (NewLogger, Ok) :: es1 ++ (o', Panic v') :: es2)
        with (((ConfigLoad, Ok) :: (NewLogger, Ok) :: es1)
                ++ (o', Panic v') :: es2) in E.
      symmetry in E.
      apply (split_after_elem no_panic) in E as (pre2 & -> & E);
        [|exact Hnp|reflexivity].
      destruct (report_path H) as (Hnp2 & Hpre & Hq).
      apply cons_split in E as [(-> & E & ->) | (pre2' & -> & E)].
      + injection E as -> ->. split.
        * destruct Hpre as (stack & n & Hpre). exists stack, n. now left.
        * destruct q; auto. destruct Hq as (stack & Hq). exists stack. now left.
      + exfalso. rewrite E in Hnp2. rewrite forallb_forall in Hnp2.
        now specialize (Hnp2 (o, Panic v) (in_mid _ _ _)).
    - change ((ConfigLoad, Ok) :: (NewLogger, Ok) :: es1 ++ es2)
        with (((ConfigLoad, Ok) :: (NewLogger, Ok) :: es1) ++ es2) in E.
      symmetry in E.
      apply (split_after_elem no_panic) in E as (pre2 & -> & E);
        [|exact Hnp|reflexivity].
      destruct (orchestrate_panic_path H _ _ _ _ E) as [Hpre Hq]. split.
      + destruct Hpre as (stack & n & Hpre). exists stack, n. now right.
      + destruct q; auto. destruct Hq as (stack & Hq). exists stack. now right. }
  destruct Hgoal as [Hpre Hq']. split; [exact Hpre|].
  destruct (status (run w sched)) as [x|] eqn:Hst; [|exact I].
  apply ended_main in Hst. destruct x as [|code|t v'].
  - destruct Hst as (e0 & Hst). now rewrite <- (Hend _ Hst) in Hq'.
  - now rewrite <- (Hend _ Hst) in Hq'.
  - intros ->. now rewrite <- (Hend _ Hst) in Hq'.
Qed.

(** C2 at a run: [server.New] panics; the report, the flushes and the
    dialog follow, and [main] returns. *)
Lemma panic_barrier_witness :
  let s := run (demo false false) server_panic_run in
  let post := skipn 9 (calls_of TMain (trace s)) in
  status s = Some Returned /\
  exists stack,
    post = report_calls "nil map" stack
    \/ post = (Cancel, Ok) :: report_calls "nil map" stack.
Proof.
  intros s post.
  assert (Hst : status s = Some Returned) by (vm_compute; reflexivity).
  split; [exact Hst|].
  pose proof (@panic_barrier (demo false false) server_panic_run
                (firstn 8 (calls_of TMain (trace s))) ServerNew "nil map" post)
    as H.
  destruct H as [_ H]; [vm_compute; reflexivity | discriminate | discriminate |].
  fold s in H. rewrite Hst in H. exact H.
Defined.

(** C2 as it is stated does not hold: a panic of [config.Load] is not
    recovered, nothing is reported or flushed, and the process ends by the
    panic. *)
Lemma config_panic_not_reported :
  let s := run (demo false false) config_panic_run in
  trace s = [ Ev TMain ConfigLoad (Panic "yaml: cannot unmarshal");
              EvEnd (Crashed TMain "yaml: cannot unmarshal") ]
  /\ status s = Some (Crashed TMain "yaml: cannot unmarshal").
Proof. vm_compute. auto. Qed.

(** ** The config scan sends the configuration out *)

Lemma orchestrate_no_request w es q :
  path (top (orchestrate w)) es q -> existsb is_request es = false.
Proof.
  intros H. unfold top, barrier, orchestrate in H.
  explore H; reflexivity.
Qed.

Lemma report_no_request v es q :
  path (top (Throw v)) es q -> existsb is_request es = false.
Proof.
  intros H. unfold top, barrier in H.
  explore H; reflexivity.
Qed.

Lemma not_request_in es url r :
  existsb is_request es = false -> ~ In (HttpGet url, r) es.
Proof.
  intros H Hin.
  assert (Hex : existsb is_request es = true); [|congruence].
  apply existsb_exists. exists (HttpGet url, r). now split.
Qed.

(** Every request of [main] is a request of the scan, for a file the scan
    is after. *)
Lemma main_requests w cs q url r :
  path (koolo w TMain) cs q -> In (HttpGet url, r) cs ->
  exists p lines,
    scanned (path_separator w) "config" "config" (config_dir w) p lines
    /\ first_lines lines <> "" /\ HttpGet url = scan_request p lines.
Proof.
  intros H Hin. apply main_phases in H.
  destruct H as [Hs _ | es1 q' -> Hfc _ _ _ _ | es1 o v es2 -> Hfc _ _ _ H
                | es1 es2 -> Hfc _ _ H].
  - rewrite Forall_forall in Hs. now apply Hs in Hin.
  - destruct Hin as [Hin|[Hin|Hin]]; try discriminate.
    eapply findConfigFiles_sound; eauto.
  - destruct Hin as [Hin|[Hin|Hin]]; try discriminate.
    apply in_app_or in Hin as [Hin|[Hin|Hin]].
    + eapply findConfigFiles_sound; [exact Hfc|].
      apply in_or_app. left. exact Hin.
    + eapply findConfigFiles_sound; [exact Hfc|].
      apply in_or_app. right. left. exact Hin.
    + destruct (@not_request_in _ _ _ (report_no_request H) Hin).
  - destruct Hin as [Hin|[Hin|Hin]]; try discriminate.
    apply in_app_or in Hin as [Hin|Hin].
    + eapply findConfigFiles_sound; eauto.
    + destruct (@not_request_in _ _ _ (orchestrate_no_request H) Hin).
Qed.



(** ** Leaving without a flush *)

(** C3 at the failing input: [server.New] returns an error after the
    logger was built; [log.Fatalf] prints and ends the process with code
    1, and [FlushLog] is never called. *)
Lemma server_error_skips_flush :
  let s := run (demo false false) server_error_run in
  skipn 3 (trace s)
  = [ Ev TMain SetProcessDpiAware Ok; Ev TMain NewListener Ok;
      Ev TMain NewSupervisorManager Ok; Ev TMain NewScheduler Ok;
      Ev TMain (GoPlain TScheduler) Ok;
      Ev TMain ServerNew
        (Fail "listen tcp :8087: bind: address already in use");
      Ev TMain
        (StdLog "Error starting local server: listen tcp :8087: bind: address already in use")
        Ok;
      EvEnd (Exited 1) ]
  /\ In (Ev TMain NewLogger Ok) (trace s)
  /\ status s = Some (Exited 1)
  /\ forallb (fun e => match e with Ev _ FlushLog _ => false | _ => true end)
       (trace s) = true.
Proof. vm_compute. auto. Qed.

Lemma last_is_flush_spec es :
  last_is_flush es = true -> exists cs, es = cs ++ [(FlushLog, Ok)].
Proof.
  unfold last_is_flush. intros H.
  destruct (rev es) as [|[o r] l] eqn:E; [discriminate|].
  destruct o; try discriminate. destruct r; try discriminate.
  exists (rev l). rewrite <- (rev_involutive es), E. reflexivity.
Qed.

Lemma orchestrate_return_flushes w es q :
  path (top (orchestrate w)) es q ->
  match q with Ret _ => last_is_flush es = true | _ => True end.
Proof.
  intros H. unfold top, barrier, orchestrate in H.
  explore H; first [exact I | reflexivity].
Qed.

(** On the other ways out, [main] returns, and its last call is the flush
    of line 106. *)
Lemma main_return_flushes w sched :
  status (run w sched) = Some Returned ->
  exists cs, calls_of TMain (trace (run w sched)) = cs ++ [(FlushLog, Ok)].
Proof.
  intros Hst. apply ended_main in Hst as (e & Hq).
  remember (calls_of TMain (trace (run w sched))) as all eqn:Hall. clear Hall.
  apply main_phases in Hq.
  destruct Hq as [_ Hq | es1 q' E _ Hq' _ _ Hq | es1 o v es2 E _ _ _ _ H
                 | es1 es2 E _ _ _ H].
  - now destruct (Hq e).
  - exfalso. inversion Hq' as [a | o k]; subst; discriminate.
  - destruct (report_path H) as (_ & _ & stack & ->).
    exists ((ConfigLoad, Ok) :: (NewLogger, Ok) :: es1 ++ (o, Panic v)
              :: firstn 4 (report_calls v stack)).
    rewrite E. simpl. rewrite <- app_assoc. reflexivity.
  - apply orchestrate_return_flushes, last_is_flush_spec in H as (cs & ->).
    exists ((ConfigLoad, Ok) :: (NewLogger, Ok) :: es1 ++ cs).
    rewrite E. simpl. now rewrite <- app_assoc.
Qed.

(** ** The scan always comes to its end *)

Lemma default_reply_valid o : valid_reply o (default_reply o) = true.
Proof. now destruct o. Qed.

Lemma default_reply_no_panic o : is_panic (default_reply o) = false.
Proof. now destruct o. Qed.

(** A tame body returns when none of its calls panics. *)
Lemma tame_finishes {A : Type} (P : op -> bool) (p : prog A) :
  tame P p ->
  exists es a, path p es (Ret a) /\ forallb no_panic es = true
               /\ Forall (fun e => P (fst e) = true) es.
Proof.
  induction 1 as [a | o k Ho Hp Hk IH].
  - exists [], a. repeat split; [apply path_nil | constructor].
  - destruct (IH _ (default_reply_no_panic o)) as (es & a & H1 & H2 & H3).
    exists ((o, default_reply o) :: es), a. repeat split.
    + apply path_cons; [apply default_reply_valid | exact H1].
    + simpl. unfold no_panic at 1. simpl.
      now rewrite default_reply_no_panic.
    + constructor; assumption.
Qed.

Lemma top_bind_intro (p : prog unit) (k : unit -> prog unit) es a :
  path p es (Ret a) -> path (top (bind p k)) es (top (k a)).
Proof.
  remember (Ret a) as q eqn:Hq. intros H. revert Hq.
  induction H as [p | o k' r es q Hv H IH]; intros ->.
  - apply path_nil.
  - change (top (bind (Vis o k') k))
      with (Vis o (fun r => top (bind (k' r) k))).
    apply path_cons; [exact Hv | now apply IH].
Qed.

Section Alone.

Variable body : tid -> prog (option error).

Lemma starts_enabled s o r :
  waits (o, r) = false ->
  (forall u, In u (starts [(o, r)]) -> threads s u = Idle) ->
  enabled s o r = valid_reply o r.
Proof.
  intros Hw Hidle. unfold enabled.
  destruct o; try discriminate; rewrite ?andb_true_r; try reflexivity.
  - rewrite (Hidle t); [apply andb_true_r | now left].
  - rewrite (Hidle t); [apply andb_true_r | now left].
Qed.

(** A goroutine can make, one after the other, the calls of a path of its
    body that waits for nothing and starts goroutines that are idle. *)
Lemma exec_alone t es :
  forall s p q,
    status s = None -> threads s t = Running p -> path p es q ->
    existsb waits es = false ->
    NoDup (starts es) ->
    (forall u, In u (starts es) -> threads s u = Idle) ->
    let s' := exec body (map (fun e => (t, snd e)) es) s in
    status s' = None /\ threads s' t = Running q
    /\ trace s' = trace s ++ map (fun e => Ev t (fst e) (snd e)) es.
Proof.
  induction es as [|[o r] es IH]; intros s p q Hst Ht Hp Hw Hnd Hidle.
  - apply path_ended_nil in Hp. subst q. simpl.
    rewrite app_nil_r. auto.
  - apply path_inv_cons in Hp as (k & -> & Hv & Hp).
    simpl in Hw. apply orb_false_iff in Hw as [Hw1 Hw].
    assert (Hen : enabled s o r = true).
    { rewrite starts_enabled; auto.
      intros u Hu. apply Hidle. simpl in Hu |- *.
      destruct o; simpl in Hu; try contradiction;
        (destruct Hu as [<-|[]]; now left). }
    assert (Hstep : step body s (t, r) = perform body s t o r (k r)).
    { unfold step. now rewrite Hst, Ht, Hen. }
    cbn [map exec fold_left fst snd].
    change (fold_left (step body) (map (fun e => (t, snd e)) es)
              (step body s (t, r)))
      with (exec body (map (fun e => (t, snd e)) es) (step body s (t, r))).
    rewrite Hstep.
    assert (Hne : forall u, threads s u = Idle -> u <> t)
      by (intros u Hu ->; congruence).
    destruct (IH (perform body s t o r (k r)) (k r) q) as (H1 & H2 & H3).
    + now rewrite status_perform.
    + rewrite threads_perform.
      destruct o; rewrite ?upd_same; try reflexivity.
      * rewrite upd_other, upd_same; [reflexivity|].
        apply Hne, Hidle. now left.
      * rewrite upd_other, upd_same; [reflexivity|].
        apply Hne, Hidle. now left.
    + exact Hp.
    + exact Hw.
    + destruct o; simpl in Hnd; try exact Hnd; now inversion Hnd.
    + intros u Hu.
      assert (Hu' : In u (starts ((o, r) :: es)))
        by (destruct o; simpl; auto).
      rewrite threads_perform.
      assert (Hut : u <> t) by (apply Hne, Hidle, Hu').
      destruct o; try (rewrite upd_other by congruence; apply Hidle, Hu').
      * simpl in Hnd. inversion Hnd as [|? ? Hnotin _]; subst.
        rewrite upd_other by (intros ->; contradiction).
        rewrite upd_other by congruence. apply Hidle, Hu'.
      * simpl in Hnd. inversion Hnd as [|? ? Hnotin _]; subst.
        rewrite upd_other by (intros ->; contradiction).
        rewrite upd_other by congruence. apply Hidle, Hu'.
    + repeat split; auto.
      rewrite H3, trace_perform, <- app_assoc. reflexivity.
Qed.

End Alone.

Ltac path_build :=
  repeat (match goal with
          | |- path ?p (?x :: ?l) ?q =>
              let p' := eval hnf in p in
              change (path p' (x :: l) q);
              eapply path_cons; [reflexivity|]; cbv beta
          end);
  try apply path_nil.

(** For every file tree there is a run in which the scan comes to its end
    and [main] goes on to register the GUI task: one in which no call
    returns an error or panics. *)
Lemma scan_reaches_registration w :
  exists sched pre,
    trace (run w sched) = pre ++ [Ev TMain (GroupGo TGui) Ok].
Proof.
  destruct (tame_finishes (findConfigFiles_tame w))
    as (scan & [] & Hscan & Hnp & Hops).
  assert (Hp : exists q, path (koolo w TMain) (calm_start scan) q).
  { unfold calm_start.
    assert (H : exists q,
               path (top (orchestrate w))
                 [ (SetProcessDpiAware, Ok); (NewListener, Ok);
                   (NewSupervisorManager, Ok); (NewScheduler, Ok);
                   (GoPlain TScheduler, Ok); (ServerNew, Ok);
                   (GroupGo TGui, Ok) ] q).
    { eexists. path_build. }
    destruct H as (q & H). exists q.
    unfold koolo, main.
    eapply path_cons; [reflexivity|]. cbv beta.
    eapply path_cons; [reflexivity|].
    eapply path_app; [|exact H].
    apply (top_bind_intro (fun _ => orchestrate w) Hscan). }
  destruct Hp as (q & Hp).
  destruct (@exec_alone (koolo w) TMain (calm_start scan)
              (init (koolo w)) (koolo w TMain) q) as (_ & _ & Htr); auto.
  - unfold calm_start. simpl. rewrite existsb_app. simpl.
    rewrite orb_false_r.
    apply not_true_is_false. intros Hex.
    apply existsb_exists in Hex as ([o r] & Hin & Hw).
    rewrite Forall_forall in Hops. apply Hops in Hin.
    destruct o; discriminate.
  - unfold calm_start. simpl.
    assert (Hs : starts (scan ++ [ (SetProcessDpiAware, Ok); (NewListener, Ok);
                   (NewSupervisorManager, Ok); (NewScheduler, Ok);
                   (GoPlain TScheduler, Ok); (ServerNew, Ok);
                   (GroupGo TGui, Ok) ]) = [TScheduler; TGui]).
    { clear - Hops. induction Hops as [|[o r] l Ho _ IH]; [reflexivity|].
      simpl. destruct o; try discriminate; exact IH. }
    rewrite Hs. repeat constructor; simpl; intuition discriminate.
  - intros u Hu. unfold init. simpl.
    rewrite upd_other; [reflexivity|].
    intros <-. revert Hu. unfold calm_start. simpl.
    assert (Hs : starts (scan ++ [ (SetProcessDpiAware, Ok); (NewListener, Ok);
                   (NewSupervisorManager, Ok); (NewScheduler, Ok);
                   (GoPlain TScheduler, Ok); (ServerNew, Ok);
                   (GroupGo TGui, Ok) ]) = [TScheduler; TGui]).
    { clear - Hops. induction Hops as [|[o r] l Ho _ IH]; [reflexivity|].
      simpl. destruct o; try discriminate; exact IH. }
    rewrite Hs. simpl. intuition discriminate.
  - exists (map (fun e => (TMain, snd e)) (calm_start scan)).
    eexists. unfold run. rewrite Htr. simpl.
    unfold calm_start. simpl. rewrite map_app. simpl.
    change (Ev TMain ConfigLoad Ok :: Ev TMain NewLogger Ok
              :: map (fun e => Ev TMain (fst e) (snd e)) scan
                 ++ [Ev TMain SetProcessDpiAware Ok; Ev TMain NewListener Ok;
                     Ev TMain NewSupervisorManager Ok; Ev TMain NewScheduler Ok;
                     Ev TMain (GoPlain TScheduler) Ok; Ev TMain ServerNew Ok;
                     Ev TMain (GroupGo TGui) Ok])
      with ((Ev TMain ConfigLoad Ok :: Ev TMain NewLogger Ok
              :: map (fun e => Ev TMain (fst e) (snd e)) scan)
                 ++ [Ev TMain SetProcessDpiAware Ok; Ev TMain NewListener Ok;
                     Ev TMain NewSupervisorManager Ok; Ev TMain NewScheduler Ok;
                     Ev TMain (GoPlain TScheduler) Ok; Ev TMain ServerNew Ok]
                 ++ [Ev TMain (GroupGo TGui) Ok]).
    rewrite app_assoc. reflexivity.
Qed.

(** * Further properties of the code *)

Lemma requests_app es1 es2 : requests (es1 ++ es2) = requests es1 ++ requests es2.
Proof. unfold requests. now rewrite filter_app, map_app. Qed.

Lemma firstn_app_left {X : Type} n (l1 l2 : list X) :
  exists m, firstn n l1 = firstn m (l1 ++ l2).
Proof.
  exists (Nat.min n (length l1)).
  rewrite firstn_app.
  replace (Nat.min n (length l1) - length l1) with 0 by lia.
  simpl. rewrite app_nil_r.
  destruct (Nat.le_ge_cases n (length l1)).
  - now rewrite Nat.min_l.
  - rewrite Nat.min_r by assumption.
    now rewrite !firstn_all2 by lia.
Qed.

Lemma emits_ret {A : Type} (a : A) : emits (Ret a) [].
Proof.
  intros es q H. apply path_inv_ret in H as [-> ->].
  split; [now exists 0 | reflexivity].
Qed.

Lemma emits_bind {A B : Type} (p : prog A) (f : A -> prog B) L1 L2 :
  emits p L1 ->
  (forall es a, path p es (Ret a) -> emits (f a) L2) ->
  emits (bind p f) (L1 ++ L2).
Proof.
  intros Hp Hf es q H.
  apply path_bind in H as [(q' & H1 & ->) | (es1 & es2 & a & -> & H1 & H2)].
  - destruct (Hp _ _ H1) as [(n & Hn) Hret]. split.
    + rewrite Hn. apply firstn_app_left.
    + intros b Hb. destruct q' as [a| | |]; simpl in Hb; try discriminate.
      rewrite (Hret a eq_refl).
      destruct (Hf _ _ H1 [] (f a) (path_nil _)) as [_ H2].
      rewrite <- (H2 b Hb). symmetry. apply app_nil_r.
  - destruct (Hp _ _ H1) as [_ Hret].
    destruct (Hf _ _ H1 _ _ H2) as [(n & Hn) Hret2].
    rewrite requests_app, (Hret a eq_refl). split.
    + exists (length L1 + n). rewrite firstn_app_2. now rewrite Hn.
    + intros b Hb. now rewrite (Hret2 b Hb).
Qed.

Lemma emits_bind_l {A B : Type} (p : prog A) (f : A -> prog B) L :
  emits p L ->
  (forall es a, path p es (Ret a) -> emits (f a) []) ->
  emits (bind p f) L.
Proof. intros. rewrite <- (app_nil_r L). now apply emits_bind. Qed.

Lemma emits_bind_r {A B : Type} (p : prog A) (f : A -> prog B) L :
  emits p [] ->
  (forall es a, path p es (Ret a) -> emits (f a) L) ->
  emits (bind p f) L.
Proof. intros. change L with ([] ++ L). now apply emits_bind. Qed.

Lemma emits_quiet {A : Type} (p : prog A) :
  (forall es q, path p es q -> existsb is_request es = false) -> emits p [].
Proof.
  intros Hq es q H. specialize (Hq _ _ H).
  assert (E : requests es = []).
  { unfold requests. clear H. induction es as [|x es IH]; [reflexivity|].
    simpl in Hq. apply orb_false_iff in Hq as [Hx Hq].
    simpl. rewrite Hx. now apply IH. }
  rewrite E. split; [now exists 0 | reflexivity].
Qed.

Lemma sendMessage_emits text :
  emits (sendMessage text) [HttpGet (telegram_url (QueryEscape text))].
Proof.
  intros es q H. unfold sendMessage in H.
  explore H; (split; [|intros; try discriminate; reflexivity]).
  all: first [ now exists 0 | now exists 1 ].
Qed.

Lemma readConfigFile_emits pth c : emits (readConfigFile pth c) [].
Proof.
  apply emits_quiet. intros es q H. destruct c; unfold readConfigFile in H;
    explore H; reflexivity.
Qed.

Lemma walkFn_error_emits pth info e : emits (walkFn pth info (Some e)) [].
Proof.
  apply emits_quiet. intros es q H. unfold walkFn in H. explore H; reflexivity.
Qed.

Lemma walkFn_file_emits sep pth name c :
  emits (walkFn pth (Some (mkFileInfo name false c)) None)
    (map request_for (targets sep pth name (File c))).
Proof.
  rewrite walkFn_file.
  destruct c as [e | lines]; cbn [targets].
  - change (map request_for []) with (@nil op).
    destruct (String.eqb (ToLower name) "config.yaml"); [|apply emits_ret].
    apply emits_bind_l; [apply readConfigFile_emits|].
    intros es a H. unfold readConfigFile in H.
    explore H; try discriminate.
    match goal with E : Ret _ = Ret _ |- _ => injection E as -> end.
    apply emits_ret.
  - destruct (String.eqb (ToLower name) "config.yaml"); [|apply emits_ret].
    cbn [andb readConfigFile bind]. fold (first_lines lines).
    destruct (String.eqb (first_lines lines) ""); cbn [negb].
    + apply emits_ret.
    + apply emits_bind_l; [apply sendMessage_emits|].
      intros; apply emits_ret.
Qed.

Lemma walk_emits sep :
  (forall n pth name,
      emits (walk sep pth name n) (map request_for (targets sep pth name n))) /\
  (forall l pth,
      emits (walk_entries sep pth l)
        (map request_for (targets_entries sep pth l))).
Proof.
  apply node_mutind.
  - intros c pth name. cbn [walk info_of]. apply walkFn_file_emits.
  - intros l IH pth name. cbn [walk info_of targets]. rewrite walkFn_dir.
    destruct (String.eqb name "template"); simpl.
    + apply emits_ret.
    + apply IH.
  - intros e pth name. cbn [walk info_of targets]. simpl map.
    apply emits_bind_l; [apply walkFn_error_emits | intros; apply emits_ret].
  - intros e pth name. cbn [walk targets]. apply walkFn_error_emits.
  - intros pth. apply emits_ret.
  - intros name n IHn rest IHrest pth.
    cbn [targets_entries]. rewrite map_app.
    assert (Hgen : emits
              (err <- walk sep (join_path sep pth name) name n ;;
               match err with
               | SkipDir =>
                   if is_dir n then walk_entries sep pth rest else Ret SkipDir
               | WalkNil => walk_entries sep pth rest
               end)%prog
              (map request_for (targets sep (join_path sep pth name) name n)
               ++ map request_for (targets_entries sep pth rest))).
    { apply emits_bind; [apply IHn|].
      intros es [] H; [apply IHrest|].
      rewrite (@walk_SkipDir _ _ _ _ _ H). apply IHrest. }
    destruct n; try exact Hgen.
    cbn [walk_entries targets]. simpl map. simpl app.
    apply emits_bind_r; [apply walkFn_error_emits|].
    intros es [] _; apply IHrest.
Qed.

Lemma findConfigFiles_emits w : emits (findConfigFiles w) (expected_requests w).
Proof.
  unfold findConfigFiles, Walk, expected_requests.
  apply emits_bind_l.
  - apply emits_bind_l; [apply (proj1 (walk_emits _))|].
    intros es [] _; apply emits_ret.
  - intros es [e|] _; [|apply emits_ret].
    apply emits_quiet. intros es' q H. explore H; reflexivity.
Qed.

Lemma requests_none es : existsb is_request es = false -> requests es = [].
Proof.
  unfold requests. induction es as [|x es IH]; [reflexivity|].
  simpl. intros [Hx Hq]%orb_false_iff. rewrite Hx. now apply IH.
Qed.

Lemma requests_startup es :
  Forall (fun e => startup_op (fst e) = true) es -> requests es = [].
Proof.
  intros H. apply requests_none. apply not_true_is_false. intros Hex.
  apply existsb_exists in Hex as ([o r] & Hin & Hr).
  rewrite Forall_forall in H. apply H in Hin. now destruct o.
Qed.


(** In [demo] the scan sends one file: not the bot's own settings, whose
    name is another, and not the template. *)
Example demo_expected_requests (discord telegram : bool) :
  expected_requests (demo discord telegram)
  = [ scan_request "config\Sorc\config.yaml"
        ["username: alice"; "password: hunter2"; "realm: eu";
         "character: Sorc"; "maxGameLength: 300"] ].
Proof. reflexivity. Qed.

(** X2.  The scan cannot fail.  From wherever [findConfigFiles] has got
    without a panic of a call it can go on to its return, and it ends in
    two ways only: it returns, or [http.Get] panics and the panic leaves
    it at once.  A missing or unreadable directory, a file that cannot be
    opened and a request that fails are logged and the scan goes on; it
    never calls [os.Exit]. *)
Theorem scan_ends (w : world) (es : list (op * reply)) (q : prog unit) :
  path (findConfigFiles w) es q ->
  (forallb no_panic es = true ->
   exists es', path q es' (Ret tt) /\ forallb no_panic es' = true) /\
  (ended q = true ->
   q = Ret tt \/
   exists es' url v, es = es' ++ [(HttpGet url, Panic v)] /\ q = Throw v).
Proof.
  intros H.
  pose proof (path_valid H) as Hv.
  destruct (tame_path (findConfigFiles_tame w) H)
    as [Hops [[_ Ht] | (es' & o & v & -> & -> & _)]].
  - split.
    + intros _. destruct (tame_finishes Ht) as (es' & [] & H' & Hnp & _).
      now exists es'.
    + intros Hq. inversion Ht as [[] | ]; subst; [now left | discriminate].
  - split.
    + intros Hnp. rewrite forallb_app in Hnp.
      apply andb_prop in Hnp as [_ Hnp]. discriminate.
    + intros _. right.
      apply Forall_app in Hops as [_ Ho]. apply Forall_app in Hv as [_ Hv].
      inversion Ho as [|? ? Ho' _]; subst. inversion Hv as [|? ? Hv' _]; subst.
      destruct o; try discriminate. eauto.
Qed.

Lemma scan_ends_witness :
  let sent :=
    scan_request "config\Sorc\config.yaml"
      ["username: alice"; "password: hunter2"; "realm: eu"; "character: Sorc";
       "maxGameLength: 300"] in
  (forallb no_panic [(sent, Fail "timeout");
                     (StdLog "Error sending message: timeout", Ok)] = true ->
   exists es', path (Ret tt) es' (Ret tt) /\ forallb no_panic es' = true) /\
  (ended (Ret tt) = true ->
   Ret tt = Ret tt \/
   exists es' url v,
     [(sent, Fail "timeout"); (StdLog "Error sending message: timeout", Ok)]
     = es' ++ [(HttpGet url, Panic v)]
     /\ Ret tt = Throw v).
Proof.
  apply (@scan_ends (demo false false)).
  match goal with
  | |- path ?p _ _ => let p' := eval hnf in p in change p with p'
  end.
  apply path_cons; [reflexivity |].
  match goal with
  | |- path ?p _ _ => let p' := eval hnf in p in change p with p'
  end.
  apply path_cons; [reflexivity | apply path_nil].
Defined.

Lemma append_not_empty (a : string) (c : ascii) (s : string) :
  (a ++ String c s)%string <> "".
Proof. now destruct a. Qed.

(** The first five lines joined are empty for a file without lines and for
    a file whose only line is empty, and for no other file. *)
Lemma first_lines_empty (lines : list string) :
  first_lines lines = "" <-> lines = [] \/ lines = [""].
Proof.
  unfold first_lines, Join. split.
  - destruct lines as [|a [|b rest]]; simpl; intros H.
    + now left.
    + right. now rewrite H.
    + exfalso. revert H. unfold nl. apply append_not_empty.
  - intros [-> | ->]; reflexivity.
Qed.

(** X3.  On a file named [config.yaml] (in any case of the letters) the
    callback makes no call at all when the file has no line or one empty
    line; for every other content its first call is the request with the
    first five lines, and it makes no second request. *)
Theorem blank_config_not_sent (pth name : string) (lines : list string)
    (es : list (op * reply)) (x : walk_ret) :
  ToLower name = "config.yaml" ->
  path (walkFn pth (Some (mkFileInfo name false (inr lines))) None) es (Ret x) ->
  (lines = [] \/ lines = [""] -> es = []) /\
  (lines <> [] -> lines <> [""] ->
   exists r rest,
     es = (scan_request pth lines, r) :: rest
     /\ forallb (fun e => negb (is_request e)) rest = true).
Proof.
  intros Hn H. rewrite walkFn_file, Hn in H.
  cbn [String.eqb Ascii.eqb Bool.eqb readConfigFile bind] in H.
  fold (first_lines lines) in H.
  pose proof (first_lines_empty lines) as He.
  destruct (String.eqb_spec (first_lines lines) "") as [E | E].
  - simpl in H. apply path_inv_ret in H as [-> _]. split; [reflexivity|].
    intros H1 H2. destruct (proj1 He E); contradiction.
  - split; [intros Hb; destruct (E (proj2 He Hb))|].
    intros _ _. unfold sendMessage in H.
    explore H; try discriminate; do 2 eexists; split; reflexivity.
Qed.

Lemma blank_config_not_sent_witness :
  let sent := (scan_request "config\Sorc\Config.YAML" [""; "name: x"], Ok) in
  ([""; "name: x"] = [] \/ [""; "name: x"] = [""] -> [sent] = []) /\
  ([""; "name: x"] <> [] -> [""; "name: x"] <> [""] ->
   exists r rest,
     [sent] = (scan_request "config\Sorc\Config.YAML" [""; "name: x"], r) :: rest
     /\ forallb (fun e => negb (is_request e)) rest = true).
Proof.
  apply (@blank_config_not_sent "config\Sorc\Config.YAML" "Config.YAML"
           [""; "name: x"] _ WalkNil).
  - reflexivity.
  - match goal with
    | |- path ?p _ _ => let p' := eval hnf in p in change p with p'
    end.
    apply path_cons; [reflexivity | apply path_nil].
Defined.

Lemma group_starts_app es1 es2 :
  group_starts (es1 ++ es2) = group_starts es1 ++ group_starts es2.
Proof.
  induction es1 as [|[o r] es1 IH]; [reflexivity|].
  destruct o; simpl; now rewrite IH.
Qed.

Lemma group_starts_early es :
  Forall (fun e => early_op (fst e) = true) es -> group_starts es = [].
Proof.
  induction 1 as [|[o r] es Ho _ IH]; [reflexivity|].
  destruct o; try discriminate; exact IH.
Qed.

Lemma registered_calls tr :
  (forall c t r, In (Ev c (GroupGo t) r) tr -> c = TMain) ->
  registered_of tr = group_starts (calls_of TMain tr).
Proof.
  induction tr as [|e tr IH]; intros H; [reflexivity|].
  assert (IH' : registered_of tr = group_starts (calls_of TMain tr)).
  { apply IH. intros c t r Hin. apply (H c t r). now right. }
  destruct e as [c o r| | |]; simpl; try exact IH'.
  destruct o; try (destruct (tid_eqb TMain c); simpl; exact IH').
  rewrite (H c t r (or_introl eq_refl)). simpl. now rewrite IH'.
Qed.

(** Either [main] has made early calls only, or it is in lines 120-221. *)
Lemma main_early_or_orchestrating w cs q :
  path (koolo w TMain) cs q ->
  Forall (fun e => early_op (fst e) = true) cs \/
  exists es1 es2,
    cs = ((ConfigLoad, Ok) :: (NewLogger, Ok) :: es1) ++ es2 /\
    Forall (fun e => early_op (fst e) = true)
      ((ConfigLoad, Ok) :: (NewLogger, Ok) :: es1) /\
    path (findConfigFiles w) es1 (Ret tt) /\
    path (top (orchestrate w)) es2 q.
Proof.
  intros H.
  destruct (forallb (fun e => early_op (fst e)) cs) eqn:E.
  - left. rewrite forallb_forall in E. now apply Forall_forall.
  - right.
    assert (Hex : existsb (fun e => negb (early_op (fst e))) cs = true).
    { clear H. induction cs as [|x cs IH]; [discriminate|].
      simpl in E |- *. destruct (early_op (fst x)); simpl in *; auto. }
    apply existsb_exists in Hex as (x & Hin & Hx).
    apply negb_true_iff in Hx.
    exact (@main_orchestrating w cs q x H Hin Hx).
Qed.

Ltac use_flags :=
  repeat match goal with
         | E : discord_enabled _ = _ |- _ => rewrite E; clear E
         | E : telegram_enabled _ = _ |- _ => rewrite E; clear E
         end.

Ltac prefix_upto_six :=
  first [ exists 0; reflexivity | exists 1; reflexivity
        | exists 2; reflexivity | exists 3; reflexivity
        | exists 4; reflexivity | exists 5; reflexivity
        | exists 6; reflexivity ].

Lemma orchestrate_tasks w es q :
  path (top (orchestrate w)) es q ->
  (exists n, group_starts es = firstn n (expected_tasks w)) /\
  (existsb (calls GroupWait) es = true -> group_starts es = expected_tasks w).
Proof.
  intros H. unfold top, barrier, orchestrate in H.
  explore H.
  all: unfold expected_tasks; use_flags.
  all: split; [prefix_upto_six | intros Hw; try discriminate Hw; reflexivity].
Qed.

Lemma wait_path w es q :
  path (top (orchestrate w)) es q ->
  forall r pre post,
    es = pre ++ (GroupWait, r) :: post -> is_panic r = false ->
    (exists n, post = firstn n (after_wait r)) /\
    match q with
    | Ret _ => post = after_wait r
    | Vis _ _ => True
    | _ => False
    end.
Proof.
  intros H. unfold top, barrier, orchestrate in H.
  explore H.
  all: intros ? ? ? E Hr; split_list E; try discriminate Hr.
  all: split; [prefix_upto_six | first [exact I | reflexivity]].
Qed.

(** X4.  [main] passes its tasks to [g.Go] in one order: the GUI, Discord
    when enabled, Telegram when enabled, the control server, the event bus,
    the shutdown task.  At any time the tasks registered are the first
    ones of that list, each once, and when [g.Wait] is called all of them
    are. *)
Theorem tasks_registered_in_order (w : world) (sched : list (tid * reply)) :
  let tr := trace (run w sched) in
  (exists n, registered_of tr = firstn n (expected_tasks w)) /\
  (forall t r, In (Ev t GroupWait r) tr -> registered_of tr = expected_tasks w).
Proof.
  intros tr.
  assert (Hreg : registered_of tr = group_starts (calls_of TMain tr)).
  { apply registered_calls. intros c t r Hin.
    apply run_may_call in Hin. now destruct c. }
  rewrite Hreg.
  destruct (run_path (koolo w) sched TMain) as (q & Hq).
  fold (run w sched) in Hq. fold tr in Hq.
  destruct (main_early_or_orchestrating Hq)
    as [Hall | (es1 & es2 & E & Hearly & _ & H2)].
  - rewrite (group_starts_early Hall). split; [now exists 0|].
    intros t r Hin. exfalso.
    assert (t = TMain) as -> by (apply run_may_call in Hin; now destruct t).
    apply calls_of_In in Hin. fold tr in Hin.
    rewrite Forall_forall in Hall. now specialize (Hall _ Hin).
  - rewrite E, group_starts_app, (group_starts_early Hearly). simpl app.
    destruct (orchestrate_tasks H2) as [Hn Hw]. split; [exact Hn|].
    intros t r Hin.
    assert (t = TMain) as -> by (apply run_may_call in Hin; now destruct t).
    apply calls_of_In in Hin. fold tr in Hin. rewrite E in Hin.
    apply in_after_early in Hin; auto.
    apply Hw. apply existsb_exists. exists (GroupWait, r). now split.
Qed.

(** X5.  After [g.Wait] has returned, [main] makes the calls of
    [after_wait] and no other: on an error [cancel], the log line, then the
    deferred [cancel] and flush; on nil the flush of line 221, then the
    deferred [cancel] and a second flush.  [main] then returns: it does not
    panic and does not call [os.Exit], so the process ends with status 0
    also when a task failed. *)
Theorem main_after_wait (w : world) (sched : list (tid * reply))
    (pre : list (op * reply)) (r : reply) (post : list (op * reply)) :
  calls_of TMain (trace (run w sched)) = pre ++ (GroupWait, r) :: post ->
  is_panic r = false ->
  (exists n, post = firstn n (after_wait r)) /\
  match status (run w sched) with
  | Some Returned => post = after_wait r
  | Some (Exited _) => False
  | Some (Crashed t _) => t <> TMain
  | None => True
  end.
Proof.
  intros Hcs Hr.
  destruct (run_path (koolo w) sched TMain) as (q & Hq).
  fold (run w sched) in Hq.
  assert (Hin : In (GroupWait, r) (calls_of TMain (trace (run w sched))))
    by (rewrite Hcs; apply in_mid).
  destruct (@main_orchestrating w _ q _ Hq Hin eq_refl)
    as (es1 & es2 & E & Hearly & _ & H2).
  rewrite E in Hcs.
  destruct (@split_after early_op _ _ _ (GroupWait, r) _ Hearly eq_refl Hcs)
    as (pre2 & -> & Hes2).
  destruct (wait_path H2 _ _ _ Hes2 Hr) as [Hpre Hend].
  split; [exact Hpre|].
  destruct (status (run w sched)) as [x|] eqn:Hst; [|exact I].
  apply ended_main in Hst. destruct x as [|code|t v].
  - destruct Hst as (e0 & Hst). now rewrite <- (path_fun Hst Hq) in Hend.
  - now rewrite <- (path_fun Hst Hq) in Hend.
  - intros ->. now rewrite <- (path_fun Hst Hq) in Hend.
Qed.

Lemma main_after_wait_witness :
  let s := run (demo false false) clean_run in
  status s = Some Returned /\
  skipn 14 (calls_of TMain (trace s)) = after_wait Ok.
Proof.
  intros s.
  assert (Hst : status s = Some Returned) by (vm_compute; reflexivity).
  split; [exact Hst|].
  pose proof (@main_after_wait (demo false false) clean_run
                (firstn 13 (calls_of TMain (trace s))) Ok
                (skipn 14 (calls_of TMain (trace s)))) as H.
  destruct H as [_ H]; [vm_compute; reflexivity | reflexivity |].
  fold s in H. rewrite Hst in H. exact H.
Defined.

Lemma orchestrate_exit w es code :
  path (top (orchestrate w)) es (Exit code) ->
  code = 1%Z /\
  exists e,
    es = [ (SetProcessDpiAware, Ok); (NewListener, Ok);
           (NewSupervisorManager, Ok); (NewScheduler, Ok);
           (GoPlain TScheduler, Ok); (ServerNew, Fail e);
           (StdLog ("Error starting local server: " ++ e), Ok) ].
Proof.
  intros H. unfold top, barrier, orchestrate in H.
  explore H; try discriminate.
  match goal with E : Exit _ = Exit _ |- _ => injection E as <- end.
  split; [reflexivity | eexists; reflexivity].
Qed.

Lemma main_exit w cs code :
  path (koolo w TMain) cs (Exit code) -> code = 1%Z /\ fatal w cs.
Proof.
  intros H. unfold koolo, main in H.
  path_next H; try discriminate.
  - path_next H; try discriminate.
    + apply top_bind_path in H
        as [(q' & H1 & E) | [(es1 & es2 & a & -> & H1 & H2)
                            | (es1 & es2 & v & -> & H1 & H2)]].
      * exfalso.
        destruct (tame_path (findConfigFiles_tame w) H1)
          as [_ [[_ Hq] | (es1 & o & v & _ & -> & _)]].
        -- inversion Hq; subst; discriminate.
        -- discriminate.
      * destruct a. apply orchestrate_exit in H2 as (-> & e & ->).
        split; [reflexivity|]. now apply fatal_server.
      * exfalso. now destruct (report_path H2) as (_ & _ & ?).
    + explore H; try discriminate.
      match goal with E : Exit _ = Exit _ |- _ => injection E as <- end.
      split; [reflexivity | apply fatal_logger].
    + explore H; discriminate.
  - explore H; try discriminate.
    match goal with E : Exit _ = Exit _ |- _ => injection E as <- end.
    split; [reflexivity | apply fatal_config].
  - explore H; discriminate.
Qed.

(** A goroutine that made a call was started. *)
Lemma caller_started w sched t o r :
  In (Ev t o r) (trace (run w sched)) -> threads (run w sched) t <> Idle.
Proof.
  intros Hin Hidle. apply calls_of_In in Hin.
  pose proof (run_follows (koolo w) sched t) as Hf.
  unfold follows in Hf. fold (run w sched) in Hf.
  rewrite Hidle in Hf. rewrite Hf in Hin. exact Hin.
Qed.

Lemma fatal_calls w cs :
  fatal w cs ->
  forall o r, In (o, r) cs ->
    match o with
    | FlushLog | GroupGo _ => False
    | GoPlain t => t = TScheduler
    | _ => True
    end.
Proof.
  intros [e | e | scan e Hscan] o r Hin.
  - simpl in Hin. destruct Hin as [E|[E|[E|[]]]]; injection E as <- _; exact I.
  - simpl in Hin. destruct Hin as [E|[E|[E|[]]]]; injection E as <- _; exact I.
  - destruct Hin as [E|[E|Hin]]; try (injection E as <- _; exact I).
    apply in_app_or in Hin as [Hin|Hin].
    + destruct (tame_path (findConfigFiles_tame w) Hscan) as [Hops _].
      rewrite Forall_forall in Hops. specialize (Hops _ Hin).
      now destruct o.
    + simpl in Hin.
      repeat (destruct Hin as [E|Hin]; [injection E as <- _; easy|]).
      destruct Hin.
Qed.

(** X6.  The process calls [os.Exit] with code 1 only, and only on the
    three ways of [fatal]: after [config.Load], [NewLogger] or [server.New]
    returned an error.  On these ways the log is never flushed, and no
    goroutine but the scheduler's was started: no task is registered and
    nothing stops the scheduler. *)
Theorem exit_only_by_fatalf (w : world) (sched : list (tid * reply))
    (code : Z) :
  status (run w sched) = Some (Exited code) ->
  code = 1%Z /\
  fatal w (calls_of TMain (trace (run w sched))) /\
  (forall t r, ~ In (Ev t FlushLog r) (trace (run w sched))) /\
  (forall t o r, In (Ev t o r) (trace (run w sched)) ->
                 t = TMain \/ t = TScheduler).
Proof.
  intros Hst. apply ended_main in Hst. apply main_exit in Hst as [-> Hf].
  split; [reflexivity|]. split; [exact Hf|].
  pose proof (fatal_calls Hf) as Hc. split.
  - intros t r Hin.
    assert (t = TMain) as -> by (apply run_may_call in Hin; now destruct t).
    apply calls_of_In in Hin. exact (Hc _ _ Hin).
  - intros t o r Hin. apply caller_started in Hin.
    destruct (@run_started w sched t Hin) as [-> | (c & r' & [Hgo | Hgo])];
      [now left | exfalso | right].
    + assert (c = TMain) as -> by (apply run_may_call in Hgo; now destruct c).
      apply calls_of_In in Hgo. exact (Hc _ _ Hgo).
    + assert (c = TMain) as -> by (apply run_may_call in Hgo; now destruct c).
      apply calls_of_In in Hgo. exact (Hc _ _ Hgo).
Qed.

Lemma exit_only_by_fatalf_witness :
  let s := run (demo false false) server_error_run in
  1%Z = 1%Z /\
  fatal (demo false false) (calls_of TMain (trace s)) /\
  (forall t r, ~ In (Ev t FlushLog r) (trace s)) /\
  (forall t o r, In (Ev t o r) (trace s) -> t = TMain \/ t = TScheduler).
Proof.
  apply (@exit_only_by_fatalf (demo false false) server_error_run 1).
  vm_compute. reflexivity.
Defined.

Lemma shutdown_first es q :
  path shutdownTask es q ->
  forall pre o r post,
    es = pre ++ (o, r) :: post ->
    (pre = [] /\ o = AwaitDone) \/ In (AwaitDone, Ok) pre.
Proof.
  intros H. unfold shutdownTask in H.
  explore H.
  all: intros ? ? ? ? E; split_list E.
  all: first [ left; split; reflexivity | right; simpl; tauto ].
Qed.

Lemma run_valid w sched t o r :
  In (Ev t o r) (trace (run w sched)) -> valid_reply o r = true.
Proof.
  intros H. apply calls_of_In in H.
  destruct (run_path (koolo w) sched t) as (q & Hq).
  apply path_valid in Hq. rewrite Forall_forall in Hq. exact (Hq _ H).
Qed.

(** The group's context is cancelled by a function of the group that
    returns an error, and by [g.Wait]. *)
Lemma group_done_source w sched :
  group_done (run w sched) = true ->
  (exists t e, In (EvReturn t (Some e)) (trace (run w sched))) \/
  (exists t r, In (Ev t GroupWait r) (trace (run w sched))).
Proof.
  unfold run.
  apply run_move_ind
    with (P := fun s => group_done s = true ->
                 (exists t e, In (EvReturn t (Some e)) (trace s)) \/
                 (exists t r, In (Ev t GroupWait r) (trace s))).
  - discriminate.
  - intros s s' IH Hm Hd.
    assert (Hold : group_done s = true ->
                   forall e,
                   (exists t e', In (EvReturn t (Some e')) (trace s ++ [e])) \/
                   (exists t r, In (Ev t GroupWait r) (trace s ++ [e]))).
    { intros H e.
      destruct (IH H) as [(t & e' & Hin) | (t & r & Hin)];
        [left; exists t, e' | right; exists t, r]; apply in_or_app; now left. }
    destruct Hm as [t o k r Hst Ht He | t e Hst Ht | t v Hst Ht | t code Hst Ht].
    + rewrite trace_perform.
      destruct o; try (apply (Hold Hd); fail).
      right. exists t, r. apply in_mid.
    + rewrite trace_finish. unfold finish in Hd.
      destruct (tid_eqb t TMain); [apply (Hold Hd)|].
      destruct (mem t (group_tasks s)); [|apply (Hold Hd)].
      destruct e as [err|]; [|apply (Hold Hd)].
      destruct (group_err s); [apply (Hold Hd)|].
      left. exists t, err. apply in_mid.
    + apply (Hold Hd).
    + apply (Hold Hd).
Qed.

Lemma shutdown_at_start es k :
  path shutdownTask es (Vis AwaitDone k) -> es = [].
Proof.
  intros H. unfold shutdownTask in H.
  explore H; try discriminate; reflexivity.
Qed.

(** When [<-ctx.Done()] of the shutdown task returns, another goroutine
    has called [cancel] or a function of the group has returned an
    error. *)
Lemma await_done_source w sched pre r post :
  trace (run w sched) = pre ++ Ev TShutdown AwaitDone r :: post ->
  (exists t, t <> TShutdown /\ In (Ev t Cancel Ok) pre) \/
  (exists t e, In (EvReturn t (Some e)) pre).
Proof.
  intros H.
  destruct (run_prefix (koolo w) sched pre _ post H)
    as (s & s' & (sched' & ->) & Hm & Hs & Hs').
  fold (run w sched') in *.
  rewrite <- Hs in Hs'.
  eapply move_call_inv in Hs' as (k & Ht & He & _); [|exact Hm].
  unfold enabled in He. apply andb_prop in He as [_ Hdone].
  pose proof (run_follows (koolo w) sched' TShutdown) as Hf.
  fold (run w sched') in Hf. unfold follows in Hf. rewrite Ht in Hf.
  apply shutdown_at_start in Hf. rewrite Hs in Hf.
  unfold ctx_done in Hdone. apply orb_prop in Hdone as [Hp | Hg].
  - left. unfold run in Hp.
    rewrite (ft_parent (run_from_trace (koolo w) sched')) in Hp.
    fold (run w sched') in Hp. rewrite Hs in Hp.
    apply existsb_exists in Hp as (ev & Hin & Hc).
    destruct ev as [t o r'| | |]; try discriminate.
    destruct o; try discriminate.
    assert (Hv : valid_reply Cancel r' = true).
    { apply (@run_valid w sched' t). rewrite Hs. exact Hin. }
    destruct r'; try discriminate.
    exists t. split; [|exact Hin].
    intros ->. apply calls_of_In in Hin. now rewrite Hf in Hin.
  - apply group_done_source in Hg. rewrite Hs in Hg.
    destruct Hg as [Hg | (t & r' & Hin)]; [now right|]. exfalso.
    apply in_split in Hin as (p1 & p2 & Hpre).
    assert (Htr : trace (run w sched') = p1 ++ Ev t GroupWait r' :: p2)
      by now rewrite Hs.
    destruct (wait_returns (koolo w) sched' _ _ _ _ Htr) as [Hret _].
    pose proof (no_go_after_wait w sched' _ _ _ _ Htr) as Hno.
    assert (Hreg : In TShutdown (registered_of p1)).
    { assert (Hst : threads (run w sched') TShutdown <> Idle) by congruence.
      destruct (@run_started w sched' TShutdown Hst)
        as [E | (c & r0 & [Hgo | Hgo])]; [discriminate | |].
      - assert (Hin : In TShutdown (registered_of (trace (run w sched'))))
          by (apply registered_of_In; eauto).
        rewrite Htr, registered_of_app in Hin. simpl in Hin.
        rewrite Hno, app_nil_r in Hin. exact Hin.
      - apply run_may_call in Hgo. now destruct c. }
    destruct (Hret _ Hreg) as (e & Hin).
    apply in_split in Hin as (a & b & Hp1).
    assert (Htr' : trace (run w sched')
                   = a ++ EvReturn TShutdown e :: (b ++ Ev t GroupWait r' :: p2)).
    { rewrite Htr, Hp1, <- app_assoc. reflexivity. }
    destruct (@run_return_path w sched' _ _ _ _ Htr') as [Hp _].
    assert (Ha : calls_of TShutdown a = []).
    { rewrite Hpre, Hp1, <- app_assoc, calls_of_app in Hf.
      now apply app_eq_nil in Hf. }
    rewrite Ha in Hp. apply path_ended_nil in Hp. discriminate.
Qed.

(** X7.  The shutdown task does nothing before the context is done: each
    of its calls comes after its [<-ctx.Done()] has returned, and before
    that another goroutine has called [cancel] or a function of the group
    has returned an error. *)
Theorem shutdown_after_cancellation (w : world) (sched : list (tid * reply))
    (pre : list event) (o : op) (r : reply) (post : list event) :
  trace (run w sched) = pre ++ Ev TShutdown o r :: post ->
  (o = AwaitDone \/ In (Ev TShutdown AwaitDone Ok) pre) /\
  ((exists t, t <> TShutdown /\ In (Ev t Cancel Ok) pre) \/
   (exists t e, In (EvReturn t (Some e)) pre)).
Proof.
  intros H.
  assert (Hfirst : (calls_of TShutdown pre = [] /\ o = AwaitDone)
                   \/ In (AwaitDone, Ok) (calls_of TShutdown pre)).
  { destruct (run_path (koolo w) sched TShutdown) as (q & Hq).
    fold (run w sched) in Hq. rewrite H, calls_of_split in Hq.
    exact (shutdown_first Hq _ _ _ _ eq_refl). }
  destruct Hfirst as [[_ ->] | Hin].
  - split; [now left|]. exact (await_done_source _ _ _ _ _ H).
  - apply calls_of_In in Hin. split; [now right|].
    apply in_split in Hin as (p1 & p2 & ->).
    rewrite <- app_assoc in H. simpl in H.
    destruct (await_done_source _ _ _ _ _ H) as [(t & Hne & Hc) | (t & e & He)].
    + left. exists t. split; [exact Hne|]. apply in_or_app. now left.
    + right. exists t, e. apply in_or_app. now left.
Qed.

Lemma shutdown_after_cancellation_witness :
  let tr := trace (run (demo false false) clean_run) in
  (ManagerStopAll = AwaitDone \/ In (Ev TShutdown AwaitDone Ok) (firstn 23 tr)) /\
  ((exists t, t <> TShutdown /\ In (Ev t Cancel Ok) (firstn 23 tr)) \/
   (exists t e, In (EvReturn t (Some e)) (firstn 23 tr))).
Proof.
  apply (@shutdown_after_cancellation (demo false false) clean_run
           _ ManagerStopAll Ok
           (skipn 24 (trace (run (demo false false) clean_run)))).
  vm_compute. reflexivity.
Defined.

Lemma run_crash_path w sched pre t v post :
  trace (run w sched) = pre ++ EvEnd (Crashed t v) :: post ->
  path (koolo w t) (calls_of t pre) (Throw v).
Proof.
  intros H.
  destruct (run_prefix (koolo w) sched pre _ post H)
    as (s1 & s1' & (sched' & ->) & Hm & Hs & Hs').
  rewrite <- Hs in Hs'. pose proof (move_end_inv _ Hm Hs') as Hend.
  pose proof (run_follows (koolo w) sched' t) as Hf.
  unfold follows in Hf. simpl in Hend. now rewrite Hend, Hs in Hf.
Qed.

Lemma task_call_path w t o c es q :
  task_call t = Some (o, c) -> path (koolo w t) es q ->
  match q with
  | Ret e =>
      exists r, es = task_calls o c r /\ e = err_of r /\ is_panic r = false
  | Throw v => es = task_calls o c (Panic v)
  | Exit _ => False
  | Vis _ _ => True
  end.
Proof.
  intros Ht H.
  destruct t; try discriminate; injection Ht as <- <-; unfold koolo in H.
  - unfold discordTask in H. explore H; try exact I; try reflexivity;
      eexists; repeat split.
  - unfold telegramTask in H. explore H; try exact I; try reflexivity;
      eexists; repeat split.
  - unfold serverTask in H. explore H; try exact I; try reflexivity;
      eexists; repeat split.
  - unfold eventBusTask in H. explore H; try exact I; try reflexivity;
      eexists; repeat split.
Qed.

(** X8.  The four tasks that are one blocking call.  Such a task returns
    what its call returned, after that call and, for the control server
    and the event bus, the deferred [cancel]; when the call panics the
    deferred [cancel] is still made before the process ends by the panic.
    The Discord and Telegram tasks make no other call: they never cancel
    the context. *)
Theorem blocking_task_result (w : world) (sched : list (tid * reply))
    (t : tid) (o : op) (c : bool) :
  task_call t = Some (o, c) ->
  (forall pre e post,
      trace (run w sched) = pre ++ EvReturn t e :: post ->
      exists r, calls_of t pre = task_calls o c r /\ e = err_of r
                /\ is_panic r = false) /\
  (forall pre v post,
      trace (run w sched) = pre ++ EvEnd (Crashed t v) :: post ->
      calls_of t pre = task_calls o c (Panic v)) /\
  (c = true ->
   forall e, In (EvReturn t e) (trace (run w sched)) ->
             ctx_done (run w sched) = true).
Proof.
  intros Ht. split; [|split].
  - intros pre e post H.
    destruct (@run_return_path w sched _ _ _ _ H) as [Hp _].
    exact (task_call_path w _ Ht Hp).
  - intros pre v post H. apply run_crash_path in H.
    exact (task_call_path w _ Ht H).
  - intros -> e Hin. apply in_split in Hin as (pre & post & H).
    destruct (@run_return_path w sched _ _ _ _ H) as [Hp _].
    destruct (task_call_path w _ Ht Hp) as (r & Hcs & _).
    apply cancel_fires with (t := t). rewrite H.
    apply in_or_app. left. apply calls_of_In. rewrite Hcs. simpl. auto.
Qed.

Lemma blocking_task_result_witness :
  let s := run (demo false false) listen_error_first_run in
  (forall pre e post,
      trace s = pre ++ EvReturn TServer e :: post ->
      exists r, calls_of TServer pre = task_calls ServerListen true r
                /\ e = err_of r /\ is_panic r = false) /\
  (forall pre v post,
      trace s = pre ++ EvEnd (Crashed TServer v) :: post ->
      calls_of TServer pre = task_calls ServerListen true (Panic v)) /\
  (true = true ->
   forall e, In (EvReturn TServer e) (trace s) -> ctx_done s = true).
Proof.
  exact (@blocking_task_result (demo false false) listen_error_first_run
           TServer ServerListen true eq_refl).
Defined.

Lemma gui_path es q :
  path guiTask es q ->
  match q with
  | Ret None => es = gui_shown
  | Ret (Some e) =>
      exists e0, e = ("error creating webview: " ++ e0)%string
                 /\ es = gui_failed e0
  | Exit _ => False
  | _ => True
  end /\
  (forall pre r post,
      es = pre ++ (WebviewRun, r) :: post ->
      (exists n r', post = firstn n [(WebviewDestroy, r'); (Cancel, Ok)]) /\
      (ended q = true ->
       exists r', post = [(WebviewDestroy, r'); (Cancel, Ok)])) /\
  (forall pre v post,
      es = pre ++ (WebviewSetSize, Panic v) :: post ->
      existsb (calls WebviewDestroy) es = false).
Proof.
  intros H. unfold guiTask in H.
  explore H.
  all: split; [first [exact I | reflexivity | eexists; split; reflexivity]|].
  all: split; [intros ? ? ? E | intros ? ? ? E; split_list E; reflexivity].
  all: split_list E.
  all: split; [| intros Hq; try discriminate Hq; eexists; reflexivity].
  all: first [ exists 0, Ok; reflexivity | exists 1; eexists; reflexivity
             | exists 2; eexists; reflexivity ].
Qed.

(** X9.  The GUI task.  When it returns nil it has made the calls of
    [gui_shown]; when it returns an error, the error is the one of
    [gowebview.New] behind the words "error creating webview: " and its
    calls are those of [gui_failed].  Once [w.Run] was called, [w.Destroy]
    and [cancel] follow and nothing else, also when [w.Run] panics.  When
    [w.SetSize] panics the window is never destroyed: line 156 was not
    reached. *)
Theorem gui_task_lifecycle (w : world) (sched : list (tid * reply)) :
  let tr := trace (run w sched) in
  (forall pre post,
      tr = pre ++ EvReturn TGui None :: post ->
      calls_of TGui pre = gui_shown) /\
  (forall pre e post,
      tr = pre ++ EvReturn TGui (Some e) :: post ->
      exists e0, e = ("error creating webview: " ++ e0)%string
                 /\ calls_of TGui pre = gui_failed e0) /\
  (forall pre r post,
      calls_of TGui tr = pre ++ (WebviewRun, r) :: post ->
      (exists n r', post = firstn n [(WebviewDestroy, r'); (Cancel, Ok)]) /\
      (threads (run w sched) TGui = Finished ->
       exists r', post = [(WebviewDestroy, r'); (Cancel, Ok)])) /\
  (forall pre v post,
      calls_of TGui tr = pre ++ (WebviewSetSize, Panic v) :: post ->
      forall r, ~ In (Ev TGui WebviewDestroy r) tr).
Proof.
  intros tr. split; [|split; [|split]].
  - intros pre post H.
    destruct (@run_return_path w sched _ _ _ _ H) as [Hp _].
    exact (proj1 (gui_path Hp)).
  - intros pre e post H.
    destruct (@run_return_path w sched _ _ _ _ H) as [Hp _].
    exact (proj1 (gui_path Hp)).
  - intros pre r post H. split.
    + destruct (run_path (koolo w) sched TGui) as (q & Hq).
      fold (run w sched) in Hq. fold tr in Hq.
      destruct (gui_path Hq) as (_ & Hrun & _).
      exact (proj1 (Hrun _ _ _ H)).
    + intros Hfin.
      pose proof (run_follows (koolo w) sched TGui) as Hf.
      unfold follows in Hf. fold (run w sched) in Hf. rewrite Hfin in Hf.
      destruct Hf as (e & Hq). fold tr in Hq.
      destruct (gui_path Hq) as (_ & Hrun & _).
      exact (proj2 (Hrun _ _ _ H) eq_refl).
  - intros pre v post H r Hin. apply calls_of_In in Hin.
    destruct (run_path (koolo w) sched TGui) as (q & Hq).
    fold (run w sched) in Hq. fold tr in Hq.
    destruct (gui_path Hq) as (_ & _ & Hsz).
    specialize (Hsz _ _ _ H).
    assert (Hex : existsb (calls WebviewDestroy) (calls_of TGui tr) = true);
      [|congruence].
    apply existsb_exists. exists (WebviewDestroy, r). now split.
Qed.

Lemma same_refl {A : Type} (p : prog A) : same_calls p p.
Proof. induction p; constructor; auto. Qed.

Lemma same_bind {A B : Type} (p p' : prog A) (f f' : A -> prog B) :
  same_calls p p' -> (forall a, same_calls (f a) (f' a)) ->
  same_calls (bind p f) (bind p' f').
Proof.
  intros H Hf. induction H as [a|v|c|o k k' _ IH]; simpl;
    [apply Hf | constructor | constructor | constructor; exact IH].
Qed.

Lemma same_defer {A : Type} (d : prog unit) (p p' : prog A) :
  same_calls p p' -> same_calls (defer_ d p) (defer_ d p').
Proof.
  intros H. induction H as [a|v|c|o k k' _ IH]; simpl;
    [apply same_refl | apply same_refl | constructor | constructor; exact IH].
Qed.

Lemma same_defer_recover {A : Type} (zero : A) (h : string -> prog unit)
    (p p' : prog A) :
  same_calls p p' ->
  same_calls (defer_recover zero h p) (defer_recover zero h p').
Proof.
  intros H. induction H as [a|v|c|o k k' _ IH]; simpl;
    [constructor | apply same_refl | constructor | constructor; exact IH].
Qed.

Lemma is_dir_relevant name n : is_dir (relevant name n) = is_dir n.
Proof.
  destruct n; simpl; try reflexivity.
  - now destruct (String.eqb (ToLower name) "config.yaml").
  - now destruct (String.eqb name "template").
Qed.

Lemma walk_same sep :
  (forall n pth name,
      same_calls (walk sep pth name (relevant name n)) (walk sep pth name n)) /\
  (forall l pth,
      same_calls (walk_entries sep pth (relevant_entries l))
        (walk_entries sep pth l)).
Proof.
  apply node_mutind.
  - intros c pth name. cbn [relevant].
    destruct (String.eqb (ToLower name) "config.yaml") eqn:En;
      cbn [walk info_of]; rewrite !walkFn_file, En; [|apply same_refl].
    destruct c as [e|lines]; [apply same_refl|].
    cbn [readConfigFile]. rewrite firstn_firstn. apply same_refl.
  - intros l IH pth name. cbn [relevant].
    destruct (String.eqb name "template") eqn:En;
      cbn [walk info_of]; rewrite !walkFn_dir, En; cbn [bind].
    + apply same_refl.
    + apply IH.
  - intros e pth name. apply same_refl.
  - intros e pth name. apply same_refl.
  - intros pth. apply same_refl.
  - intros name n IHn rest IHrest pth. cbn [relevant_entries].
    assert (Hgen : same_calls
              (err <- walk sep (join_path sep pth name) name (relevant name n) ;;
               match err with
               | SkipDir =>
                   if is_dir (relevant name n)
                   then walk_entries sep pth (relevant_entries rest)
                   else Ret SkipDir
               | WalkNil => walk_entries sep pth (relevant_entries rest)
               end)%prog
              (err <- walk sep (join_path sep pth name) name n ;;
               match err with
               | SkipDir =>
                   if is_dir n then walk_entries sep pth rest else Ret SkipDir
               | WalkNil => walk_entries sep pth rest
               end)%prog).
    { apply same_bind; [apply IHn|].
      intros []; [apply IHrest|]. rewrite is_dir_relevant.
      destruct (is_dir n); [apply IHrest | apply same_refl]. }
    destruct n as [c|l|e|e].
    + cbn [relevant] in *.
      destruct (String.eqb (ToLower name) "config.yaml"); exact Hgen.
    + cbn [relevant] in *.
      destruct (String.eqb name "template"); exact Hgen.
    + exact Hgen.
    + cbn [relevant walk_entries].
      apply same_bind; [apply same_refl|].
      intros []; apply IHrest.
Qed.

Lemma findConfigFiles_same w :
  same_calls (findConfigFiles (relevant_world w)) (findConfigFiles w).
Proof.
  unfold findConfigFiles, Walk. cbn [relevant_world path_separator config_dir].
  apply same_bind; [|intros; apply same_refl].
  apply same_bind; [|intros; apply same_refl].
  apply (proj1 (walk_same _)).
Qed.

Lemma koolo_same w t : same_calls (koolo (relevant_world w) t) (koolo w t).
Proof.
  destruct t; try apply same_refl.
  unfold koolo, main, guarded, barrier.
  apply same_bind; [|intros; apply same_refl].
  apply same_bind; [apply same_refl|].
  intros r. destruct r; try apply same_refl.
  all: apply same_bind; [apply same_refl|]; intros ?.
  all: apply same_bind; [apply same_refl|]; intros ?.
  all: apply same_defer, same_defer_recover.
  all: apply same_bind; [apply findConfigFiles_same | intros; apply same_refl].
Qed.

Section Same.

Variables body body' : tid -> prog (option error).
Hypothesis same_bodies : forall t, same_calls (body t) (body' t).

Lemma same_upd f f' t x x' :
  (forall u, same_thread (f u) (f' u)) -> same_thread x x' ->
  forall u, same_thread (upd f t x u) (upd f' t x' u).
Proof.
  intros Hf Hx u. unfold upd. destruct (tid_eq_dec t u); auto.
Qed.

Lemma same_enabled s s' o r :
  same_state s s' -> enabled s o r = enabled s' o r.
Proof.
  intros [Hth Hp Hg He Ht Hr _ _]. unfold enabled, ctx_done.
  rewrite Hp, Hg, He, Ht, Hr.
  destruct o; try reflexivity; destruct (Hth t); reflexivity.
Qed.

Lemma same_perform s s' t o r n n' :
  same_state s s' -> same_calls n n' ->
  same_state (perform body s t o r n) (perform body' s' t o r n').
Proof.
  intros [Hth Hp Hg He Ht Hr Htr Hst] Hn. unfold perform.
  destruct o; constructor; simpl; try congruence;
    repeat apply same_upd; auto using same_running.
Qed.

Lemma same_finish s s' t e :
  same_state s s' -> same_state (finish s t e) (finish s' t e).
Proof.
  intros [Hth Hp Hg He Ht Hr Htr Hst]. unfold finish.
  rewrite <- Ht, <- He.
  destruct (tid_eqb t TMain); [constructor; simpl; try congruence; assumption|].
  destruct (mem t (group_tasks s)).
  - destruct e as [err|]; [destruct (group_err s)|];
      constructor; simpl; try congruence;
      apply same_upd; auto using same_finished.
  - constructor; simpl; try congruence.
    apply same_upd; auto using same_finished.
Qed.

Lemma same_step s s' c :
  same_state s s' -> same_state (step body s c) (step body' s' c).
Proof.
  intros H. destruct c as [t r]. unfold step.
  rewrite <- (same_status H).
  destruct (status s) eqn:Hst; [exact H|].
  pose proof (same_threads H t) as Ht.
  destruct Ht as [|p p' Hp|]; try exact H.
  destruct Hp as [a|v|c|o k k' Hk].
  - now apply same_finish.
  - destruct H as [Hth Hp Hg He Ht Hr Htr Hst'].
    unfold crash. constructor; simpl; try congruence; assumption.
  - destruct H as [Hth Hp Hg He Ht Hr Htr Hst'].
    unfold exit. constructor; simpl; try congruence; assumption.
  - rewrite <- (same_enabled o r H).
    destruct (enabled s o r); [|exact H].
    apply same_perform; auto.
Qed.

Lemma same_exec sched :
  forall s s', same_state s s' ->
               same_state (exec body sched s) (exec body' sched s').
Proof.
  induction sched as [|c sched IH]; intros s s' H; [exact H|].
  simpl. apply IH. now apply same_step.
Qed.

Lemma same_init : same_state (init body) (init body').
Proof.
  unfold init. constructor; simpl; try reflexivity.
  apply same_upd; [intros; apply same_idle|].
  apply same_running, same_bodies.
Qed.

End Same.

Lemma relevant_world_run w sched :
  same_state (run (relevant_world w) sched) (run w sched).
Proof.
  unfold run. apply same_exec; [apply koolo_same|].
  apply same_init, koolo_same.
Qed.



Lemma hex_digit_query_byte n : n < 16 -> query_byte (hex_digit n) = true.
Proof.
  intros H. do 16 (destruct n as [|n]; [reflexivity|]). lia.
Qed.

Lemma nat_of_ascii_bound c : nat_of_ascii c < 256.
Proof.
  destruct c as [[] [] [] [] [] [] [] []]; vm_compute; lia.
Qed.

Lemma QueryEscape_bytes s :
  forallb query_byte (list_ascii_of_string (QueryEscape s)) = true.
Proof.
  induction s as [|c s IH]; [reflexivity|].
  cbn [QueryEscape].
  destruct (shouldEscape c) eqn:Ec.
  - destruct (Ascii.eqb c " "); cbn [list_ascii_of_string forallb].
    + now rewrite IH.
    + rewrite IH, !hex_digit_query_byte; [reflexivity| |].
      * apply Nat.mod_upper_bound. lia.
      * apply Nat.Div0.div_lt_upper_bound. apply nat_of_ascii_bound.
  - cbn [list_ascii_of_string forallb]. rewrite IH.
    unfold query_byte. now rewrite Ec.
Qed.

(** X11.  The request of [sendMessage].  The function makes one
    [http.Get], to the fixed endpoint followed by the encoded text; the
    encoded text consists of letters, digits and [-_.~%+] only, so the
    text adds no parameter to the URL; unescaping it gives the text back,
    and no other text has this encoding.  An error of the request is
    logged and nothing else follows. *)
Theorem sendMessage_request (text : string) (es : list (op * reply))
    (q : prog unit) (url : string) (r : reply) :
  path (sendMessage text) es q -> In (HttpGet url, r) es ->
  exists encoded rest,
    url = (telegram_endpoint ++ encoded)%string
    /\ es = (HttpGet url, r) :: rest
    /\ (rest = [] \/
        exists e, r = Fail e
                  /\ rest = [(StdLog ("Error sending message: " ++ e), Ok)])
    /\ forallb query_byte (list_ascii_of_string encoded) = true
    /\ QueryUnescape encoded = Some text
    /\ (forall text', QueryEscape text' = encoded -> text' = text).
Proof.
  intros H Hin. exists (QueryEscape text).
  assert (Hrest : QueryUnescape (QueryEscape text) = Some text
                  /\ (forall text', QueryEscape text' = QueryEscape text ->
                                    text' = text)).
  { split; [apply QueryUnescape_QueryEscape | intros t; apply QueryEscape_inj]. }
  pose proof (QueryEscape_bytes text) as Hb.
  unfold sendMessage in H.
  explore H; simpl in Hin; try contradiction.
  all: repeat match goal with
              | H : _ \/ _ |- _ => destruct H
              | H : False |- _ => destruct H
              end; try discriminate.
  all: match goal with E : (_, _) = (_, _) |- _ => injection E as <- <- end.
  all: eexists; split; [reflexivity|]; split; [reflexivity|].
  all: split; [first [ now left | right; eexists; split; reflexivity ]|].
  all: split; [exact Hb | exact Hrest].
Qed.

Lemma sendMessage_request_witness :
  exists encoded rest,
    telegram_url (QueryEscape "a b&c") = (telegram_endpoint ++ encoded)%string
    /\ [ (HttpGet (telegram_url (QueryEscape "a b&c")), Fail "no route to host");
         (StdLog "Error sending message: no route to host", Ok) ]
       = (HttpGet (telegram_url (QueryEscape "a b&c")), Fail "no route to host")
           :: rest
    /\ (rest = [] \/
        exists e, Fail "no route to host" = Fail e
                  /\ rest = [(StdLog ("Error sending message: " ++ e), Ok)])
    /\ forallb query_byte (list_ascii_of_string encoded) = true
    /\ QueryUnescape encoded = Some "a b&c"
    /\ (forall text', QueryEscape text' = encoded -> text' = "a b&c").
Proof.
  apply (@sendMessage_request "a b&c" _ (Ret tt)
           (telegram_url (QueryEscape "a b&c")) (Fail "no route to host")).
  - unfold sendMessage, call. simpl bind.
    apply path_cons; [reflexivity|]. simpl.
    apply path_cons; [reflexivity|]. apply path_nil.
  - now left.
Defined.

Lemma built_path w es q :
  path (top (orchestrate w)) es q ->
  forall pre o r post t,
    es = pre ++ (o, r) :: post -> started_by o = Some t ->
    forall b, In b (built_before t) -> In (b, Ok) pre.
Proof.
  intros H. unfold top, barrier, orchestrate in H.
  explore H.
  all: intros ? ? ? ? ? E Ho blt Hb; split_list E; try discriminate Ho.
  all: injection Ho as <-; simpl in Hb.
  all: repeat (destruct Hb as [<-|Hb]; [simpl; tauto|]); destruct Hb.
Qed.

(** X12.  Nothing is started before what it uses is built.  Every [go]
    and [g.Go] is called by [main], and before it every constructor of
    [built_before] has returned without an error: the listener, the
    manager and the scheduler before the scheduler's goroutine; these and
    the server before any task of the group; for an integration also its
    client, and the registration of its handler. *)
Theorem built_before_started (w : world) (sched : list (tid * reply))
    (pre : list event) (c : tid) (o : op) (r : reply) (post : list event)
    (t : tid) :
  trace (run w sched) = pre ++ Ev c o r :: post ->
  started_by o = Some t ->
  c = TMain /\ forall b, In b (built_before t) -> In (Ev TMain b Ok) pre.
Proof.
  intros Htr Ho.
  assert (Hin : In (Ev c o r) (trace (run w sched)))
    by (rewrite Htr; apply in_mid).
  assert (c = TMain) as ->.
  { apply run_may_call in Hin. destruct o; try discriminate; now destruct c. }
  split; [reflexivity|]. intros b Hb.
  destruct (run_path (koolo w) sched TMain) as (q & Hq).
  fold (run w sched) in Hq.
  apply calls_of_In in Hin.
  assert (Hx : early_op (fst (o, r)) = false) by (now destruct o).
  destruct (@main_orchestrating w _ q _ Hq Hin Hx)
    as (es1 & es2 & E & Hearly & _ & H2).
  rewrite Htr, calls_of_split in E.
  destruct (@split_after early_op _ _ _ (o, r) _ Hearly Hx (eq_sym E))
    as (pre2 & Hpre & Hes2).
  apply calls_of_In. rewrite Hpre. apply in_or_app. right.
  exact (@built_path w es2 q H2 pre2 o r _ t Hes2 Ho b Hb).
Qed.

Lemma built_before_started_witness :
  let tr := trace (run (demo true true) telegram_fails_run) in
  TMain = TMain /\ forall b,
    In b (built_before TDiscord) -> In (Ev TMain b Ok) (firstn 12 tr).
Proof.
  apply (@built_before_started (demo true true) telegram_fails_run
           _ TMain (GroupGo TDiscord) Ok
           (skipn 13 (trace (run (demo true true) telegram_fails_run)))
           TDiscord).
  - vm_compute. reflexivity.
  - reflexivity.
Defined.

Ltac find_panic :=
  match goal with E : Throw _ = Throw _ |- _ => injection E as <- end;
  eexists; simpl; repeat (first [left; reflexivity | right]).

Lemma task_throw w t es v :
  t <> TMain -> path (koolo w t) es (Throw v) -> exists o, In (o, Panic v) es.
Proof.
  intros Ht H. destruct t; try congruence; unfold koolo in H.
  - unfold schedulerTask in H. explore H; try discriminate; find_panic.
  - unfold guiTask in H. explore H; try discriminate; find_panic.
  - unfold discordTask in H. explore H; try discriminate; find_panic.
  - unfold telegramTask in H. explore H; try discriminate; find_panic.
  - unfold serverTask in H. explore H; try discriminate; find_panic.
  - unfold eventBusTask in H. explore H; try discriminate; find_panic.
  - unfold shutdownTask in H. explore H; try discriminate; find_panic.
Qed.

Lemma orchestrate_no_throw w es v :
  path (top (orchestrate w)) es (Throw v) -> False.
Proof.
  intros H. unfold top, barrier, orchestrate in H.
  explore H; discriminate.
Qed.

Lemma main_throw w cs v :
  path (koolo w TMain) cs (Throw v) ->
  cs = [(ConfigLoad, Panic v)]
  \/ cs = [(ConfigLoad, Ok); (NewLogger, Panic v)].
Proof.
  intros H. unfold koolo, main in H.
  path_next H; try discriminate.
  - path_next H; try discriminate.
    + exfalso. apply top_bind_path in H
        as [(q' & H1 & E) | [(es1 & es2 & a & -> & H1 & H2)
                            | (es1 & es2 & v' & -> & H1 & H2)]].
      * destruct (tame_path (findConfigFiles_tame w) H1)
          as [_ [[_ Hq] | (es1 & o & v' & _ & -> & _)]].
        -- inversion Hq; subst; discriminate.
        -- discriminate.
      * destruct a. exact (orchestrate_no_throw H2).
      * now destruct (report_path H2) as (_ & _ & ?).
    + explore H; discriminate.
    + explore H; try discriminate.
      match goal with E : Throw _ = Throw _ |- _ => injection E as <- end.
      now right.
  - explore H; discriminate.
  - explore H; try discriminate.
    match goal with E : Throw _ = Throw _ |- _ => injection E as <- end.
    now left.
Qed.

(** X13.  The code of [main.go] does not panic by itself.  When the
    process ends by a panic of goroutine [t] with value [v], a call of [t]
    has panicked with [v]; and when [t] is [main], that call is
    [config.Load] or [NewLogger], made before the deferred closure of line
    108 is in place. *)
Theorem crash_needs_panicking_call (w : world) (sched : list (tid * reply))
    (t : tid) (v : string) :
  status (run w sched) = Some (Crashed t v) ->
  (exists o, In (Ev t o (Panic v)) (trace (run w sched))) /\
  (t = TMain ->
   calls_of TMain (trace (run w sched)) = [(ConfigLoad, Panic v)]
   \/ calls_of TMain (trace (run w sched))
      = [(ConfigLoad, Ok); (NewLogger, Panic v)]).
Proof.
  intros Hst. apply ended_main in Hst.
  destruct (tid_eq_dec t TMain) as [-> | Hne].
  - pose proof (main_throw Hst) as Hcs. split; [|intros _; exact Hcs].
    destruct Hcs as [E | E].
    + exists ConfigLoad. apply calls_of_In. rewrite E. now left.
    + exists NewLogger. apply calls_of_In. rewrite E. right. now left.
  - split; [|congruence].
    destruct (@task_throw w t _ v Hne Hst) as (o & Hin).
    exists o. now apply calls_of_In.
Qed.

Lemma crash_needs_panicking_call_witness :
  let s := run (demo false false) config_panic_run in
  (exists o, In (Ev TMain o (Panic "yaml: cannot unmarshal")) (trace s)) /\
  (TMain = TMain ->
   calls_of TMain (trace s) = [(ConfigLoad, Panic "yaml: cannot unmarshal")]
   \/ calls_of TMain (trace s)
      = [(ConfigLoad, Ok); (NewLogger, Panic "yaml: cannot unmarshal")]).
Proof.
  apply (@crash_needs_panicking_call (demo false false) config_panic_run
           TMain "yaml: cannot unmarshal").
  vm_compute. reflexivity.
Defined.

Lemma is_new_spec i r : is_new i (new_bot i, r) = true.
Proof. now destruct i. Qed.

Lemma constructor_path w es q :
  path (top (orchestrate w)) es q ->
  forall i r pre post,
    es = pre ++ (new_bot i, r) :: post ->
    integration_enabled w i = true /\
    existsb (is_new i) pre = false /\
    existsb (is_new i) post = false /\
    (i = Telegram -> discord_enabled w = true ->
     In (GroupGo TDiscord, Ok) pre).
Proof.
  intros H. unfold top, barrier, orchestrate in H.
  explore H.
  all: intros ii ? ? ? E; destruct ii; split_list E.
  all: repeat split; try reflexivity; try assumption;
    try discriminate; try congruence.
  all: intros _ _; simpl; tauto.
Qed.

(** X14.  The constructor of an integration is called only when the
    integration is enabled, and at most once in a run; Telegram's is
    called only after Discord's task was registered when Discord is
    enabled, so a failure of Discord's constructor leaves Telegram
    unbuilt. *)
Theorem integration_constructed (w : world) (sched : list (tid * reply))
    (i : integration) (r : reply) (pre post : list (op * reply)) :
  calls_of TMain (trace (run w sched)) = pre ++ (new_bot i, r) :: post ->
  integration_enabled w i = true /\
  (forall r', ~ In (new_bot i, r') pre) /\
  (forall r', ~ In (new_bot i, r') post) /\
  (i = Telegram -> discord_enabled w = true ->
   In (GroupGo TDiscord, Ok) pre).
Proof.
  intros Hcs.
  destruct (run_path (koolo w) sched TMain) as (q & Hq).
  fold (run w sched) in Hq.
  assert (Hin : In (new_bot i, r) (calls_of TMain (trace (run w sched))))
    by (rewrite Hcs; apply in_mid).
  assert (Hx : early_op (fst (new_bot i, r)) = false) by (now destruct i).
  destruct (@main_orchestrating w _ q _ Hq Hin Hx)
    as (es1 & es2 & E & Hearly & _ & H2).
  rewrite E in Hcs.
  destruct (@split_after early_op _ _ _ (new_bot i, r) _ Hearly Hx Hcs)
    as (pre2 & -> & Hes2).
  destruct (@constructor_path w es2 q H2 i r pre2 post Hes2)
    as (Hen & Hpre & Hpost & Hd).
  assert (Hnot : forall l, existsb (is_new i) l = false ->
                           forall r', ~ In (new_bot i, r') l).
  { intros l Hl r' Hr.
    assert (Hex : existsb (is_new i) l = true); [|congruence].
    apply existsb_exists. exists (new_bot i, r'). split; [exact Hr|].
    apply is_new_spec. }
  repeat split.
  - exact Hen.
  - intros r' Hr. apply in_app_or in Hr as [Hr | Hr].
    + rewrite Forall_forall in Hearly. apply Hearly in Hr.
      simpl in Hr. destruct i; discriminate.
    + exact (Hnot _ Hpre _ Hr).
  - exact (Hnot _ Hpost).
  - intros Hi Hdis. apply in_or_app. right. now apply Hd.
Qed.

Lemma integration_constructed_witness :
  let cs := calls_of TMain (trace (run (demo true true) telegram_fails_run)) in
  integration_enabled (demo true true) Telegram = true /\
  (forall r', ~ In (new_bot Telegram, r') (firstn 13 cs)) /\
  (forall r', ~ In (new_bot Telegram, r') (skipn 14 cs)) /\
  (Telegram = Telegram -> discord_enabled (demo true true) = true ->
   In (GroupGo TDiscord, Ok) (firstn 13 cs)).
Proof.
  apply (@integration_constructed (demo true true) telegram_fails_run
           Telegram (Fail "bad token")).
  vm_compute. reflexivity.
Defined.

Lemma unwind_spec {A : Type} (p : prog A) :
  path p (fst (unwind p)) (snd (unwind p))
  /\ existsb waits (fst (unwind p)) = false
  /\ Forall (fun e => snd e = default_reply (fst e)) (fst (unwind p))
  /\ (ended (snd (unwind p)) = true
      \/ exists o k, snd (unwind p) = Vis o k /\ waits (o, Ok) = true).
Proof.
  induction p as [a|v|c|o k IH]; simpl;
    try (repeat split; [apply path_nil | constructor | now left]).
  destruct (waits (o, Ok)) eqn:Ew; simpl.
  - repeat split; [apply path_nil | constructor | right; eauto].
  - specialize (IH (default_reply o)).
    destruct (unwind (k (default_reply o))) as [es q]. simpl in *.
    destruct IH as (H1 & H2 & H3 & H4). repeat split.
    + apply path_cons; [apply default_reply_valid | exact H1].
    + rewrite H2. unfold waits in Ew |- *. simpl in *. now rewrite Ew.
    + constructor; [reflexivity | exact H3].
    + exact H4.
Qed.

Lemma continues_refl w S : continues w S S.
Proof.
  exists [], []. rewrite !app_nil_r. repeat split. constructor.
Qed.

Lemma continues_trans w S1 S2 S3 :
  continues w S1 S2 -> continues w S2 S3 -> continues w S1 S3.
Proof.
  intros (x1 & e1 & -> & H1 & C1) (x2 & e2 & -> & H2 & C2).
  exists (x1 ++ x2), (e1 ++ e2). repeat split.
  - now rewrite app_assoc.
  - now rewrite H2, H1, app_assoc.
  - apply Forall_app. now split.
Qed.

Lemma run_app w S ext :
  run w (S ++ ext) = exec (koolo w) ext (run w S).
Proof. unfold run, exec. apply fold_left_app. Qed.

Lemma main_running w S :
  status (run w S) = None -> exists p, threads (run w S) TMain = Running p.
Proof.
  unfold run.
  apply run_move_ind
    with (P := fun s => status s = None ->
                        exists p, threads s TMain = Running p).
  - intros _. unfold init. simpl. rewrite upd_same. eauto.
  - intros s s' IH Hm Hst'.
    destruct Hm as [t o k r Hst Ht He | t e Hst Ht | t v Hst Ht | t code Hst Ht];
      try discriminate.
    + destruct (IH Hst) as (p & Hp). rewrite threads_perform.
      assert (Hup : exists p', upd (threads s) t (Running (k r)) TMain
                               = Running p').
      { destruct (tid_eq_dec t TMain) as [->|Hne];
          [rewrite upd_same | rewrite upd_other by exact Hne]; eauto. }
      destruct Hup as (p' & Hp').
      destruct o; eauto;
        (destruct (tid_eq_dec t0 TMain) as [->|Hne];
         [rewrite upd_same | rewrite upd_other by exact Hne]; eauto).
    + destruct (IH Hst) as (p & Hp). rewrite threads_finish.
      destruct (tid_eqb t TMain) eqn:Et; [eauto|].
      apply tid_eqb_neq in Et. rewrite upd_other by exact Et. eauto.
Qed.

Lemma pending_running w S t :
  status (run w S) = None ->
  In t (pending (run w S)) -> exists p, threads (run w S) t = Running p.
Proof.
  unfold run.
  apply run_move_ind
    with (P := fun s => status s = None -> In t (pending s) ->
                        exists p, threads s t = Running p).
  - intros _ [].
  - intros s s' IH Hm Hst' Hin. unfold pending in *.
    destruct Hm as [u o k r Hst Hu He | u e Hst Hu | u v Hst Hu | u code Hst Hu];
      try discriminate.
    + rewrite threads_perform.
      assert (Hup : In t (filter (fun t => negb (mem t (returned s)))
                            (group_tasks s)) ->
                    exists p', upd (threads s) u (Running (k r)) t = Running p').
      { intros H. destruct (IH Hst H) as (p & Hp).
        destruct (tid_eq_dec u t) as [->|Hne];
          [rewrite upd_same | rewrite upd_other by exact Hne]; eauto. }
      destruct o; try (apply Hup; exact Hin).
      * simpl in Hin. rewrite filter_app in Hin.
        destruct (tid_eq_dec t0 t) as [->|Hne]; [rewrite upd_same; eauto|].
        rewrite upd_other by exact Hne.
        apply in_app_or in Hin as [Hin|Hin]; [now apply Hup|].
        simpl in Hin. destruct (negb (mem t0 (returned s))); simpl in Hin;
          intuition congruence.
      * simpl in Hin.
        destruct (tid_eq_dec t0 t) as [->|Hne]; [rewrite upd_same; eauto|].
        rewrite upd_other by exact Hne. now apply Hup.
    + rewrite threads_finish. unfold finish in Hin, Hst'.
      destruct (tid_eqb u TMain) eqn:Eu; [discriminate|].
      assert (Hkeep : In t (filter (fun t => negb (mem t (returned s ++ [u])))
                              (group_tasks s)) ->
                      exists p, upd (threads s) u Finished t = Running p).
      { intros H. apply filter_In in H as [H1 H2].
        apply negb_true_iff in H2.
        assert (Hne : u <> t).
        { intros ->. unfold mem in H2. rewrite existsb_app in H2.
          simpl in H2. rewrite tid_eqb_refl in H2.
          now rewrite orb_true_r in H2. }
        rewrite upd_other by exact Hne. apply IH; [exact Hst|].
        apply filter_In. split; [exact H1|].
        apply negb_true_iff. unfold mem in *. rewrite existsb_app in H2.
        now apply orb_false_iff in H2. }
      destruct (mem u (group_tasks s)) eqn:Em.
      * destruct e as [err|]; [destruct (group_err s)|]; simpl in Hin;
          now apply Hkeep.
      * simpl in Hin.
        assert (Hne : u <> t).
        { intros ->. apply filter_In in Hin as [H1 _].
          apply mem_In in H1. congruence. }
        rewrite upd_other by exact Hne. now apply IH.
Qed.

Lemma starts_app es1 es2 : starts (es1 ++ es2) = starts es1 ++ starts es2.
Proof.
  induction es1 as [|[o r] es1 IH]; [reflexivity|].
  destruct o; simpl; now rewrite IH.
Qed.

Lemma starts_In u es : In u (starts es) <-> exists o r, In (o, r) es /\ started_by o = Some u.
Proof.
  induction es as [|[o r] es IH]; simpl.
  - split; [intros [] | intros (? & ? & [] & _)].
  - split.
    + intros H.
      assert (Hrest : In u (starts es) ->
                      exists o' r', ((o, r) = (o', r') \/ In (o', r') es)
                                    /\ started_by o' = Some u).
      { intros H'. apply IH in H' as (o' & r' & Hin & Ho). eauto. }
      destruct o; auto; destruct H as [<- | H]; auto;
        do 2 eexists; (split; [left; reflexivity | reflexivity]).
    + intros (o' & r' & [E | Hin] & Ho).
      * injection E as <- <-. destruct o; try discriminate;
          injection Ho as <-; now left.
      * assert (H : In u (starts es)) by (apply IH; eauto).
        destruct o; auto; now right.
Qed.

Lemma starts_early es :
  Forall (fun e => early_op (fst e) = true) es -> starts es = [].
Proof.
  induction 1 as [|[o r] es Ho _ IH]; [reflexivity|].
  destruct o; try discriminate; exact IH.
Qed.

Lemma orchestrate_starts w es q :
  path (top (orchestrate w)) es q ->
  NoDup (starts es) /\ ~ In TMain (starts es).
Proof.
  intros H. unfold top, barrier, orchestrate in H.
  explore H.
  all: split; [repeat constructor; simpl; intuition discriminate
              | simpl; intuition discriminate].
Qed.

Lemma main_starts w cs q :
  path (koolo w TMain) cs q -> NoDup (starts cs) /\ ~ In TMain (starts cs).
Proof.
  intros H.
  destruct (main_early_or_orchestrating H)
    as [Hall | (es1 & es2 & -> & Hearly & _ & H2)].
  - rewrite (starts_early Hall). split; [constructor | intros []].
  - rewrite starts_app, (starts_early Hearly). exact (orchestrate_starts H2).
Qed.

(** A goroutine that [main] is still to start has not been started. *)
Lemma main_next_starts w S es q :
  path (koolo w TMain) (calls_of TMain (trace (run w S)) ++ es) q ->
  NoDup (starts es) /\
  forall u, In u (starts es) -> threads (run w S) u = Idle.
Proof.
  intros H. destruct (main_starts H) as [Hnd Hmain].
  rewrite starts_app in Hnd, Hmain. split.
  - now apply NoDup_app_remove_l in Hnd.
  - intros u Hu.
    destruct (threads (run w S) u) eqn:Hth; [reflexivity | exfalso | exfalso].
    all: assert (Hne : threads (run w S) u <> Idle) by congruence.
    all: destruct (@run_started w S u Hne) as [-> | (c & r & Hgo)];
      [apply Hmain, in_or_app; now right|].
    all: assert (Hin : In u (starts (calls_of TMain (trace (run w S))))).
    1,3: apply starts_In; destruct Hgo as [Hgo | Hgo];
      (assert (c = TMain) as -> by (apply run_may_call in Hgo; now destruct c));
      apply calls_of_In in Hgo; eauto.
    all: revert Hnd Hin Hu; clear; intros Hnd Hin Hu;
      induction (starts (calls_of TMain (trace (run w S)))) as [|x l IH];
      [destruct Hin|].
    all: simpl in Hnd; inversion Hnd as [|? ? Hx Hl]; subst;
      destruct Hin as [-> | Hin]; [apply Hx, in_or_app; now right | auto].
Qed.

Lemma calls_of_events t u es :
  calls_of u (map (fun e => Ev t (fst e) (snd e)) es)
  = if tid_eqb u t then es else [].
Proof.
  induction es as [|[o r] es IH]; simpl; [now destruct (tid_eqb u t)|].
  rewrite IH. now destruct (tid_eqb u t).
Qed.

Lemma registered_of_events t es :
  registered_of (map (fun e => Ev t (fst e) (snd e)) es) = group_starts es.
Proof.
  induction es as [|[o r] es IH]; [reflexivity|].
  destruct o; simpl; now rewrite IH.
Qed.

Lemma returns_of_events t es :
  returns_of (map (fun e => Ev t (fst e) (snd e)) es) = [].
Proof. induction es as [|[o r] es IH]; [reflexivity | exact IH]. Qed.

Lemma group_starts_none es : starts es = [] -> group_starts es = [].
Proof.
  induction es as [|[o r] es IH]; [reflexivity|].
  destruct o; simpl; auto; discriminate.
Qed.

Lemma calm_events t es :
  Forall (fun e => snd e = default_reply (fst e)) es ->
  Forall calm (map (fun e => Ev t (fst e) (snd e)) es).
Proof.
  induction 1 as [|[o r] es Ho _ IH]; constructor; [|exact IH].
  simpl in Ho. subst r. now destruct o.
Qed.

(** A goroutine makes the calls of a path of its body, one after the
    other. *)
Lemma drive w S t p es q :
  status (run w S) = None ->
  threads (run w S) t = Running p ->
  path p es q ->
  existsb waits es = false ->
  Forall (fun e => snd e = default_reply (fst e)) es ->
  NoDup (starts es) ->
  (forall u, In u (starts es) -> threads (run w S) u = Idle) ->
  continues w S (S ++ map (fun e => (t, snd e)) es)
  /\ status (run w (S ++ map (fun e => (t, snd e)) es)) = None
  /\ threads (run w (S ++ map (fun e => (t, snd e)) es)) t = Running q
  /\ trace (run w (S ++ map (fun e => (t, snd e)) es))
     = trace (run w S) ++ map (fun e => Ev t (fst e) (snd e)) es.
Proof.
  intros Hst Ht Hp Hw Hd Hnd Hidle.
  destruct (@exec_alone (koolo w) t es (run w S) p q Hst Ht Hp Hw Hnd Hidle)
    as (H1 & H2 & H3).
  rewrite run_app. repeat split; auto.
  exists (map (fun e => (t, snd e)) es),
    (map (fun e => Ev t (fst e) (snd e)) es).
  rewrite run_app. repeat split; auto. now apply calm_events.
Qed.

(** A goroutine at the end of its body ends. *)
Lemma end_step w S t q :
  status (run w S) = None ->
  threads (run w S) t = Running q -> ended q = true ->
  continues w S (S ++ [(t, Ok)]) /\
  (status (run w (S ++ [(t, Ok)])) <> None \/
   exists e, q = Ret e /\ t <> TMain
             /\ run w (S ++ [(t, Ok)]) = finish (run w S) t e).
Proof.
  intros Hst Ht Hq.
  assert (Hstep : run w (S ++ [(t, Ok)]) = step (koolo w) (run w S) (t, Ok))
    by (rewrite run_app; reflexivity).
  unfold step in Hstep. rewrite Hst, Ht in Hstep.
  destruct q as [e|v|c|o k]; try discriminate.
  - split.
    + exists [(t, Ok)], [if tid_eqb t TMain then EvEnd Returned
                        else if mem t (group_tasks (run w S)) then EvReturn t e
                        else EvDone t].
      repeat split.
      * rewrite Hstep. apply trace_finish.
      * constructor; [|constructor].
        destruct (tid_eqb t TMain); [exact I|].
        now destruct (mem t (group_tasks (run w S))).
    + destruct (tid_eqb t TMain) eqn:Et.
      * left. rewrite Hstep. unfold finish. now rewrite Et.
      * right. exists e. apply tid_eqb_neq in Et. auto.
  - split; [|left; now rewrite Hstep].
    exists [(t, Ok)], [EvEnd (Crashed t v)]. rewrite Hstep.
    repeat split. repeat constructor.
  - split; [|left; now rewrite Hstep].
    exists [(t, Ok)], [EvEnd (Exited c)]. rewrite Hstep.
    repeat split. repeat constructor.
Qed.

(** Where [main] is, from its calls. *)
Lemma main_position w S p :
  status (run w S) = None ->
  path (koolo w TMain) (calls_of TMain (trace (run w S))) p ->
  threads (run w S) TMain = Running p.
Proof.
  intros Hst Hp. destruct (main_running w S Hst) as (p' & Hp').
  pose proof (run_follows (koolo w) S TMain) as Hf.
  fold (run w S) in Hf. unfold follows in Hf. rewrite Hp' in Hf.
  now rewrite (path_fun Hp Hf).
Qed.

Lemma thread_position w S t p :
  threads (run w S) t = Running p ->
  path (koolo w t) (calls_of t (trace (run w S))) p.
Proof.
  intros Hp. pose proof (run_follows (koolo w) S t) as Hf.
  fold (run w S) in Hf. unfold follows in Hf. now rewrite Hp in Hf.
Qed.

(** ** [main] at [g.Wait] *)

Lemma orchestrate_at_wait w es k :
  path (top (orchestrate w)) es (Vis GroupWait k) ->
  group_starts es = expected_tasks w.
Proof.
  intros H. unfold top, barrier, orchestrate in H.
  explore H; try discriminate.
  all: unfold expected_tasks; use_flags; reflexivity.
Qed.

Lemma main_at_wait w cs k :
  path (koolo w TMain) cs (Vis GroupWait k) ->
  group_starts cs = expected_tasks w.
Proof.
  intros H. unfold koolo, main in H.
  path_next H; try discriminate.
  - path_next H; try discriminate.
    + apply top_bind_path in H
        as [(q' & H1 & E) | [(es1 & es2 & a & -> & H1 & H2)
                            | (es1 & es2 & v & -> & H1 & H2)]].
      * exfalso.
        destruct (tame_path (findConfigFiles_tame w) H1)
          as [_ [[_ Hq] | (es1 & o & v & _ & -> & _)]].
        -- inversion Hq as [a | o k' Ho _ _]; subst.
           ++ unfold top, barrier, orchestrate in E. simpl in E. discriminate.
           ++ unfold top, barrier in E. simpl in E.
              injection E as <- _. discriminate.
        -- unfold top, barrier in E. simpl in E. discriminate.
      * destruct a. simpl.
        destruct (tame_path (findConfigFiles_tame w) H1) as [Hops _].
        rewrite group_starts_app.
        rewrite (@group_starts_early es1).
        -- exact (orchestrate_at_wait H2).
        -- eapply Forall_impl; [|exact Hops]. intros x. apply scan_is_early.
      * exfalso. unfold top, barrier in H2. explore H2; discriminate.
    + explore H; discriminate.
    + explore H; discriminate.
  - explore H; discriminate.
  - explore H; discriminate.
Qed.

Lemma orchestrate_one_wait w es q :
  path (top (orchestrate w)) es q ->
  forall pre r post k,
    es = pre ++ (GroupWait, r) :: post -> q = Vis GroupWait k -> False.
Proof.
  intros H. unfold top, barrier, orchestrate in H.
  explore H.
  all: intros ? ? ? ? E Hq; split_list E; discriminate.
Qed.

Lemma one_wait w cs r es k :
  path (koolo w TMain) (cs ++ (GroupWait, r) :: es) (Vis GroupWait k) -> False.
Proof.
  intros H.
  assert (Hin : In (GroupWait, r) (cs ++ (GroupWait, r) :: es)) by apply in_mid.
  destruct (@main_orchestrating w _ _ _ H Hin eq_refl)
    as (es1 & es2 & E & Hearly & _ & H2).
  destruct (@split_after early_op _ _ _ (GroupWait, r) _ Hearly eq_refl
              (eq_sym E)) as (pre2 & _ & Hes2).
  exact (@orchestrate_one_wait w es2 _ H2 _ _ _ k Hes2 eq_refl).
Qed.

Lemma waiting_tasks w S k :
  threads (run w S) TMain = Running (Vis GroupWait k) ->
  group_tasks (run w S) = expected_tasks w.
Proof.
  intros H. apply thread_position in H. apply main_at_wait in H.
  unfold run at 1. rewrite (ft_tasks (run_from_trace (koolo w) S)).
  fold (run w S). rewrite <- H. apply registered_calls.
  intros c t r Hin. apply run_may_call in Hin. now destruct c.
Qed.

Lemma pending_task w S t :
  In t (pending (run w S)) ->
  t <> TMain /\ forall r, may_call t GroupWait = false
                          /\ may_call t (GroupGo r) = false
                          /\ may_call t (GoPlain r) = false.
Proof.
  intros H. apply filter_In in H as [H _].
  unfold run in H. rewrite (ft_tasks (run_from_trace (koolo w) S)) in H.
  apply registered_of_In in H as (c & r & H).
  apply run_may_call in H.
  destruct c; try discriminate; destruct t; try discriminate;
    (split; [discriminate | intros; repeat split]).
Qed.

Lemma gui_returned_done w S :
  In TGui (returned (run w S)) -> ctx_done (run w S) = true.
Proof.
  intros H. unfold run in H.
  rewrite (ft_returned (run_from_trace (koolo w) S)) in H.
  apply in_map_iff in H as ([t e] & E & H). simpl in E. subst t.
  apply returns_of_In in H. apply in_split in H as (pre & post & Htr).
  destruct (@run_return_path w S _ _ _ _ Htr) as [Hp _].
  apply gui_cancels in Hp; [|reflexivity].
  apply existsb_exists in Hp as (y & Hy & Hok).
  apply returned_ok_eq in Hok. subst y. apply calls_of_In in Hy.
  apply cancel_fires with (t := TGui). unfold run. rewrite Htr.
  apply in_or_app. now left.
Qed.

(** ** One task to its end *)

Lemma starts_task t es :
  t <> TMain -> Forall (fun e => may_call t (fst e) = true) es ->
  starts es = [].
Proof.
  intros Ht. induction 1 as [|[o r] es Ho _ IH]; [reflexivity|].
  simpl in Ho.
  destruct o; try exact IH; exfalso; destruct t; try discriminate Ho;
    now apply Ht.
Qed.

(** A task that is not going to wait runs to its end. *)
Lemma unwind_ends w t cs p :
  t <> TMain ->
  path (koolo w t) cs p ->
  (forall es k, ~ path (koolo w t) (cs ++ es) (Vis AwaitDone k)) ->
  ended (snd (unwind p)) = true /\ starts (fst (unwind p)) = [].
Proof.
  intros Ht Hp Hno.
  destruct (unwind_spec p) as (H1 & _ & _ & H4).
  pose proof (path_app Hp H1) as Hall.
  destruct (all_ops_path (koolo_ops w t) Hall) as [Hops Hq]. split.
  - destruct H4 as [H4 | (o & k & E & Hw)]; [exact H4|]. exfalso.
    rewrite E in Hq, Hall. inversion Hq as [| | |o' k' Ho _]; subst.
    destruct o; try discriminate.
    + exact (Hno _ _ Hall).
    + destruct t; try discriminate Ho. now apply Ht.
  - apply Forall_app in Hops as [_ Hops]. exact (starts_task Ht Hops).
Qed.

Lemma filter_length_le {X : Type} (f g : X -> bool) l :
  (forall x, g x = true -> f x = true) ->
  length (filter g l) <= length (filter f l).
Proof.
  intros H. induction l as [|x l IH]; [reflexivity|]. simpl.
  destruct (g x) eqn:Eg; [rewrite (H _ Eg); simpl; lia|].
  destruct (f x); simpl; lia.
Qed.

Lemma mem_snoc t R u : mem t (R ++ [u]) = mem t R || tid_eqb t u.
Proof. unfold mem. rewrite existsb_app. simpl. now rewrite orb_false_r. Qed.

Lemma pending_shrinks t R G :
  In t (filter (fun u => negb (mem u R)) G) ->
  length (filter (fun u => negb (mem u (R ++ [t]))) G)
  < length (filter (fun u => negb (mem u R)) G).
Proof.
  induction G as [|x G IH]; [intros []|]. intros Hin.
  assert (Hle : length (filter (fun u => negb (mem u (R ++ [t]))) G)
                <= length (filter (fun u => negb (mem u R)) G)).
  { apply filter_length_le. intros u. rewrite mem_snoc.
    now destruct (mem u R). }
  simpl in *. rewrite mem_snoc.
  destruct (tid_eq_dec x t) as [-> | Hne].
  - rewrite tid_eqb_refl, orb_true_r. simpl.
    assert (Hm : mem t R = false).
    { destruct (mem t R) eqn:E; [|reflexivity]. simpl in Hin.
      apply filter_In in Hin as [_ Hin]. now rewrite E in Hin. }
    rewrite Hm. simpl. lia.
  - apply tid_eqb_neq in Hne as Hne'. rewrite Hne', orb_false_r.
    destruct (negb (mem x R)); simpl in *.
    + destruct Hin as [-> | Hin]; [congruence|]. specialize (IH Hin). lia.
    + apply IH, Hin.
Qed.

(** The lists of the group are those of the trace. *)
Lemma same_group_lists w S S' evs :
  trace (run w S') = trace (run w S) ++ evs ->
  registered_of evs = [] -> returns_of evs = [] ->
  group_tasks (run w S') = group_tasks (run w S)
  /\ returned (run w S') = returned (run w S).
Proof.
  intros Htr Hreg Hret. unfold run in *.
  rewrite (ft_tasks (run_from_trace (koolo w) S')),
    (ft_tasks (run_from_trace (koolo w) S)),
    (ft_returned (run_from_trace (koolo w) S')),
    (ft_returned (run_from_trace (koolo w) S)).
  rewrite Htr, registered_of_app, returns_of_app, Hreg, Hret, !app_nil_r.
  auto.
Qed.

Lemma main_stays w S S' evs p :
  status (run w S) = None -> status (run w S') = None ->
  threads (run w S) TMain = Running p ->
  trace (run w S') = trace (run w S) ++ evs ->
  calls_of TMain evs = [] ->
  threads (run w S') TMain = Running p.
Proof.
  intros Hst Hst' Hp Htr Hev. apply main_position; [exact Hst'|].
  rewrite Htr, calls_of_app, Hev, app_nil_r. now apply thread_position.
Qed.

Lemma finish_task w S k t p :
  status (run w S) = None ->
  threads (run w S) TMain = Running (Vis GroupWait k) ->
  In t (pending (run w S)) ->
  threads (run w S) t = Running p ->
  (forall es k', ~ path (koolo w t) (calls_of t (trace (run w S)) ++ es)
                     (Vis AwaitDone k')) ->
  exists S',
    continues w S S' /\
    (status (run w S') <> None \/
     (status (run w S') = None
      /\ threads (run w S') TMain = Running (Vis GroupWait k)
      /\ length (pending (run w S')) < length (pending (run w S)))).
Proof.
  intros Hst Hmain Hpend Hp Hno.
  destruct (@pending_task w S t Hpend) as [Hne _].
  destruct (@unwind_ends w t _ p Hne (@thread_position w S t p Hp) Hno)
    as [Hend Hstarts].
  destruct (unwind_spec p) as (H1 & H2 & H3 & _).
  destruct (unwind p) as [es q]. simpl in *.
  destruct (@drive w S t p es q Hst Hp H1 H2 H3) as (C1 & Hst1 & Hq & Htr1).
  { rewrite Hstarts. constructor. }
  { rewrite Hstarts. intros u []. }
  set (S1 := S ++ map (fun e => (t, snd e)) es) in *.
  destruct (@end_step w S1 t q Hst1 Hq Hend) as [C2 Hfin].
  exists (S1 ++ [(t, Ok)]). split; [exact (continues_trans C1 C2)|].
  destruct Hfin as [Hfin | (e & -> & _ & Hrun)]; [now left|]. right.
  destruct (@same_group_lists w S S1 _ Htr1) as [Hg Hr].
  { rewrite registered_of_events. now apply group_starts_none. }
  { apply returns_of_events. }
  assert (Hmem : mem t (group_tasks (run w S1)) = true).
  { rewrite Hg. apply mem_In. now apply filter_In in Hpend as [? _]. }
  assert (Ht : tid_eqb t TMain = false) by now apply tid_eqb_neq.
  assert (Hmain1 : threads (run w S1) TMain = Running (Vis GroupWait k)).
  { apply (@main_stays w S S1 _ _ Hst Hst1 Hmain Htr1).
    rewrite calls_of_events.
    destruct (tid_eqb TMain t) eqn:E; [|reflexivity].
    apply tid_eqb_eq in E. congruence. }
  rewrite Hrun. repeat split.
  - unfold finish. rewrite Ht, Hmem.
    destruct e as [err|]; [destruct (group_err (run w S1))|]; exact Hst1.
  - rewrite threads_finish, Ht, upd_other by exact Hne. exact Hmain1.
  - assert (E : pending (finish (run w S1) t e)
                = filter (fun u => negb (mem u (returned (run w S) ++ [t])))
                    (group_tasks (run w S))).
    { unfold pending, finish. rewrite Ht, Hmem, <- Hg, <- Hr.
      destruct e as [err|]; [destruct (group_err (run w S1))|]; reflexivity. }
    rewrite E. now apply pending_shrinks.
Qed.

(** ** The waits *)

(** A call that is enabled is made. *)
Lemma call_step w S t o k r :
  status (run w S) = None ->
  threads (run w S) t = Running (Vis o k) ->
  enabled (run w S) o r = true ->
  calm (Ev t o r) ->
  continues w S (S ++ [(t, r)])
  /\ run w (S ++ [(t, r)]) = perform (koolo w) (run w S) t o r (k r).
Proof.
  intros Hst Ht He Hc.
  assert (Hstep : run w (S ++ [(t, r)]) = perform (koolo w) (run w S) t o r (k r)).
  { rewrite run_app. simpl. unfold step. now rewrite Hst, Ht, He. }
  split; [|exact Hstep].
  exists [(t, r)], [Ev t o r]. rewrite Hstep, trace_perform.
  repeat split. now constructor.
Qed.

(** [main] goes on to its end or to [g.Wait]. *)
Lemma main_drive w S :
  status (run w S) = None ->
  exists S',
    continues w S S' /\
    (status (run w S') <> None \/
     exists k es,
       status (run w S') = None
       /\ threads (run w S') TMain = Running (Vis GroupWait k)
       /\ calls_of TMain (trace (run w S'))
          = calls_of TMain (trace (run w S)) ++ es).
Proof.
  intros Hst. destruct (@main_running w S Hst) as (p & Hp).
  pose proof (@thread_position w S TMain p Hp) as Hcs.
  destruct (unwind_spec p) as (H1 & H2 & H3 & H4).
  destruct (unwind p) as [es q]. simpl in *.
  pose proof (path_app Hcs H1) as Hall.
  destruct (@main_next_starts w S es q Hall) as [Hnd Hidle].
  destruct (@drive w S TMain p es q Hst Hp H1 H2 H3 Hnd Hidle)
    as (C1 & Hst1 & Hq & Htr1).
  set (S1 := S ++ map (fun e => (TMain, snd e)) es) in *.
  destruct H4 as [Hend | (o & k & -> & Hw)].
  - destruct (@end_step w S1 TMain q Hst1 Hq Hend) as [C2 Hfin].
    exists (S1 ++ [(TMain, Ok)]). split; [exact (continues_trans C1 C2)|].
    left. destruct Hfin as [Hfin | (e & _ & Hne & _)]; [exact Hfin|].
    now destruct Hne.
  - exists S1. split; [exact C1|]. right.
    destruct (all_ops_path (koolo_ops w TMain) Hall) as [_ Hops].
    inversion Hops as [| | |o' k' Ho _]; subst.
    destruct o; try discriminate.
    exists k, es. repeat split; auto.
    rewrite Htr1, calls_of_app, calls_of_events. reflexivity.
Qed.

Lemma no_pending_all_returned (s : state) :
  pending s = [] ->
  forallb (fun t => mem t (returned s)) (group_tasks s) = true.
Proof.
  unfold pending. induction (group_tasks s) as [|t l IH]; [reflexivity|].
  simpl. destruct (mem t (returned s)); simpl; [exact IH | discriminate].
Qed.

(** When every function of the group has returned, [g.Wait] returns and
    [main] goes on to its end. *)
Lemma wait_returns_end w S k :
  status (run w S) = None ->
  threads (run w S) TMain = Running (Vis GroupWait k) ->
  pending (run w S) = [] ->
  exists S', continues w S S' /\ status (run w S') <> None.
Proof.
  intros Hst Hmain Hpend.
  set (r := reply_of (group_err (run w S))).
  assert (He : enabled (run w S) GroupWait r = true).
  { unfold enabled. rewrite (no_pending_all_returned _ Hpend).
    replace (wait_reply r (group_err (run w S))) with true
      by (symmetry; now apply wait_reply_spec).
    unfold r. now destruct (group_err (run w S)). }
  assert (Hc : calm (Ev TMain GroupWait r)).
  { unfold r. simpl. now destruct (group_err (run w S)). }
  destruct (@call_step w S TMain GroupWait k r Hst Hmain He Hc) as [C1 Hrun].
  set (S1 := S ++ [(TMain, r)]) in *.
  assert (Hst1 : status (run w S1) = None)
    by (rewrite Hrun, status_perform; exact Hst).
  destruct (@main_drive w S1 Hst1) as (S2 & C2 & Hend).
  exists S2. split; [exact (continues_trans C1 C2)|].
  destruct Hend as [Hend | (k' & es & _ & Hmain2 & Hcs)]; [exact Hend|].
  exfalso. apply thread_position in Hmain2.
  assert (E : calls_of TMain (trace (run w S2))
              = calls_of TMain (trace (run w S)) ++ (GroupWait, r) :: es).
  { rewrite Hcs, Hrun, trace_perform, calls_of_app, <- app_assoc.
    reflexivity. }
  rewrite E in Hmain2. exact (@one_wait w _ r es k' Hmain2).
Qed.

(** The shutdown task gets past [<-ctx.Done()] once the GUI task has
    returned. *)
Lemma await_step w S k k' :
  status (run w S) = None ->
  threads (run w S) TMain = Running (Vis GroupWait k) ->
  threads (run w S) TShutdown = Running (Vis AwaitDone k') ->
  ctx_done (run w S) = true ->
  let S1 := S ++ [(TShutdown, Ok)] in
  continues w S S1
  /\ status (run w S1) = None
  /\ threads (run w S1) TMain = Running (Vis GroupWait k)
  /\ threads (run w S1) TShutdown = Running (k' Ok)
  /\ pending (run w S1) = pending (run w S)
  /\ calls_of TShutdown (trace (run w S1))
     = calls_of TShutdown (trace (run w S)) ++ [(AwaitDone, Ok)].
Proof.
  intros Hst Hmain Hsh Hdone S1.
  assert (He : enabled (run w S) AwaitDone Ok = true)
    by (unfold enabled; now rewrite Hdone).
  destruct (@call_step w S TShutdown AwaitDone k' Ok Hst Hsh He eq_refl)
    as [C1 Hrun].
  fold S1 in C1, Hrun.
  assert (Hst1 : status (run w S1) = None)
    by (rewrite Hrun, status_perform; exact Hst).
  assert (Htr : trace (run w S1)
                = trace (run w S) ++ [Ev TShutdown AwaitDone Ok])
    by (rewrite Hrun; apply trace_perform).
  repeat split; auto.
  - now apply (@main_stays w S S1 _ _ Hst Hst1 Hmain Htr).
  - rewrite Hrun, threads_perform. apply upd_same.
  - destruct (@same_group_lists w S S1 _ Htr eq_refl eq_refl) as [Hg Hr].
    unfold pending. now rewrite Hg, Hr.
  - now rewrite Htr, calls_of_app.
Qed.

(** ** Every function of the group to its end *)

Lemma task_no_await w t cs :
  t <> TMain -> t <> TShutdown ->
  forall es k, ~ path (koolo w t) (cs ++ es) (Vis AwaitDone k).
Proof.
  intros Hm Hs es k H.
  destruct (all_ops_path (koolo_ops w t) H) as [_ Hops].
  inversion Hops as [| | |o' k' Ho _]; subst.
  destruct t; try discriminate Ho; congruence.
Qed.

Lemma shutdown_no_await w cs :
  cs <> [] ->
  forall es k, ~ path (koolo w TShutdown) (cs ++ es) (Vis AwaitDone k).
Proof.
  intros Hcs es k H. apply shutdown_at_start in H.
  apply app_eq_nil in H as [H _]. contradiction.
Qed.

Lemma group_can_finish w n :
  forall S k,
    status (run w S) = None ->
    threads (run w S) TMain = Running (Vis GroupWait k) ->
    length (pending (run w S)) <= n ->
    exists S', continues w S S' /\ status (run w S') <> None.
Proof.
  induction n as [|n IH]; intros S k Hst Hmain Hlen.
  - apply wait_returns_end with (k := k); auto.
    destruct (pending (run w S)); [reflexivity | simpl in Hlen; lia].
  - destruct (pending (run w S)) as [|t0 l] eqn:Hpend;
      [now apply wait_returns_end with (k := k)|].
    assert (Hpick : exists t,
               In t (pending (run w S))
               /\ (t = TShutdown -> ~ In TGui (pending (run w S)))).
    { destruct (in_dec tid_eq_dec TGui (pending (run w S))) as [Hin | Hnot].
      - exists TGui. split; [exact Hin | discriminate].
      - exists t0. split; [rewrite Hpend; now left | intros _; exact Hnot]. }
    rewrite <- Hpend in Hlen. clear Hpend t0 l.
    destruct Hpick as (t & Hin & Hgui).
    destruct (@pending_running w S t Hst Hin) as (p & Hp).
    destruct (@pending_task w S t Hin) as [Hne _].
    assert (Hstep : exists S1,
               continues w S S1 /\
               (status (run w S1) <> None \/
                (status (run w S1) = None
                 /\ threads (run w S1) TMain = Running (Vis GroupWait k)
                 /\ length (pending (run w S1))
                    < length (pending (run w S))))).
    { destruct (tid_eq_dec t TShutdown) as [-> | Hns].
      - destruct (calls_of TShutdown (trace (run w S))) as [|c cs] eqn:Hcs.
        + pose proof (@thread_position w S TShutdown p Hp) as Hpos.
          rewrite Hcs in Hpos. apply path_ended_nil in Hpos.
          assert (Hk : exists k', p = Vis AwaitDone k')
            by (rewrite Hpos; eexists; reflexivity).
          destruct Hk as (k' & ->).
          assert (Hdone : ctx_done (run w S) = true).
          { apply gui_returned_done. apply mem_In.
            destruct (mem TGui (returned (run w S))) eqn:Em; [reflexivity|].
            exfalso. apply (Hgui eq_refl). apply filter_In. split.
            - rewrite (waiting_tasks w S Hmain). now left.
            - now rewrite Em. }
          destruct (@await_step w S k k' Hst Hmain Hp Hdone)
            as (C1 & Hst1 & Hmain1 & Hp1 & Hpend1 & Hcs1).
          set (S1 := S ++ [(TShutdown, Ok)]) in *.
          destruct (@finish_task w S1 k TShutdown (k' Ok) Hst1 Hmain1)
            as (S2 & C2 & Hres); auto.
          * now rewrite Hpend1.
          * apply shutdown_no_await. rewrite Hcs1, Hcs. discriminate.
          * exists S2. split; [exact (continues_trans C1 C2)|].
            now rewrite <- Hpend1.
        + destruct (@finish_task w S k TShutdown p Hst Hmain Hin Hp)
            as (S1 & C1 & Hres); eauto.
          apply shutdown_no_await. rewrite Hcs. discriminate.
      - destruct (@finish_task w S k t p Hst Hmain Hin Hp)
          as (S1 & C1 & Hres); eauto.
        now apply task_no_await. }
    destruct Hstep as (S1 & C1 & [Hend | (Hst1 & Hmain1 & Hlt)]).
    + exists S1. auto.
    + destruct (IH S1 k Hst1 Hmain1) as (S2 & C2 & Hend); [lia|].
      exists S2. split; [exact (continues_trans C1 C2) | exact Hend].
Qed.

Lemma can_end w S :
  exists S', continues w S S' /\ status (run w S') <> None.
Proof.
  destruct (status (run w S)) eqn:Hst.
  - exists S. split; [apply continues_refl | congruence].
  - destruct (@main_drive w S Hst) as (S1 & C1 & [Hend | (k & es & Hst1 & Hmain & _)]).
    + exists S1. auto.
    + destruct (@group_can_finish w _ S1 k Hst1 Hmain (le_n _))
        as (S2 & C2 & Hend).
      exists S2. split; [exact (continues_trans C1 C2) | exact Hend].
Qed.

Lemma calm_no_panic t o v : ~ calm (Ev t o (Panic v)).
Proof. destruct o; simpl; discriminate. Qed.

Lemma fatal_failure w cs :
  fatal w cs ->
  exists o e, In (o, Fail e) cs
              /\ (o = ConfigLoad \/ o = NewLogger \/ o = ServerNew).
Proof.
  intros [e | e | scan e _].
  - exists ConfigLoad, e. simpl. auto.
  - exists NewLogger, e. simpl. auto.
  - exists ServerNew, e. split; [|auto].
    right. right. apply in_or_app. right. simpl. tauto.
Qed.

(** X15.  The process cannot get stuck.  Every run, however far it has got
    and whatever was answered so far, can be continued to the end of the
    process by calm events only: each further call returns without an
    error and [g.Wait] returns what the group holds.  [main] reaches
    [g.Wait] or its end; the GUI task returns and cancels; the shutdown
    task gets past [<-ctx.Done()] and returns; the other tasks return;
    [g.Wait] returns and [main] ends.  When no call has panicked so far
    and [config.Load], [NewLogger] and [server.New] have not failed, the
    process ends by [main] returning. *)
Theorem process_can_end (w : world) (sched : list (tid * reply)) :
  exists ext evs,
    trace (run w (sched ++ ext)) = trace (run w sched) ++ evs
    /\ Forall calm evs
    /\ status (run w (sched ++ ext)) <> None
    /\ ((forall t o r,
            In (Ev t o r) (trace (run w sched)) ->
            is_panic r = false
            /\ (o = ConfigLoad \/ o = NewLogger \/ o = ServerNew -> r = Ok)) ->
        status (run w (sched ++ ext)) = Some Returned).
Proof.
  destruct (can_end w sched) as (S' & (ext & evs & -> & Htr & Hcalm) & Hend).
  exists ext, evs. repeat split; auto.
  intros Hgood.
  assert (Hall : forall t o r,
             In (Ev t o r) (trace (run w (sched ++ ext))) ->
             is_panic r = false
             /\ (o = ConfigLoad \/ o = NewLogger \/ o = ServerNew -> r = Ok)).
  { intros t o r Hin. rewrite Htr in Hin.
    apply in_app_or in Hin as [Hin | Hin]; [exact (Hgood t o r Hin)|].
    rewrite Forall_forall in Hcalm. apply Hcalm in Hin.
    destruct o; simpl in Hin; subst; split; try reflexivity;
      try (intros [E | [E | E]]; discriminate E); try exact Hin;
      intros; reflexivity. }
  destruct (status (run w (sched ++ ext))) as [[|code|t v]|] eqn:Hst;
    [reflexivity | exfalso | exfalso | congruence].
  - apply ended_main in Hst. apply main_exit in Hst as [_ Hf].
    destruct (fatal_failure Hf) as (o & e & Hin & Ho).
    apply calls_of_In in Hin. destruct (Hall _ _ _ Hin) as [_ H].
    now specialize (H Ho).
  - apply ended_main in Hst.
    assert (Hp : exists o, In (o, Panic v)
                             (calls_of t (trace (run w (sched ++ ext))))).
    { destruct (tid_eq_dec t TMain) as [-> | Hne].
      - destruct (main_throw Hst) as [E | E]; rewrite E; simpl; eauto.
      - exact (@task_throw w t _ v Hne Hst). }
    destruct Hp as (o & Hin). apply calls_of_In in Hin.
    now destruct (Hall _ _ _ Hin) as [H _].
Qed.

(** The tasks registered when [g.Wait] is called are all the tasks. *)
Lemma registered_at_wait w sched pre t r post :
  trace (run w sched) = pre ++ Ev t GroupWait r :: post ->
  registered_of pre = expected_tasks w.
Proof.
  intros Htr.
  pose proof (no_go_after_wait w sched _ _ _ _ Htr) as Hpost.
  assert (Hin : In (Ev t GroupWait r) (trace (run w sched)))
    by (rewrite Htr; apply in_mid).
  assert (t = TMain) as -> by (apply run_may_call in Hin; now destruct t).
  assert (Hreg : registered_of (trace (run w sched))
                 = group_starts (calls_of TMain (trace (run w sched)))).
  { apply registered_calls. intros c u r' Hc.
    apply run_may_call in Hc. now destruct c. }
  destruct (run_path (koolo w) sched TMain) as (q & Hq).
  fold (run w sched) in Hq.
  apply calls_of_In in Hin.
  destruct (@main_orchestrating w _ q _ Hq Hin eq_refl)
    as (es1 & es2 & E & Hearly & _ & H2).
  rewrite E in Hin. apply in_after_early in Hin; auto.
  destruct (orchestrate_tasks H2) as [_ Hw].
  rewrite E, group_starts_app, (group_starts_early Hearly) in Hreg.
  simpl in Hreg. rewrite Hw in Hreg.
  - rewrite Htr, registered_of_app in Hreg. simpl in Hreg.
    now rewrite Hpost, app_nil_r in Hreg.
  - apply existsb_exists. exists (GroupWait, r). now split.
Qed.

(** X16.  [g.Wait] returns only after the shutdown is complete: every task
    of [expected_tasks] has returned, and the shutdown task has stopped
    the supervisors and the scheduler and has called [srv.Stop], which
    returned. *)
Theorem wait_returns_after_shutdown (w : world) (sched : list (tid * reply))
    (pre : list event) (t : tid) (r : reply) (post : list event) :
  trace (run w sched) = pre ++ Ev t GroupWait r :: post ->
  (forall u, In u (expected_tasks w) -> exists e, In (EvReturn u e) pre) /\
  In (Ev TShutdown ManagerStopAll Ok) pre /\
  In (Ev TShutdown SchedulerStop Ok) pre /\
  (exists r', In (Ev TShutdown ServerStop r') pre /\ is_panic r' = false).
Proof.
  intros Htr.
  destruct (wait_returns (koolo w) sched _ _ _ _ Htr) as [Hret _].
  rewrite (@registered_at_wait w sched pre t r post Htr) in Hret.
  split; [exact Hret|].
  assert (Hsh : exists e, In (EvReturn TShutdown e) pre).
  { apply Hret. unfold expected_tasks. right.
    apply in_or_app. right. apply in_or_app. right. simpl. tauto. }
  destruct Hsh as (e & Hin).
  apply in_split in Hin as (p1 & p2 & ->).
  assert (Htr' : trace (run w sched)
                 = p1 ++ EvReturn TShutdown e :: (p2 ++ Ev t GroupWait r :: post)).
  { rewrite Htr, <- app_assoc. reflexivity. }
  destruct (@run_return_path w sched _ _ _ _ Htr') as [Hp _].
  apply shutdown_calls in Hp as (r' & _ & Hcs).
  assert (Hcall : forall o x, In (o, x) (calls_of TShutdown p1) ->
                              In (Ev TShutdown o x)
                                 (p1 ++ EvReturn TShutdown e :: p2)).
  { intros o x Ho. apply in_or_app. left. now apply calls_of_In. }
  rewrite Hcs in Hcall. repeat split.
  - apply Hcall. simpl. tauto.
  - apply Hcall. simpl. tauto.
  - exists r'. split; [apply Hcall; simpl; tauto|].
    assert (Hv : valid_reply ServerStop r' = true).
    { apply (@run_valid w sched TShutdown). rewrite Htr'.
      apply in_or_app. left. apply calls_of_In. rewrite Hcs. simpl. tauto. }
    destruct r'; try reflexivity.
    exfalso.
    assert (Hpath : path (koolo w TShutdown) (calls_of TShutdown p1) (Ret e))
      by exact (proj1 (@run_return_path w sched _ _ _ _ Htr')).
    rewrite Hcs in Hpath. unfold koolo, shutdownTask in Hpath.
    explore Hpath; discriminate.
Qed.

Lemma wait_returns_after_shutdown_witness :
  let tr := trace (run (demo false false) clean_run) in
  (forall u, In u (expected_tasks (demo false false)) ->
             exists e, In (EvReturn u e) (firstn 33 tr)) /\
  In (Ev TShutdown ManagerStopAll Ok) (firstn 33 tr) /\
  In (Ev TShutdown SchedulerStop Ok) (firstn 33 tr) /\
  (exists r', In (Ev TShutdown ServerStop r') (firstn 33 tr)
              /\ is_panic r' = false).
Proof.
  apply (@wait_returns_after_shutdown (demo false false) clean_run
           _ TMain Ok
           (skipn 34 (trace (run (demo false false) clean_run)))).
  vm_compute. reflexivity.
Defined.

(** X17.  The scan when there is nothing to walk.  When ["config"] does
    not exist or cannot be read, [findConfigFiles] logs the error once,
    makes no request and returns; when ["config"] is a file or an empty
    directory it makes no call at all and returns.  None of this stops
    the startup. *)
Theorem scan_of_edge_roots (w : world) (es : list (op * reply))
    (q : prog unit) :
  path (findConfigFiles w) es q -> ended q = true ->
  match config_dir w with
  | Missing e | BadDir e =>
      es = [(StdLog ("Error accessing path config: " ++ e), Ok)] /\ q = Ret tt
  | File _ | Dir ENil => es = [] /\ q = Ret tt
  | Dir (ECons _ _ _) => True
  end.
Proof.
  intros H Hq. unfold findConfigFiles, Walk in H.
  destruct (config_dir w) as [c | [|name n rest] | e | e]; try exact I.
  - explore H; try discriminate Hq. split; reflexivity.
  - explore H; try discriminate Hq. split; reflexivity.
  - explore H; try discriminate Hq. split; reflexivity.
  - explore H; try discriminate Hq. split; reflexivity.
Qed.

Lemma scan_of_edge_roots_witness :
  [(StdLog "Error accessing path config: no such file or directory", Ok)]
  = [(StdLog ("Error accessing path config: " ++ "no such file or directory"), Ok)]
  /\ @Ret unit tt = Ret tt.
Proof.
  apply (@scan_of_edge_roots
           (mkWorld "\" (Missing "no such file or directory") false false)
           _ (Ret tt)).
  - match goal with
    | |- path ?p _ _ => let p' := eval hnf in p in change p with p'
    end.
    apply path_cons; [reflexivity | apply path_nil].
  - reflexivity.
Defined.
